(** * QuickbaseDemo: the in-memory record store and its indexes

    A shallow embedding of the indexing engine of the repository
    (fixed-schema table [QBTable] of src/Quickbase.cpp, its revision in
    src/unnamed/part_001, the dynamic-schema table [QBTableDynamic] of
    src/src/Quickbase_dynamic.cpp, and the reference implementation of
    src/main.cpp), followed by the properties of the specification that are
    settled against it.

    Conventions of the embedding:
    - [unsigned int] is [N], [long] is [Z], [size_t] is [nat]; no arithmetic
      is done on keys or fields, so no wrap-around appears.
    - [std::vector] is [list]; [v[i]] is [v !!! i].  Reading out of range is
      undefined in C++; the model reads the default element there, and the
      invariants below show that no reachable state does so.
    - [std::unordered_map] and [std::map] are [gmap], [std::set] is [gset];
      where the source iterates a [std::set] the model iterates it in the
      order of the container.
    - a C++ exception leaving a method is an explicit result carrying the
      state at the point of the [throw]. *)

From stdpp Require Import gmap strings list fin_maps sorting.
From Stdlib Require Import Ascii.

Open Scope string_scope.
Open Scope list_scope.
Open Scope nat_scope.

(** ** Text helpers: [std::from_chars] and [std::string::find] *)

Inductive errc := errc_ok | invalid_argument | result_out_of_range.

Global Instance errc_eq_dec : EqDecision errc.
Proof. solve_decision. Defined.

(** [ptr] is the offset of the returned pointer from the start of the text. *)
Record from_chars_result := mk_from_chars_result { ptr : nat; ec : errc }.

Definition is_digit (c : ascii) : bool :=
  (48 <=? N_of_ascii c)%N && (N_of_ascii c <=? 57)%N.

Definition digit_value (c : ascii) : N := (N_of_ascii c - 48)%N.

(** Longest run of decimal digits at the start of [s]: its value (on top of
    [acc]) and its length (on top of [cnt]). *)
Fixpoint scan_digits (s : string) (acc : N) (cnt : nat) : N * nat :=
  match s with
  | String c s' =>
      if is_digit c then scan_digits s' (10 * acc + digit_value c)%N (S cnt)
      else (acc, cnt)
  | EmptyString => (acc, cnt)
  end.

Definition UINT_MAX : N := 4294967295%N.
(** [long] of the LP64 targets the README builds on. *)
Definition LONG_MAX : Z := 9223372036854775807%Z.
Definition LONG_MIN : Z := (-9223372036854775808)%Z.

(** [std::from_chars(first, last, value)] for [unsigned int], base 10: no
    sign, no white space; the value is left untouched on failure.  The
    second component is the variable [value] after the call, which every
    caller initialises to [0]. *)
Definition from_chars_uint (s : string) : from_chars_result * N :=
  let '(v, n) := scan_digits s 0%N 0 in
  if decide (n = 0) then (mk_from_chars_result 0 invalid_argument, 0%N)
  else if decide (v ≤ UINT_MAX)%N then (mk_from_chars_result n errc_ok, v)
  else (mk_from_chars_result n result_out_of_range, 0%N).

(** [std::from_chars] for [long]: an optional minus sign, then digits. *)
Definition from_chars_long (s : string) : from_chars_result * Z :=
  match s with
  | String "-" s' =>
      let '(v, n) := scan_digits s' 0%N 0 in
      if decide (n = 0) then (mk_from_chars_result 0 invalid_argument, 0%Z)
      else if decide (LONG_MIN ≤ - Z.of_N v)%Z
           then (mk_from_chars_result (S n) errc_ok, (- Z.of_N v)%Z)
           else (mk_from_chars_result (S n) result_out_of_range, 0%Z)
  | _ =>
      let '(v, n) := scan_digits s 0%N 0 in
      if decide (n = 0) then (mk_from_chars_result 0 invalid_argument, 0%Z)
      else if decide (Z.of_N v ≤ LONG_MAX)%Z
           then (mk_from_chars_result n errc_ok, Z.of_N v)
           else (mk_from_chars_result n result_out_of_range, 0%Z)
  end.

Fixpoint is_prefix (p s : string) : bool :=
  match p, s with
  | EmptyString, _ => true
  | String a p', String b s' => if decide (a = b) then is_prefix p' s' else false
  | String _ _, EmptyString => false
  end.

(** [hay.find(needle) != std::string::npos] *)
Fixpoint contains (hay needle : string) : bool :=
  is_prefix needle hay ||
  match hay with
  | String _ hay' => contains hay' needle
  | EmptyString => false
  end.

(** ** Quickbase_types.hpp *)

(** [std::variant<uint, long, std::string>], the field value and index key. *)
Inductive FieldType := FUInt (n : N) | FLong (z : Z) | FStr (s : string).

Global Instance FieldType_eq_dec : EqDecision FieldType.
Proof. solve_decision. Defined.

Global Instance FieldType_countable : Countable FieldType.
Proof.
  refine (inj_countable'
    (λ f, match f with
          | FUInt n => inl n | FLong z => inr (inl z) | FStr s => inr (inr s)
          end)
    (λ x, match x with
          | inl n => FUInt n | inr (inl z) => FLong z | inr (inr s) => FStr s
          end) _).
  by intros [].
Defined.

Record QBRecord := mkQBRecord {
  column0 : N;       (* primary key *)
  column1 : string;
  column2 : Z;
  column3 : string
}.

Global Instance QBRecord_eq_dec : EqDecision QBRecord.
Proof. solve_decision. Defined.

Global Instance QBRecord_inhabited : Inhabited QBRecord :=
  populate (mkQBRecord 0 "" 0 "").

Inductive ColumnType := COLUMN0 | COLUMN1 | COLUMN2 | COLUMN3.

Global Instance ColumnType_eq_dec : EqDecision ColumnType.
Proof. solve_decision. Defined.

Global Instance ColumnType_countable : Countable ColumnType.
Proof.
  refine (inj_countable'
    (λ c, match c with COLUMN0 => 0 | COLUMN1 => 1 | COLUMN2 => 2 | COLUMN3 => 3 end)
    (λ n, match n with 0 => COLUMN0 | 1 => COLUMN1 | 2 => COLUMN2 | _ => COLUMN3 end) _).
  by intros [].
Defined.

(** [m[k].push_back(i)]: [operator[]] creates an empty bucket when the key is
    absent. *)
Definition push_back_bucket {K} `{Countable K}
    (k : K) (i : nat) (m : gmap K (list nat)) : gmap K (list nat) :=
  <[k := default [] (m !! k) ++ [i]]> m.

(** [v.erase(std::remove(v.begin(), v.end(), i), v.end())] *)
Definition erase_slot (i : nat) (v : list nat) : list nat :=
  filter (λ j, j ≠ i) v.

(** [std::swap(v[i], v[j])] *)
Definition swap_slots {A} `{Inhabited A} (v : list A) (i j : nat) : list A :=
  <[j := v !!! i]> (<[i := v !!! j]> v).

(** [v.pop_back()] *)
Definition pop_back {A} (v : list A) : list A := take (length v - 1) v.

(** ** The fixed-schema table, src/Quickbase.cpp *)

Module Fixed.

Abbreviation IndexKey := FieldType (only parsing).

Record QBTable := mkQBTable {
  records_ : list QBRecord;
  deleted_ : list bool;
  pkIndex_ : gmap N nat;
  secondaryIndexedColumns_ : gset ColumnType;
  secondaryIndexes_ : gmap (ColumnType * FieldType) (list nat)
}.

(** [QBTable() = default] *)
Definition empty : QBTable := mkQBTable [] [] ∅ ∅ ∅.

Definition set_pkIndex (t : QBTable) (m : gmap N nat) : QBTable :=
  mkQBTable (records_ t) (deleted_ t) m
            (secondaryIndexedColumns_ t) (secondaryIndexes_ t).

Definition set_secondaryIndexes (t : QBTable)
    (m : gmap (ColumnType * FieldType) (list nat)) : QBTable :=
  mkQBTable (records_ t) (deleted_ t) (pkIndex_ t)
            (secondaryIndexedColumns_ t) m.

Definition set_secondaryIndexedColumns (t : QBTable)
    (s : gset ColumnType) : QBTable :=
  mkQBTable (records_ t) (deleted_ t) (pkIndex_ t) s (secondaryIndexes_ t).

(** [records_[i]] and [deleted_[i]] *)
Definition record_at (t : QBTable) (i : nat) : QBRecord := records_ t !!! i.
Definition deleted_at (t : QBTable) (i : nat) : bool := deleted_ t !!! i.

(** The slots [0 .. records_.size() - 1] of the loops over the store. *)
Definition slots (t : QBTable) : list nat := seq 0 (length (records_ t)).

(** Iteration order of [std::set<ColumnType>]. *)
Definition columns_in_order (s : gset ColumnType) : list ColumnType :=
  filter (λ c, c ∈ s) [COLUMN0; COLUMN1; COLUMN2; COLUMN3].

Definition getColumnIndexKey (t : QBTable) (recordIdx : nat)
    (columnID : ColumnType) : IndexKey :=
  if decide (length (records_ t) ≤ recordIdx) then FStr ""
  else if deleted_at t recordIdx then FStr ""
  else
    let rec := record_at t recordIdx in
    match columnID with
    | COLUMN0 => FUInt (column0 rec)
    | COLUMN1 => FStr (column1 rec)
    | COLUMN2 => FLong (column2 rec)
    | COLUMN3 => FStr (column3 rec)
    end.

Definition rebuildPrimaryKeyIndex (t : QBTable) : QBTable :=
  set_pkIndex t
    (foldl (λ m i, if deleted_at t i then m
                   else <[column0 (record_at t i) := i]> m)
           ∅ (slots t)).

Definition removeSecondaryIndexForColumn (columnID : ColumnType)
    (t : QBTable) : QBTable :=
  set_secondaryIndexes t
    (filter (λ kv, kv.1.1 ≠ columnID) (secondaryIndexes_ t)).

Definition rebuildSecondaryIndexForColumn (columnID : ColumnType)
    (t : QBTable) : QBTable :=
  let t1 := removeSecondaryIndexForColumn columnID t in
  set_secondaryIndexes t1
    (foldl (λ m i, if deleted_at t1 i then m
                   else push_back_bucket
                          (columnID, getColumnIndexKey t1 i columnID) i m)
           (secondaryIndexes_ t1) (slots t1)).

(** The loop of [linearScan] over the remaining slots [todo], with the
    records collected so far in [result]. *)
Fixpoint linearScan_from (t : QBTable) (columnID : ColumnType)
    (matchString : string) (todo : list nat) (result : list QBRecord)
    : list QBRecord :=
  match todo with
  | [] => result
  | i :: todo' =>
      if deleted_at t i
      then linearScan_from t columnID matchString todo' result
      else
        let rec := record_at t i in
        match columnID with
        | COLUMN0 =>
            let '(r, matchValue) := from_chars_uint matchString in
            if bool_decide (ec r = errc_ok)
               && bool_decide (column0 rec = matchValue)
            then [rec]
            else linearScan_from t columnID matchString todo' result
        | COLUMN1 =>
            let matches := contains (column1 rec) matchString in
            linearScan_from t columnID matchString todo'
              (if matches then result ++ [rec] else result)
        | COLUMN2 =>
            let '(r, matchValue) := from_chars_long matchString in
            let matches :=
              if bool_decide (ec r = errc_ok)
              then bool_decide (column2 rec = matchValue) else false in
            linearScan_from t columnID matchString todo'
              (if matches then result ++ [rec] else result)
        | COLUMN3 =>
            let matches := contains (column3 rec) matchString in
            linearScan_from t columnID matchString todo'
              (if matches then result ++ [rec] else result)
        end
  end.

Definition linearScan (t : QBTable) (columnID : ColumnType)
    (matchString : string) : list QBRecord :=
  linearScan_from t columnID matchString (slots t) [].

Definition createIndex (columnID : ColumnType) (t : QBTable) : QBTable :=
  if decide (columnID = COLUMN0) then t
  else if decide (columnID ∈ secondaryIndexedColumns_ t) then t
  else rebuildSecondaryIndexForColumn columnID
         (set_secondaryIndexedColumns t
            ({[columnID]} ∪ secondaryIndexedColumns_ t)).

Definition dropIndex (columnID : ColumnType) (t : QBTable) : QBTable :=
  if decide (columnID = COLUMN0) then t
  else removeSecondaryIndexForColumn columnID
         (set_secondaryIndexedColumns t
            (secondaryIndexedColumns_ t ∖ {[columnID]})).

Definition isColumnIndexed (t : QBTable) (columnID : ColumnType) : bool :=
  if decide (columnID = COLUMN0) then true
  else bool_decide (columnID ∈ secondaryIndexedColumns_ t).

Definition addRecord (record : QBRecord) (t : QBTable) : QBTable :=
  let idx := length (records_ t) in
  let t1 := mkQBTable (records_ t ++ [record]) (deleted_ t ++ [false])
                      (<[column0 record := idx]> (pkIndex_ t))
                      (secondaryIndexedColumns_ t) (secondaryIndexes_ t) in
  set_secondaryIndexes t1
    (foldl (λ m columnID,
              push_back_bucket (columnID, getColumnIndexKey t1 idx columnID)
                               idx m)
           (secondaryIndexes_ t1)
           (columns_in_order (secondaryIndexedColumns_ t1))).

(** The loop of the soft delete over every bucket of the secondary index:
    the slot is erased from the bucket, and a bucket left empty is erased
    from the map. *)
Definition erase_from_buckets {K} `{Countable K} (recordIdx : nat)
    (m : gmap K (list nat)) : gmap K (list nat) :=
  omap (λ indices,
          match erase_slot recordIdx indices with
          | [] => None
          | indices' => Some indices'
          end) m.

Definition deleteRecordByID (id : N) (hardDelete : bool) (t : QBTable)
    : bool * QBTable :=
  match pkIndex_ t !! id with
  | None => (false, t)
  | Some recordIdx =>
      if negb hardDelete && deleted_at t recordIdx then (false, t)
      else if negb hardDelete then
        (true,
         mkQBTable (records_ t) (<[recordIdx := true]> (deleted_ t))
                   (delete id (pkIndex_ t))
                   (secondaryIndexedColumns_ t)
                   (erase_from_buckets recordIdx (secondaryIndexes_ t)))
      else
        let lastIdx := length (records_ t) - 1 in
        let t1 := mkQBTable
                    (pop_back (swap_slots (records_ t) recordIdx lastIdx))
                    (pop_back (swap_slots (deleted_ t) recordIdx lastIdx))
                    (pkIndex_ t) (secondaryIndexedColumns_ t)
                    (secondaryIndexes_ t) in
        (true,
         foldl (λ t' colID, rebuildSecondaryIndexForColumn colID t')
               (rebuildPrimaryKeyIndex t1)
               (columns_in_order (secondaryIndexedColumns_ t1)))
  end.

Definition findMatching (t : QBTable) (columnID : ColumnType)
    (matchString : string) : list QBRecord :=
  if decide (columnID = COLUMN0) then
    let '(convResult, matchValue) := from_chars_uint matchString in
    if decide (ec convResult ≠ errc_ok) then []
    else match pkIndex_ t !! matchValue with
         | None => []
         | Some slot =>
             if deleted_at t slot then [] else [record_at t slot]
         end
  else if decide (columnID ∈ secondaryIndexedColumns_ t) then
    let lookupKey : option IndexKey :=
      match columnID with
      | COLUMN1 | COLUMN3 => Some (FStr matchString)
      | COLUMN2 =>
          let '(result, v) := from_chars_long matchString in
          if decide (ec result ≠ errc_ok) then None else Some (FLong v)
      | COLUMN0 => Some (FStr matchString)
      end in
    match lookupKey with
    | None => []
    | Some key =>
        match secondaryIndexes_ t !! (columnID, key) with
        | None => []
        | Some bucket =>
            (λ idx, record_at t idx)
              <$> filter (λ idx, deleted_at t idx = false) bucket
        end
    end
  else linearScan t columnID matchString.

Definition activeRecordsCount (t : QBTable) : nat :=
  foldl (λ count (del : bool), if del then count else S count) 0 (deleted_ t).

Definition totalRecordsCount (t : QBTable) : nat := length (records_ t).

Definition compactRecords (t : QBTable) : QBTable :=
  let '(compacted, newDeleted) :=
    foldl (λ '(compacted, newDeleted) i,
             if deleted_at t i then (compacted, newDeleted)
             else (compacted ++ [record_at t i], newDeleted ++ [false]))
          ([], []) (slots t) in
  let t1 := rebuildPrimaryKeyIndex
              (mkQBTable compacted newDeleted (pkIndex_ t)
                         (secondaryIndexedColumns_ t) (secondaryIndexes_ t)) in
  foldl (λ t' columnID, rebuildSecondaryIndexForColumn columnID t')
        (set_secondaryIndexes t1 ∅)
        (columns_in_order (secondaryIndexedColumns_ t1)).

(** [stringToColumnType] of the header whose class declaration this file
    defines ([activeRecordsCount], [deleteRecordByID(uint, bool)]): the
    second header of src/include/Quickbase_types.hpp. *)
Definition stringToColumnType (columnName : string) : option ColumnType :=
  if bool_decide (String.length columnName ≤ 7)
     || bool_decide (String.substring 0 6 columnName ≠ "column")
  then None
  else match String.get 6 columnName with
       | Some "0"%char => Some COLUMN0
       | Some "1"%char => Some COLUMN1
       | Some "2"%char => Some COLUMN2
       | Some "3"%char => Some COLUMN3
       | _ => None
       end.

(** The overload of [findMatching] that takes the name of the column. *)
Definition findMatching_by_name (t : QBTable) (columnName : string)
    (matchString : string) : list QBRecord :=
  match stringToColumnType columnName with
  | None => []
  | Some columnID => findMatching t columnID matchString
  end.

(** The public mutating operations, and the table after a sequence of
    calls on a default-constructed table. *)
Inductive Op :=
| OpAddRecord (record : QBRecord)
| OpDeleteRecordByID (id : N) (hardDelete : bool)
| OpCompactRecords
| OpCreateIndex (columnID : ColumnType)
| OpDropIndex (columnID : ColumnType).

Definition step (t : QBTable) (op : Op) : QBTable :=
  match op with
  | OpAddRecord r => addRecord r t
  | OpDeleteRecordByID id hard => (deleteRecordByID id hard t).2
  | OpCompactRecords => compactRecords t
  | OpCreateIndex c => createIndex c t
  | OpDropIndex c => dropIndex c t
  end.

Definition run (ops : list Op) : QBTable := foldl step empty ops.

End Fixed.

(** ** The revised query path of the fixed-schema table, src/unnamed/part_001

    The revision keeps the state of the table and changes how a match text
    is parsed: the whole text has to be consumed. *)

Module FixedRev.

Import Fixed.

Fixpoint linearScan_from (t : QBTable) (columnID : ColumnType)
    (matchString : string) (todo : list nat) (result : list QBRecord)
    : list QBRecord :=
  match todo with
  | [] => result
  | i :: todo' =>
      if deleted_at t i
      then linearScan_from t columnID matchString todo' result
      else
        let rec := record_at t i in
        match columnID with
        | COLUMN1 =>
            let matches := contains (column1 rec) matchString in
            linearScan_from t columnID matchString todo'
              (if matches then result ++ [rec] else result)
        | COLUMN2 =>
            let '(convResult, matchValue) := from_chars_long matchString in
            if bool_decide (ec convResult ≠ errc_ok)
               || bool_decide (ptr convResult ≠ String.length matchString)
            then []
            else
              let matches := bool_decide (column2 rec = matchValue) in
              linearScan_from t columnID matchString todo'
                (if matches then result ++ [rec] else result)
        | COLUMN3 =>
            let matches := contains (column3 rec) matchString in
            linearScan_from t columnID matchString todo'
              (if matches then result ++ [rec] else result)
        | COLUMN0 =>
            linearScan_from t columnID matchString todo' result
        end
  end.

Definition linearScan (t : QBTable) (columnID : ColumnType)
    (matchString : string) : list QBRecord :=
  linearScan_from t columnID matchString (slots t) [].

Definition findMatching (t : QBTable) (columnID : ColumnType)
    (matchString : string) : list QBRecord :=
  if decide (columnID = COLUMN0) then
    let '(convResult, matchValue) := from_chars_uint matchString in
    if bool_decide (ec convResult ≠ errc_ok)
       || bool_decide (ptr convResult ≠ String.length matchString)
    then []
    else match pkIndex_ t !! matchValue with
         | None => []
         | Some slot => [record_at t slot]
         end
  else if decide (columnID ∈ secondaryIndexedColumns_ t) then
    let lookupKey : option IndexKey :=
      match columnID with
      | COLUMN1 | COLUMN3 => Some (FStr matchString)
      | COLUMN2 =>
          let '(convResult, v) := from_chars_long matchString in
          if bool_decide (ec convResult ≠ errc_ok)
             || bool_decide (ptr convResult ≠ String.length matchString)
          then None else Some (FLong v)
      | COLUMN0 => Some (FStr matchString)
      end in
    match lookupKey with
    | None => []
    | Some key =>
        match secondaryIndexes_ t !! (columnID, key) with
        | None => []
        | Some bucket =>
            (λ idx, record_at t idx)
              <$> filter (λ idx, deleted_at t idx = false) bucket
        end
    end
  else linearScan t columnID matchString.

End FixedRev.

(** ** src/Quickbase.hpp

    The class this header declares ([activeRecordCount],
    [deleteRecordByID(const uint &, const bool)]) is defined by none of the
    files; its [stringToColumnType] stands alone. *)

Module QuickbaseHpp.

Definition stringToColumnType (columnName : string) : option ColumnType :=
  if decide (columnName = "column0") then Some COLUMN0
  else if decide (columnName = "column1") then Some COLUMN1
  else if decide (columnName = "column2") then Some COLUMN2
  else if decide (columnName = "column3") then Some COLUMN3
  else None.

End QuickbaseHpp.

(** ** The reference implementation of src/main.cpp *)

Module Baseline.

Section conversions.

(** [std::stoul] and [std::stol] are left open: the value converted, or
    [None] where the call throws. *)
Variable stoul : string → option N.
Variable stol : string → option Z.

(** The predicate of the [std::copy_if]; [None] where it throws. *)
Definition matches (columnName matchString : string) (rec : QBRecord)
    : option bool :=
  if decide (columnName = "column0") then
    match stoul matchString with
    | None => None
    | Some matchValue => Some (bool_decide (matchValue = column0 rec))
    end
  else if decide (columnName = "column1") then
    Some (contains (column1 rec) matchString)
  else if decide (columnName = "column2") then
    match stol matchString with
    | None => None
    | Some matchValue => Some (bool_decide (matchValue = column2 rec))
    end
  else if decide (columnName = "column3") then
    Some (contains (column3 rec) matchString)
  else Some false.

(** [std::copy_if(first, last, std::back_inserter(result), pred)] *)
Fixpoint copy_if (pred : QBRecord → option bool) (records : list QBRecord)
    (result : list QBRecord) : option (list QBRecord) :=
  match records with
  | [] => Some result
  | rec :: records' =>
      match pred rec with
      | None => None
      | Some b => copy_if pred records' (if b then result ++ [rec] else result)
      end
  end.

Definition QBFindMatchingRecords (records : list QBRecord)
    (columnName matchString : string) : option (list QBRecord) :=
  copy_if (matches columnName matchString) records [].

End conversions.

End Baseline.

(** ** The dynamic-schema table, src/src/Quickbase_dynamic.cpp *)

Module Dyn.

Record QBRecordDynamic := mkQBRecordDynamic {
  id : N;                            (* primary key *)
  fields : gmap string FieldType
}.

Global Instance QBRecordDynamic_inhabited : Inhabited QBRecordDynamic :=
  populate (mkQBRecordDynamic 0 ∅).

(** [std::function<FieldType(const QBRecordDynamic&)>], taken to be pure. *)
Definition DerivedFunc : Type := QBRecordDynamic → FieldType.

Record QBTableDynamic := mkQBTableDynamic {
  records_ : list QBRecordDynamic;
  deleted_ : list bool;
  columns_ : gset string;
  derivedColumns_ : gmap string DerivedFunc;
  pkIndex_ : gmap N nat;
  secondaryIndexedColumns_ : gset string;
  secondaryIndexes_ : gmap (string * FieldType) (list nat)
}.

Definition empty : QBTableDynamic := mkQBTableDynamic [] [] ∅ ∅ ∅ ∅ ∅.

Inductive exception :=
| runtime_error (what : string)
| bad_variant_access.

(** Result of a [const] method. *)
Inductive result (A : Type) :=
| Value (a : A)
| Raised (e : exception).
Arguments Value {A} a.
Arguments Raised {A} e.

(** Result of a mutating method: the value returned or the exception
    thrown, with the table as the method left it. *)
Inductive outcome (A : Type) :=
| Returns (a : A) (t : QBTableDynamic)
| Throws (e : exception) (t : QBTableDynamic).
Arguments Returns {A} a t.
Arguments Throws {A} e t.

(** A loop whose body may throw: the exception leaves the loop with the
    table as it is at that point. *)
Fixpoint for_each {I} (body : I → QBTableDynamic → outcome unit)
    (todo : list I) (t : QBTableDynamic) : outcome unit :=
  match todo with
  | [] => Returns () t
  | i :: todo' =>
      match body i t with
      | Returns _ t' => for_each body todo' t'
      | Throws e t' => Throws e t'
      end
  end.

Definition set_records (t : QBTableDynamic)
    (rs : list QBRecordDynamic) (ds : list bool) : QBTableDynamic :=
  mkQBTableDynamic rs ds (columns_ t) (derivedColumns_ t) (pkIndex_ t)
                   (secondaryIndexedColumns_ t) (secondaryIndexes_ t).

Definition set_columns (t : QBTableDynamic) (s : gset string)
    : QBTableDynamic :=
  mkQBTableDynamic (records_ t) (deleted_ t) s (derivedColumns_ t)
                   (pkIndex_ t) (secondaryIndexedColumns_ t)
                   (secondaryIndexes_ t).

Definition set_derivedColumns (t : QBTableDynamic)
    (m : gmap string DerivedFunc) : QBTableDynamic :=
  mkQBTableDynamic (records_ t) (deleted_ t) (columns_ t) m
                   (pkIndex_ t) (secondaryIndexedColumns_ t)
                   (secondaryIndexes_ t).

Definition set_pkIndex (t : QBTableDynamic) (m : gmap N nat)
    : QBTableDynamic :=
  mkQBTableDynamic (records_ t) (deleted_ t) (columns_ t) (derivedColumns_ t)
                   m (secondaryIndexedColumns_ t) (secondaryIndexes_ t).

Definition set_secondaryIndexedColumns (t : QBTableDynamic)
    (s : gset string) : QBTableDynamic :=
  mkQBTableDynamic (records_ t) (deleted_ t) (columns_ t) (derivedColumns_ t)
                   (pkIndex_ t) s (secondaryIndexes_ t).

Definition set_secondaryIndexes (t : QBTableDynamic)
    (m : gmap (string * FieldType) (list nat)) : QBTableDynamic :=
  mkQBTableDynamic (records_ t) (deleted_ t) (columns_ t) (derivedColumns_ t)
                   (pkIndex_ t) (secondaryIndexedColumns_ t) m.

Definition record_at (t : QBTableDynamic) (i : nat) : QBRecordDynamic :=
  records_ t !!! i.
Definition deleted_at (t : QBTableDynamic) (i : nat) : bool :=
  deleted_ t !!! i.

Definition slots (t : QBTableDynamic) : list nat :=
  seq 0 (length (records_ t)).

(** [std::string::operator<=], the order of [std::set<std::string>]. *)
Definition string_le (a b : string) : Prop := String.leb a b = true.

Global Instance string_le_dec : RelDecision string_le.
Proof. intros a b. unfold string_le. apply _. Defined.

(** Iteration order of [std::set<std::string>]. *)
Definition columns_in_order (s : gset string) : list string :=
  merge_sort string_le (elements s).

Definition getField (t : QBTableDynamic) (recordIdx : nat) (column : string)
    : result FieldType :=
  let rec := record_at t recordIdx in
  match fields rec !! column with
  | Some v => Value v
  | None =>
      match derivedColumns_ t !! column with
      | Some func => Value (func rec)
      | None => Raised (runtime_error (String.append "Unknown column: " column))
      end
  end.

Definition rebuildSecondaryIndex (column : string) (t : QBTableDynamic)
    : outcome unit :=
  for_each
    (λ i t',
       if deleted_at t' i then Returns () t'
       else match getField t' i column with
            | Raised e => Throws e t'
            | Value v =>
                Returns ()
                  (set_secondaryIndexes t'
                     (push_back_bucket (column, v) i (secondaryIndexes_ t')))
            end)
    (slots t) t.

Definition rebuildPrimaryIndex (t : QBTableDynamic) : QBTableDynamic :=
  set_pkIndex t
    (foldl (λ m i, if deleted_at t i then m
                   else <[id (record_at t i) := i]> m)
           ∅ (slots t)).

Definition findMatching (t : QBTableDynamic) (column : string)
    (value : FieldType) : result (list QBRecordDynamic) :=
  if decide (column = "id") then
    match value with
    | FUInt key =>
        match pkIndex_ t !! key with
        | Some slot =>
            if deleted_at t slot then Value [] else Value [record_at t slot]
        | None => Value []
        end
    | _ => Raised bad_variant_access
    end
  else
    match secondaryIndexes_ t !! (column, value) with
    | Some bucket =>
        Value ((λ i, record_at t i)
                 <$> filter (λ i, deleted_at t i = false) bucket)
    | None =>
        Value ((λ i, record_at t i)
                 <$> filter (λ i, deleted_at t i = false
                                  ∧ fields (record_at t i) !! column = Some value)
                            (slots t))
    end.

Definition deleteRecordByID (id : N) (hardDelete : bool) (t : QBTableDynamic)
    : outcome bool :=
  match pkIndex_ t !! id with
  | None => Returns false t
  | Some idx =>
      if negb hardDelete && deleted_at t idx then Returns false t
      else if negb hardDelete then
        let t1 := set_pkIndex
                    (set_records t (records_ t) (<[idx := true]> (deleted_ t)))
                    (delete id (pkIndex_ t)) in
        match
          for_each
            (λ column t',
               match getField t' idx column with
               | Raised e => Throws e t'
               | Value value =>
                   match secondaryIndexes_ t' !! (column, value) with
                   | None => Returns () t'
                   | Some vec =>
                       Returns ()
                         (set_secondaryIndexes t'
                            (match erase_slot idx vec with
                             | [] => delete (column, value) (secondaryIndexes_ t')
                             | vec' => <[(column, value) := vec']>
                                         (secondaryIndexes_ t')
                             end))
                   end
               end)
            (columns_in_order (secondaryIndexedColumns_ t1)) t1
        with
        | Returns _ t2 => Returns true t2
        | Throws e t2 => Throws e t2
        end
      else
        let lastIdx := length (records_ t) - 1 in
        let t1 :=
          if decide (idx ≠ lastIdx)
          then set_records t (swap_slots (records_ t) idx lastIdx)
                             (swap_slots (deleted_ t) idx lastIdx)
          else t in
        let t2 := set_records t1 (pop_back (records_ t1))
                                 (pop_back (deleted_ t1)) in
        let t3 := set_secondaryIndexes (rebuildPrimaryIndex t2) ∅ in
        match
          for_each
            (λ column t',
               if decide (column = "id") then Returns () t'
               else rebuildSecondaryIndex column t')
            (columns_in_order (secondaryIndexedColumns_ t3)) t3
        with
        | Returns _ t4 => Returns true t4
        | Throws e t4 => Throws e t4
        end
  end.

Definition addColumn (name : string) (defaultValue : FieldType)
    (t : QBTableDynamic) : outcome bool :=
  if decide (name ∈ columns_ t) then Returns false t
  else
    Returns true
      (set_records (set_columns t ({[name]} ∪ columns_ t))
         ((λ r, match fields r !! name with
                | Some _ => r
                | None => mkQBRecordDynamic (id r)
                            (<[name := defaultValue]> (fields r))
                end) <$> records_ t)
         (deleted_ t)).

Definition removeColumn (name : string) (t : QBTableDynamic)
    : QBTableDynamic :=
  mkQBTableDynamic
    ((λ r, mkQBRecordDynamic (id r) (delete name (fields r))) <$> records_ t)
    (deleted_ t)
    (columns_ t ∖ {[name]})
    (derivedColumns_ t)
    (pkIndex_ t)
    (secondaryIndexedColumns_ t ∖ {[name]})
    (delete (name, FUInt 0) (secondaryIndexes_ t)).

Definition addDerivedColumn (name : string) (func : DerivedFunc)
    (t : QBTableDynamic) : outcome bool :=
  if decide (name ∈ columns_ t) then Returns false t
  else Returns true (set_derivedColumns t (<[name := func]> (derivedColumns_ t))).

Definition addRecord (record : QBRecordDynamic) (t : QBTableDynamic)
    : outcome bool :=
  if bool_decide (map_Forall (λ key _, key ∈ columns_ t) (fields record))
  then
    let idx := length (records_ t) in
    let t1 := set_pkIndex
                (set_records t (records_ t ++ [record]) (deleted_ t ++ [false]))
                (<[id record := idx]> (pkIndex_ t)) in
    match
      for_each
        (λ col t',
           match getField t' idx col with
           | Raised e => Throws e t'
           | Value v =>
               Returns ()
                 (set_secondaryIndexes t'
                    (push_back_bucket (col, v) idx (secondaryIndexes_ t')))
           end)
        (columns_in_order (secondaryIndexedColumns_ t1)) t1
    with
    | Returns _ t2 => Returns true t2
    | Throws e t2 => Throws e t2
    end
  else Returns false t.

Definition createIndex (column : string) (t : QBTableDynamic)
    : outcome unit :=
  if decide ((column ∉ columns_ t) ∧ derivedColumns_ t !! column = None)
  then Throws (runtime_error "Cannot index unknown column") t
  else if decide (column ∈ secondaryIndexedColumns_ t) then Returns () t
  else rebuildSecondaryIndex column
         (set_secondaryIndexedColumns t
            ({[column]} ∪ secondaryIndexedColumns_ t)).

Definition dropIndex (column : string) (t : QBTableDynamic) : outcome unit :=
  if decide (column = "id")
  then Throws (runtime_error "Cannot drop index on primary key column") t
  else
    Returns ()
      (set_secondaryIndexes
         (set_secondaryIndexedColumns t
            (secondaryIndexedColumns_ t ∖ {[column]}))
         (filter (λ kv, kv.1.1 ≠ column) (secondaryIndexes_ t))).

Definition activeRecordsCount (t : QBTableDynamic) : nat :=
  length (filter (λ del : bool, del = false) (deleted_ t)).

Definition totalRecordsCount (t : QBTableDynamic) : nat :=
  length (records_ t).

Definition compactRecords (t : QBTableDynamic) : outcome unit :=
  let compacted :=
    (foldl (λ '(compacted, i) rec,
              (if deleted_at t i then compacted else compacted ++ [rec], S i))
           ([], 0) (records_ t)).1 in
  let t1 := set_records t compacted (replicate (length compacted) false) in
  let t2 := set_secondaryIndexes (rebuildPrimaryIndex t1) ∅ in
  for_each (λ column t', rebuildSecondaryIndex column t')
           (columns_in_order (secondaryIndexedColumns_ t2)) t2.

(** The public mutating operations, and the table after a sequence of
    calls on a default-constructed table; a call that throws ends the
    sequence. *)
Inductive Op :=
| OpAddColumn (name : string) (defaultValue : FieldType)
| OpRemoveColumn (name : string)
| OpAddDerivedColumn (name : string) (func : DerivedFunc)
| OpCreateIndex (column : string)
| OpDropIndex (column : string)
| OpAddRecord (record : QBRecordDynamic)
| OpDeleteRecordByID (id : N) (hardDelete : bool)
| OpCompactRecords.

Definition discard {A} (o : outcome A) : outcome unit :=
  match o with
  | Returns _ t => Returns () t
  | Throws e t => Throws e t
  end.

Definition step (op : Op) (t : QBTableDynamic) : outcome unit :=
  match op with
  | OpAddColumn name d => discard (addColumn name d t)
  | OpRemoveColumn name => Returns () (removeColumn name t)
  | OpAddDerivedColumn name f => discard (addDerivedColumn name f t)
  | OpCreateIndex c => createIndex c t
  | OpDropIndex c => dropIndex c t
  | OpAddRecord r => discard (addRecord r t)
  | OpDeleteRecordByID k hard => discard (deleteRecordByID k hard t)
  | OpCompactRecords => compactRecords t
  end.

Definition run (ops : list Op) : outcome unit := for_each step ops empty.

End Dyn.

(** ** Properties of the store that the statements below speak about *)

Module FixedSpec.

Import Fixed.

(** Slots whose deleted marker is false, in ascending order. *)
Definition active_slots (t : QBTable) : list nat :=
  filter (λ i, deleted_at t i = false) (slots t).

Definition active_records (t : QBTable) : list QBRecord :=
  (λ i, record_at t i) <$> active_slots t.

(** At most one active record holds any given primary key. *)
Definition unique_active_keys (t : QBTable) : Prop :=
  ∀ i j, i ∈ active_slots t → j ∈ active_slots t →
         column0 (record_at t i) = column0 (record_at t j) → i = j.

(** No active record holds the key [k]. *)
Definition key_free (t : QBTable) (k : N) : Prop :=
  Forall (λ i, column0 (record_at t i) ≠ k) (active_slots t).

(** Every [addRecord] of the sequence, run from [t], carries a key that no
    active record holds at that point. *)
Fixpoint fresh_adds_from (t : QBTable) (ops : list Op) : Prop :=
  match ops with
  | [] => True
  | op :: ops' =>
      match op with
      | OpAddRecord r => key_free t (column0 r)
      | _ => True
      end ∧ fresh_adds_from (step t op) ops'
  end.

(** Every entry of the primary-key index points to an active slot that
    holds the key. *)
Definition pk_sound (t : QBTable) : Prop :=
  ∀ k i, pkIndex_ t !! k = Some i →
         i ∈ active_slots t ∧ column0 (record_at t i) = k.

(** Every key held by an active record resolves to an active slot that
    holds it. *)
Definition pk_complete (t : QBTable) : Prop :=
  ∀ i, i ∈ active_slots t →
       ∃ j, pkIndex_ t !! column0 (record_at t i) = Some j.

(** A bucket as the map stores it: absent when it would be empty. *)
Definition bucket (hits : list nat) : option (list nat) :=
  match hits with [] => None | _ => Some hits end.

(** What the secondary index holds under the key [(c, v)] when it is
    consistent with the store: for an indexed column the active slots whose
    value for [c] is [v], in ascending order; nothing otherwise. *)
Definition bucket_spec (t : QBTable) (c : ColumnType) (v : FieldType)
    : option (list nat) :=
  if decide (c ∈ secondaryIndexedColumns_ t)
  then bucket (filter (λ i, getColumnIndexKey t i c = v) (active_slots t))
  else None.

Definition sec_exact (t : QBTable) : Prop :=
  ∀ c v, secondaryIndexes_ t !! (c, v) = bucket_spec t c v.

Record wf (t : QBTable) : Prop := mk_wf {
  wf_length : length (deleted_ t) = length (records_ t);
  wf_pk : pk_sound t;
  wf_sec : sec_exact t
}.

(** [needle] occurs in [hay]. *)
Definition is_substring (needle hay : string) : Prop :=
  ∃ pre post, hay = String.append pre (String.append needle post).

(** What the linear scan of an unindexed column matches: a text column by
    substring containment, the numeric column by its value when the match
    text parses; the primary-key column is never scanned. *)
Definition scan_matches (c : ColumnType) (s : string) (r : QBRecord) : bool :=
  match c with
  | COLUMN0 => false
  | COLUMN1 => contains (column1 r) s
  | COLUMN2 =>
      bool_decide (ec (from_chars_long s).1 = errc_ok)
      && bool_decide (column2 r = (from_chars_long s).2)
  | COLUMN3 => contains (column3 r) s
  end.

(** The table a successful soft delete of slot [idx] leaves. *)
Definition soft_deleted (id : N) (idx : nat) (t : QBTable) : QBTable :=
  mkQBTable (records_ t) (<[idx := true]> (deleted_ t))
            (delete id (pkIndex_ t)) (secondaryIndexedColumns_ t)
            (erase_from_buckets idx (secondaryIndexes_ t)).

(** The store a hard delete of slot [idx] leaves, before the rebuilds. *)
Definition hard_deleted_store (idx : nat) (t : QBTable) : QBTable :=
  mkQBTable
    (pop_back (swap_slots (records_ t) idx (length (records_ t) - 1)))
    (pop_back (swap_slots (deleted_ t) idx (length (records_ t) - 1)))
    (pkIndex_ t) (secondaryIndexedColumns_ t) (secondaryIndexes_ t).

Definition hard_deleted (idx : nat) (t : QBTable) : QBTable :=
  foldl (λ t' colID, rebuildSecondaryIndexForColumn colID t')
        (rebuildPrimaryKeyIndex (hard_deleted_store idx t))
        (columns_in_order (secondaryIndexedColumns_ t)).

(** The store a compaction leaves, before the rebuilds. *)
Definition compacted_store (t : QBTable) : QBTable :=
  mkQBTable (active_records t)
            (replicate (length (active_slots t)) false)
            (pkIndex_ t) (secondaryIndexedColumns_ t) (secondaryIndexes_ t).

End FixedSpec.

(** ** The record store of either table: records, deleted markers, keys *)

Section store_model.
Context {R : Type} `{Inhabited R} (key : R → N).
Implicit Types (rs : list R) (ds : list bool) (pk : gmap N nat).

Definition active_of rs ds : list nat :=
  filter (λ i, ds !!! i = false) (seq 0 (length rs)).

Definition unique_of rs ds : Prop :=
  ∀ i j, i ∈ active_of rs ds → j ∈ active_of rs ds →
         key (rs !!! i) = key (rs !!! j) → i = j.

Definition free_of rs ds (k : N) : Prop :=
  Forall (λ i, key (rs !!! i) ≠ k) (active_of rs ds).

Definition pk_sound_of rs ds pk : Prop :=
  ∀ k i, pk !! k = Some i → i ∈ active_of rs ds ∧ key (rs !!! i) = k.

Definition pk_complete_of rs ds pk : Prop :=
  ∀ i, i ∈ active_of rs ds → ∃ j, pk !! key (rs !!! i) = Some j.

(** Where the element of slot [j] was before a hard delete of [idx]. *)
Definition hard_origin rs (idx j : nat) : nat :=
  if decide (j = idx) then length rs - 1 else j.

End store_model.

(** ** Properties of the dynamic-schema table *)

Module DynSpec.

Import Dyn.

Global Instance exception_eq_dec : EqDecision exception.
Proof. solve_decision. Defined.

Global Instance result_eq_dec {A} `{EqDecision A} : EqDecision (result A).
Proof. solve_decision. Defined.

Definition active_slots (t : QBTableDynamic) : list nat :=
  filter (λ i, deleted_at t i = false) (slots t).

Definition active_records (t : QBTableDynamic) : list QBRecordDynamic :=
  (λ i, record_at t i) <$> active_slots t.

Definition unique_active_keys (t : QBTableDynamic) : Prop :=
  ∀ i j, i ∈ active_slots t → j ∈ active_slots t →
         id (record_at t i) = id (record_at t j) → i = j.

Definition key_free (t : QBTableDynamic) (k : N) : Prop :=
  Forall (λ i, id (record_at t i) ≠ k) (active_slots t).

(** Every [addRecord] of the sequence, run from [t] until a call throws,
    carries a key that no active record holds at that point. *)
Fixpoint fresh_adds_from (t : QBTableDynamic) (ops : list Op) : Prop :=
  match ops with
  | [] => True
  | op :: ops' =>
      match op with
      | OpAddRecord r => key_free t (id r)
      | _ => True
      end
      ∧ match step op t with
        | Returns _ t' => fresh_adds_from t' ops'
        | Throws _ _ => True
        end
  end.

Definition pk_sound (t : QBTableDynamic) : Prop :=
  ∀ k i, pkIndex_ t !! k = Some i →
         i ∈ active_slots t ∧ id (record_at t i) = k.

Definition pk_complete (t : QBTableDynamic) : Prop :=
  ∀ i, i ∈ active_slots t → ∃ j, pkIndex_ t !! id (record_at t i) = Some j.

(** [getField] finds a value for the column: the record has the field, or
    the column is derived. *)
Definition resolves (t : QBTableDynamic) (r : QBRecordDynamic)
    (column : string) : Prop :=
  is_Some (fields r !! column) ∨ is_Some (derivedColumns_ t !! column).

(** Every indexed column can be evaluated on every active record. *)
Definition indexable (t : QBTableDynamic) : Prop :=
  ∀ c i, c ∈ secondaryIndexedColumns_ t → i ∈ active_slots t →
         resolves t (record_at t i) c.

Definition bucket_spec (t : QBTableDynamic) (c : string) (v : FieldType)
    : option (list nat) :=
  if decide (c ∈ secondaryIndexedColumns_ t)
  then FixedSpec.bucket
         (filter (λ i, getField t i c = Value v) (active_slots t))
  else None.

Definition sec_exact (t : QBTableDynamic) : Prop :=
  ∀ c v, secondaryIndexes_ t !! (c, v) = bucket_spec t c v.

Record wf (t : QBTableDynamic) : Prop := mk_wf {
  wf_length : length (deleted_ t) = length (records_ t);
  wf_pk : pk_sound t;
  wf_indexable : indexable t
}.

(** A loop over the secondary index alone: each iteration maps the index
    to a new one or throws. *)
Definition index_step (I : Type) : Type :=
  I → gmap (string * FieldType) (list nat)
    → option exception * gmap (string * FieldType) (list nat).

Fixpoint index_loop {I} (F : index_step I) (todo : list I)
    (m : gmap (string * FieldType) (list nat))
    : option exception * gmap (string * FieldType) (list nat) :=
  match todo with
  | [] => (None, m)
  | i :: todo' =>
      match F i m with
      | (None, m') => index_loop F todo' m'
      | (Some e, m') => (Some e, m')
      end
  end.

Definition with_index {A} (a : A) (t : QBTableDynamic)
    (r : option exception * gmap (string * FieldType) (list nat))
    : outcome A :=
  match r with
  | (None, m) => Returns a (set_secondaryIndexes t m)
  | (Some e, m) => Throws e (set_secondaryIndexes t m)
  end.

Definition field_or_default (t : QBTableDynamic) (i : nat) (c : string)
    : FieldType :=
  match getField t i c with Value v => v | Raised _ => FUInt 0 end.

(** The iteration of [rebuildSecondaryIndex] for slot [i]. *)
Definition rebuild_step (t : QBTableDynamic) (c : string) : index_step nat :=
  λ i m,
    if deleted_at t i then (None, m)
    else match getField t i c with
         | Raised e => (Some e, m)
         | Value v => (None, push_back_bucket (c, v) i m)
         end.

(** An iteration that evaluates a field and throws when there is none. *)
Definition get_step {I} (g : I → result FieldType)
    (h : I → FieldType → gmap (string * FieldType) (list nat)
           → gmap (string * FieldType) (list nat)) : index_step I :=
  λ i m, match g i with
         | Raised e => (Some e, m)
         | Value v => (None, h i v m)
         end.

(** The store [addRecord] leaves before it updates the secondary index. *)
Definition pushed (record : QBRecordDynamic) (t : QBTableDynamic)
    : QBTableDynamic :=
  set_pkIndex
    (set_records t (records_ t ++ [record]) (deleted_ t ++ [false]))
    (<[id record := length (records_ t)]> (pkIndex_ t)).

(** The store a soft delete leaves before it updates the secondary index. *)
Definition soft_marked (k : N) (idx : nat) (t : QBTableDynamic)
    : QBTableDynamic :=
  set_pkIndex (set_records t (records_ t) (<[idx := true]> (deleted_ t)))
              (delete k (pkIndex_ t)).

(** The bucket update of the soft delete for one indexed column. *)
Definition unindex_slot (idx : nat) (column : string) (value : FieldType)
    (m : gmap (string * FieldType) (list nat))
    : gmap (string * FieldType) (list nat) :=
  match m !! (column, value) with
  | None => m
  | Some vec =>
      match erase_slot idx vec with
      | [] => delete (column, value) m
      | vec' => <[(column, value) := vec']> m
      end
  end.

(** The store a hard delete leaves before the rebuilds. *)
Definition hard_deleted_store (idx : nat) (t : QBTableDynamic)
    : QBTableDynamic :=
  set_records t
    (pop_back (swap_slots (records_ t) idx (length (records_ t) - 1)))
    (pop_back (swap_slots (deleted_ t) idx (length (records_ t) - 1))).

(** The store a compaction leaves before the rebuilds. *)
Definition compacted_store (t : QBTableDynamic) : QBTableDynamic :=
  set_records t (active_records t)
              (replicate (length (active_slots t)) false).

(** The iteration of the rebuild of the indexed columns, which the hard
    delete skips for the column named "id". *)
Definition rebuild_columns_step (t : QBTableDynamic) (skip : string → bool)
    : index_step string :=
  λ column m,
    if skip column then (None, m)
    else index_loop (rebuild_step t column) (slots t) m.

(** What [addColumn] and [removeColumn] do to a record. *)
Definition with_default (name : string) (d : FieldType)
    (r : QBRecordDynamic) : QBRecordDynamic :=
  match fields r !! name with
  | Some _ => r
  | None => mkQBRecordDynamic (id r) (<[name := d]> (fields r))
  end.

Definition without_field (name : string) (r : QBRecordDynamic)
    : QBRecordDynamic :=
  mkQBRecordDynamic (id r) (delete name (fields r)).

End DynSpec.

(** ** Example tables *)

Module Examples.

Definition alice : QBRecord := mkQBRecord 1 "alice" 30 "admin".
Definition alice_again : QBRecord := mkQBRecord 1 "alias" 31 "guest".
Definition bob : QBRecord := mkQBRecord 2 "bob" 30 "user".
Definition carol : QBRecord := mkQBRecord 123 "carol" 7 "user".

(** One record, soft-deleted and not yet compacted. *)
Definition fixed_soft_deleted : Fixed.QBTable :=
  Fixed.run [Fixed.OpAddRecord alice; Fixed.OpDeleteRecordByID 1 false].

Definition fixed_duplicates : Fixed.QBTable :=
  Fixed.run [Fixed.OpAddRecord alice; Fixed.OpAddRecord alice_again].

Definition fixed_ops : list Fixed.Op :=
  [Fixed.OpAddRecord alice; Fixed.OpCreateIndex COLUMN2;
   Fixed.OpAddRecord bob; Fixed.OpAddRecord carol;
   Fixed.OpDeleteRecordByID 2 false].

Definition dyn_alice : Dyn.QBRecordDynamic :=
  Dyn.mkQBRecordDynamic 1 (<["name" := FStr "alice"]> ∅).
Definition dyn_bob : Dyn.QBRecordDynamic :=
  Dyn.mkQBRecordDynamic 2 (<["name" := FStr "bob"]> ∅).

Definition dyn_ops : list Dyn.Op :=
  [Dyn.OpAddColumn "name" (FStr ""); Dyn.OpCreateIndex "name";
   Dyn.OpAddRecord dyn_alice; Dyn.OpAddRecord dyn_bob;
   Dyn.OpDeleteRecordByID 2 false].

(** The table [dyn_ops] builds. *)
Definition dyn_table : Dyn.QBTableDynamic :=
  Dyn.mkQBTableDynamic [dyn_alice; dyn_bob] [false; true] {["name"]} ∅
    (<[1%N := 0]> ∅) {["name"]} (<[("name", FStr "alice") := [0]]> ∅).

(** A schema with one physical column and no record, and a record that
    carries no field. *)
Definition dyn_schema_only : Dyn.QBTableDynamic :=
  Dyn.mkQBTableDynamic [] [] {["name"]} ∅ ∅ ∅ ∅.
Definition dyn_nameless : Dyn.QBRecordDynamic := Dyn.mkQBRecordDynamic 7 ∅.

(** One record, no index. *)
Definition dyn_unindexed : Dyn.QBTableDynamic :=
  Dyn.mkQBTableDynamic [dyn_alice] [false] {["name"]} ∅ (<[1%N := 0]> ∅) ∅ ∅.

(** The column "name" is declared and two records are added, the second
    without a field for it. *)
Definition dyn_gap_ops : list Dyn.Op :=
  [Dyn.OpAddColumn "name" (FStr ""); Dyn.OpAddRecord dyn_alice;
   Dyn.OpAddRecord dyn_nameless].

(** The table [createIndex("name")] leaves when it throws after
    [dyn_gap_ops]: the column is marked as indexed and the index holds the
    first record only. *)
Definition dyn_gap_table : Dyn.QBTableDynamic :=
  Dyn.mkQBTableDynamic [dyn_alice; dyn_nameless] [false; false] {["name"]} ∅
    (<[7%N := 1]> (<[1%N := 0]> ∅)) {["name"]}
    (<[("name", FStr "alice") := [0]]> ∅).

(** A derived column, indexed. *)
Definition tier : Dyn.DerivedFunc := λ _, FUInt 7.
Definition dyn_derived_ops : list Dyn.Op :=
  [Dyn.OpAddColumn "name" (FStr ""); Dyn.OpAddDerivedColumn "tier" tier;
   Dyn.OpAddRecord dyn_alice; Dyn.OpCreateIndex "tier"].

End Examples.

(** ** Further properties of the fixed-schema table *)

Module FixedMore.

Import Fixed.

(** What a query on an indexed secondary column matches: a text column by
    equality with the whole match text, the numeric column by its value
    when the match text parses. *)
Definition index_matches (c : ColumnType) (s : string) (r : QBRecord) : bool :=
  match c with
  | COLUMN0 => false
  | COLUMN1 => bool_decide (column1 r = s)
  | COLUMN2 =>
      bool_decide (ec (from_chars_long s).1 = errc_ok)
      && bool_decide (column2 r = (from_chars_long s).2)
  | COLUMN3 => bool_decide (column3 r = s)
  end.

(** The name the headers document for a column. *)
Definition column_name (c : ColumnType) : string :=
  match c with
  | COLUMN0 => "column0"
  | COLUMN1 => "column1"
  | COLUMN2 => "column2"
  | COLUMN3 => "column3"
  end.

Fixpoint all_digits (s : string) : bool :=
  match s with
  | EmptyString => true
  | String c s' => is_digit c && all_digits s'
  end.

(** A decimal numeral: one digit or more and nothing else. *)
Definition is_numeral (s : string) : bool :=
  match s with
  | EmptyString => false
  | _ => all_digits s
  end.

(** A decimal numeral with an optional minus sign. *)
Definition is_signed_numeral (s : string) : bool :=
  match s with
  | String "-" s' => is_numeral s'
  | _ => is_numeral s
  end.

(** The value of a column of a record, as the secondary index keys it. *)
Definition column_value (c : ColumnType) (r : QBRecord) : FieldType :=
  match c with
  | COLUMN0 => FUInt (column0 r)
  | COLUMN1 => FStr (column1 r)
  | COLUMN2 => FLong (column2 r)
  | COLUMN3 => FStr (column3 r)
  end.

(** The secondary index agrees with the records: under [(c, v)] it holds
    the active slots whose record has the value [v] in column [c], in
    ascending order, when [c] is indexed and some record has it; nothing
    otherwise. *)
Definition index_exact (t : QBTable) : Prop :=
  ∀ c v, secondaryIndexes_ t !! (c, v)
         = if decide (c ∈ secondaryIndexedColumns_ t)
           then FixedSpec.bucket
                  (filter (λ i, column_value c (record_at t i) = v)
                          (FixedSpec.active_slots t))
           else None.

End FixedMore.

(** ** Further properties of the dynamic-schema table *)

Module DynMore.

Import Dyn.

(** The value [getField] finds for a column on a record: the stored field,
    else the derived column computed on the record. *)
Definition field_value (t : QBTableDynamic) (r : QBRecordDynamic)
    (column : string) : option FieldType :=
  match fields r !! column with
  | Some v => Some v
  | None => (λ func : DerivedFunc, func r) <$> derivedColumns_ t !! column
  end.

(** Every stored record carries declared fields only. *)
Definition fields_declared (t : QBTableDynamic) : Prop :=
  ∀ r, r ∈ records_ t → dom (fields r) ⊆ columns_ t.

(** The secondary index agrees with the records: under [(c, v)] it holds
    the active slots whose record has the value [v] for column [c] (the
    stored field, else the derived column), in ascending order, when [c] is
    indexed and some record has it; nothing otherwise. *)
Definition index_exact (t : QBTableDynamic) : Prop :=
  ∀ c v, secondaryIndexes_ t !! (c, v)
         = if decide (c ∈ secondaryIndexedColumns_ t)
           then FixedSpec.bucket
                  (filter (λ i, field_value t (record_at t i) c = Some v)
                          (DynSpec.active_slots t))
           else None.

(** Every slot in a bucket of the index [m] is below [n]. *)
Definition slots_below (n : nat)
    (m : gmap (string * FieldType) (list nat)) : Prop :=
  ∀ k l i, m !! k = Some l → i ∈ l → i < n.

(** Every slot in a bucket of the secondary index is a slot of the store. *)
Definition buckets_in_range (t : QBTableDynamic) : Prop :=
  slots_below (length (records_ t)) (secondaryIndexes_ t).

End DynMore.

(** Closed goals about concrete tables are settled by evaluation. *)
Ltac by_computation :=
  vm_compute; repeat split; repeat constructor; done.

(** * Proofs *)

(** ** Vectors and buckets *)

Section vectors.
Context {A : Type} `{Inhabited A}.

Lemma pop_back_length (v : list A) : length (pop_back v) = length v - 1.
Proof. unfold pop_back. rewrite length_take. lia. Qed.

Lemma swap_slots_length (v : list A) i j :
  length (swap_slots v i j) = length v.
Proof. unfold swap_slots. by rewrite !length_insert. Qed.

(** The store after a hard delete of slot [i]: the last element has moved
    into slot [i], every other slot keeps its element. *)
Lemma pop_swap_lookup (v : list A) i j :
  i < length v → j < length v - 1 →
  pop_back (swap_slots v i (length v - 1)) !!! j
  = v !!! (if decide (j = i) then length v - 1 else j).
Proof.
  intros Hi Hj. unfold pop_back.
  rewrite lookup_total_take_lt by (rewrite swap_slots_length; lia).
  unfold swap_slots.
  rewrite list_lookup_total_insert_ne by lia.
  destruct (decide (j = i)) as [->|Hne].
  - by rewrite list_lookup_total_insert_eq by lia.
  - by rewrite list_lookup_total_insert_ne by done.
Qed.

Lemma pop_back_lookup (v : list A) j :
  j < length v - 1 → pop_back v !!! j = v !!! j.
Proof. intros Hj. unfold pop_back. by rewrite lookup_total_take_lt. Qed.
End vectors.

Section buckets.
Context {K : Type} `{Countable K}.

Lemma push_back_bucket_lookup (k k' : K) i (m : gmap K (list nat)) :
  push_back_bucket k i m !! k'
  = if decide (k = k') then Some (default [] (m !! k) ++ [i]) else m !! k'.
Proof.
  unfold push_back_bucket. destruct (decide (k = k')) as [->|Hne].
  - by rewrite lookup_insert_eq.
  - by rewrite lookup_insert_ne.
Qed.

(** A loop that pushes [vf x] on the bucket [kf x] for every [x] it does
    not skip: the bucket of [k] gains the pushed values in loop order. *)
Lemma push_loop_lookup {X} (skip : X → bool) (kf : X → K) (vf : X → nat)
    (l : list X) (m : gmap K (list nat)) (k : K) :
  foldl (λ m x, if skip x then m else push_back_bucket (kf x) (vf x) m) m l
    !! k
  = match filter (λ x, skip x = false ∧ kf x = k) l with
    | [] => m !! k
    | hits => Some (default [] (m !! k) ++ (vf <$> hits))
    end.
Proof.
  induction l as [|x l IH] using rev_ind; [done|].
  rewrite foldl_snoc, filter_app.
  destruct (skip x) eqn:Hs.
  - rewrite IH. rewrite filter_cons_False by (intros [? _]; congruence).
    by rewrite filter_nil, app_nil_r.
  - rewrite push_back_bucket_lookup.
    destruct (decide (kf x = k)) as [Hk|Hk].
    + rewrite filter_cons_True by done. rewrite filter_nil.
      rewrite Hk, IH.
      destruct (filter _ l) as [|y hits] eqn:Hf; simpl.
      * done.
      * rewrite fmap_app. simpl. by rewrite <- app_assoc.
    + rewrite filter_cons_False by (intros [_ ?]; done).
      by rewrite filter_nil, app_nil_r, IH.
Qed.

Lemma erase_from_buckets_lookup i (m : gmap K (list nat)) k :
  Fixed.erase_from_buckets i m !! k
  = m !! k ≫= λ l, FixedSpec.bucket (erase_slot i l).
Proof.
  unfold Fixed.erase_from_buckets. rewrite lookup_omap.
  destruct (m !! k) as [l|]; [|done]. simpl.
  unfold FixedSpec.bucket. by destruct (erase_slot i l).
Qed.
End buckets.

(** Rebuilding the primary-key index is last-write-wins over the slots it
  does not skip. *)
Lemma rebuild_pk_lookup (skip : nat → bool) (kf : nat → N)
  (l : list nat) (m : gmap N nat) (k : N) :
foldl (λ m i, if skip i then m else <[kf i := i]> m) m l !! k
= match last (filter (λ i, skip i = false ∧ kf i = k) l) with
  | Some i => Some i
  | None => m !! k
  end.
Proof.
induction l as [|x l IH] using rev_ind; [done|].
rewrite foldl_snoc, filter_app.
destruct (skip x) eqn:Hs.
- rewrite IH. rewrite filter_cons_False by (intros [? _]; congruence).
  by rewrite filter_nil, app_nil_r.
- destruct (decide (kf x = k)) as [Hk|Hk].
  + rewrite filter_cons_True by done. rewrite filter_nil, last_snoc.
    by rewrite Hk, lookup_insert_eq.
  + rewrite filter_cons_False by (intros [_ ?]; done).
    rewrite filter_nil, app_nil_r, lookup_insert_ne by done. apply IH.
Qed.

Lemma filter_ext_in {A} (P Q : A → Prop) `{∀ x, Decision (P x)}
  `{∀ x, Decision (Q x)} (l : list A) :
(∀ x, x ∈ l → P x ↔ Q x) → filter P l = filter Q l.
Proof.
induction l as [|x l IH]; intros Hl; [done|].
rewrite !filter_cons.
rewrite IH by (intros y Hy; apply Hl; by right).
pose proof (Hl x (list_elem_of_here _ _)) as Hx.
destruct (decide (P x)), (decide (Q x)); tauto.
Qed.

Lemma filter_none {A} (P : A → Prop) `{∀ x, Decision (P x)} (l : list A) :
(∀ x, x ∈ l → ¬ P x) → filter P l = [].
Proof.
induction l as [|x l IH]; intros Hl; [done|].
rewrite filter_cons_False by (apply Hl; by left).
apply IH. intros y Hy. apply Hl. by right.
Qed.

(** In a duplicate-free loop over [l], the iterations whose key is
  [(c, v)] are the one for [c], when its value is [v]. *)
Lemma filter_pair_key {X V} `{EqDecision X} `{EqDecision V}
  (g : X → V) (l : list X) (c : X) (v : V) :
NoDup l →
filter (λ x, false = false ∧ (x, g x) = (c, v)) l
= if decide (c ∈ l ∧ g c = v) then [c] else [].
Proof.
induction l as [|x l IH]; intros Hnd.
- rewrite filter_nil. rewrite decide_False; [done|].
  intros [Hd _]. by apply not_elem_of_nil in Hd.
- apply NoDup_cons in Hnd as [Hx Hnd].
  rewrite filter_cons, IH by done.
  destruct (decide (false = false ∧ (x, g x) = (c, v))) as [[_ Heq]|Hne].
  + injection Heq as Hxc Hgv. subst x.
    rewrite (decide_False (P := c ∈ l ∧ _)) by (intros [? _]; done).
    by rewrite decide_True by (split; [by left|done]).
  + destruct (decide (c ∈ l ∧ g c = v)) as [[Hc Hg]|Hn].
    * rewrite (decide_True (P := c ∈ x :: l ∧ _)); [done|].
      split; [by right|done].
    * rewrite (decide_False (P := c ∈ x :: l ∧ _)); [done|].
      intros [[->|Hc]%elem_of_cons Hg]; [|by apply Hn].
      apply Hne. by rewrite Hg.
Qed.

(** ** The fixed-schema table *)

Section fixed.
Import Fixed FixedSpec.

Lemma elem_of_slots t i : i ∈ slots t ↔ i < length (records_ t).
Proof. unfold slots. rewrite elem_of_seq. lia. Qed.

Lemma elem_of_active_slots t i :
  i ∈ active_slots t ↔ i < length (records_ t) ∧ deleted_at t i = false.
Proof.
  unfold active_slots. rewrite list_elem_of_filter, elem_of_slots. tauto.
Qed.

Lemma columns_in_order_NoDup s : NoDup (columns_in_order s).
Proof.
  unfold columns_in_order. apply NoDup_filter.
  by apply (bool_decide_unpack _).
Qed.

Lemma elem_of_columns_in_order s c : c ∈ columns_in_order s ↔ c ∈ s.
Proof.
  unfold columns_in_order. rewrite list_elem_of_filter.
  split; [tauto|]. intros Hc. split; [done|]. destruct c; set_solver.
Qed.

(** The index key of a slot depends on the store only. *)
Lemma getColumnIndexKey_ext t t' i c :
  records_ t = records_ t' → deleted_ t = deleted_ t' →
  getColumnIndexKey t i c = getColumnIndexKey t' i c.
Proof.
  intros Hr Hd. unfold getColumnIndexKey, deleted_at, record_at.
  by rewrite Hr, Hd.
Qed.

Lemma active_slots_ext t t' :
  records_ t = records_ t' → deleted_ t = deleted_ t' →
  active_slots t = active_slots t'.
Proof.
  intros Hr Hd. unfold active_slots, slots, deleted_at. by rewrite Hr, Hd.
Qed.

Lemma bucket_spec_ext t t' c v :
  records_ t = records_ t' → deleted_ t = deleted_ t' →
  secondaryIndexedColumns_ t = secondaryIndexedColumns_ t' →
  bucket_spec t c v = bucket_spec t' c v.
Proof.
  intros Hr Hd Hs. unfold bucket_spec.
  rewrite Hs, (active_slots_ext t t') by done.
  case_decide; [|done]. f_equal. apply filter_ext_in. intros i _.
  by rewrite (getColumnIndexKey_ext t t').
Qed.

Lemma default_bucket l : default [] (bucket l) = l.
Proof. by destruct l. Qed.

Lemma bucket_snoc l i : bucket (l ++ [i]) = Some (l ++ [i]).
Proof. by destruct l. Qed.

(** *** addRecord *)

Lemma addRecord_records r t : records_ (addRecord r t) = records_ t ++ [r].
Proof. done. Qed.

Lemma addRecord_deleted r t :
  deleted_ (addRecord r t) = deleted_ t ++ [false].
Proof. done. Qed.

Lemma addRecord_pkIndex r t :
  pkIndex_ (addRecord r t)
  = <[column0 r := length (records_ t)]> (pkIndex_ t).
Proof. done. Qed.

Lemma addRecord_indexed r t :
  secondaryIndexedColumns_ (addRecord r t) = secondaryIndexedColumns_ t.
Proof. done. Qed.

Lemma addRecord_active_slots r t :
  length (deleted_ t) = length (records_ t) →
  active_slots (addRecord r t) = active_slots t ++ [length (records_ t)].
Proof.
  intros Hlen. unfold active_slots, slots.
  rewrite addRecord_records, length_app. simpl.
  rewrite seq_app, filter_app. simpl. f_equal.
  - apply filter_ext_in. intros i Hi%elem_of_seq.
    unfold deleted_at. rewrite addRecord_deleted.
    by rewrite lookup_total_app_l by lia.
  - rewrite filter_cons_True; [done|].
    unfold deleted_at. rewrite addRecord_deleted, <- Hlen.
    by rewrite list_lookup_total_middle.
Qed.

Lemma addRecord_record_at_old r t i :
  i < length (records_ t) → record_at (addRecord r t) i = record_at t i.
Proof.
  intros Hi. unfold record_at. rewrite addRecord_records.
  by rewrite lookup_total_app_l.
Qed.

Lemma addRecord_record_at_new r t :
  record_at (addRecord r t) (length (records_ t)) = r.
Proof.
  unfold record_at. rewrite addRecord_records.
  by rewrite list_lookup_total_middle.
Qed.

Lemma addRecord_key_old r t i c :
  length (deleted_ t) = length (records_ t) →
  i < length (records_ t) →
  getColumnIndexKey (addRecord r t) i c = getColumnIndexKey t i c.
Proof.
  intros Hlen Hi. unfold getColumnIndexKey, deleted_at, record_at.
  rewrite addRecord_records, addRecord_deleted, length_app. simpl.
  rewrite !lookup_total_app_l by lia.
  repeat case_decide; try lia; done.
Qed.

Lemma addRecord_pk_sound r t :
  length (deleted_ t) = length (records_ t) →
  pk_sound t → pk_sound (addRecord r t).
Proof.
  intros Hlen Hpk k i. rewrite addRecord_pkIndex, addRecord_active_slots by done.
  rewrite elem_of_app, list_elem_of_singleton.
  destruct (decide (column0 r = k)) as [<-|Hne].
  - rewrite lookup_insert_eq. intros [= <-]. split; [by right|].
    by rewrite addRecord_record_at_new.
  - rewrite lookup_insert_ne by done. intros [Hi Hk]%Hpk. split; [by left|].
    rewrite addRecord_record_at_old; [done|].
    by apply elem_of_active_slots in Hi as [? _].
Qed.

Lemma addRecord_sec_exact r t :
  length (deleted_ t) = length (records_ t) →
  sec_exact t → sec_exact (addRecord r t).
Proof.
  intros Hlen Hsec c v.
  assert (filter (λ i, getColumnIndexKey (addRecord r t) i c = v)
                 (active_slots t)
          = filter (λ i, getColumnIndexKey t i c = v) (active_slots t))
    as Hold.
  { apply filter_ext_in. intros i [Hi _]%elem_of_active_slots.
    by rewrite addRecord_key_old. }
  unfold bucket_spec.
  rewrite addRecord_indexed, addRecord_active_slots, filter_app, Hold by done.
  unfold addRecord at 1. simpl.
  rewrite (push_loop_lookup (λ _, false)
             (λ x, (x, getColumnIndexKey _ (length (records_ t)) x))
             (λ _, length (records_ t))).
  rewrite filter_pair_key by apply columns_in_order_NoDup.
  rewrite Hsec. unfold bucket_spec.
  rewrite (getColumnIndexKey_ext _ (addRecord r t)) by done.
  destruct (decide (c ∈ columns_in_order _ ∧ _)) as [[Hc Hv]|Hn].
  - apply elem_of_columns_in_order in Hc.
    rewrite !decide_True by done. simpl.
    rewrite filter_cons_True by done. rewrite filter_nil.
    by rewrite default_bucket, bucket_snoc.
  - case_decide as Hc; [|done].
    rewrite filter_cons_False, filter_nil, app_nil_r; [done|].
    intros Hv. apply Hn. by rewrite elem_of_columns_in_order.
Qed.

Lemma addRecord_wf r t : wf t → wf (addRecord r t).
Proof.
  intros [Hlen Hpk Hsec]. split.
  - rewrite addRecord_records, addRecord_deleted, !length_app. simpl. lia.
  - by apply addRecord_pk_sound.
  - by apply addRecord_sec_exact.
Qed.

(** *** Index rebuilds *)

Lemma lookup_remove_column {C V X} `{Countable C} `{Countable V}
    (m : gmap (C * V) X) (c c' : C) (v : V) :
  filter (λ kv, kv.1.1 ≠ c) m !! (c', v)
  = if decide (c' = c) then None else m !! (c', v).
Proof.
  apply option_eq. intros x. rewrite map_lookup_filter_Some. simpl.
  case_decide; naive_solver.
Qed.

Lemma pk_sound_ext t t' :
  records_ t = records_ t' → deleted_ t = deleted_ t' →
  pkIndex_ t = pkIndex_ t' → pk_sound t → pk_sound t'.
Proof.
  intros Hr Hd Hp Hpk k i. rewrite <- Hp, <- (active_slots_ext t t') by done.
  unfold record_at. rewrite <- Hr. apply Hpk.
Qed.

Lemma rebuildSecondaryIndexForColumn_eq c t :
  secondaryIndexes_ (rebuildSecondaryIndexForColumn c t)
  = foldl (λ m i, if deleted_at t i then m
                  else push_back_bucket (c, getColumnIndexKey t i c) i m)
          (filter (λ kv, kv.1.1 ≠ c) (secondaryIndexes_ t)) (slots t).
Proof. done. Qed.

Lemma rebuildSecondaryIndexForColumn_lookup c t c' v :
  secondaryIndexes_ (rebuildSecondaryIndexForColumn c t) !! (c', v)
  = if decide (c' = c)
    then bucket (filter (λ i, getColumnIndexKey t i c = v) (active_slots t))
    else secondaryIndexes_ t !! (c', v).
Proof.
  rewrite rebuildSecondaryIndexForColumn_eq.
  rewrite (push_loop_lookup _ (λ i, (c, getColumnIndexKey t i c)) (λ i, i)).
  rewrite lookup_remove_column.
  destruct (decide (c' = c)) as [->|Hne].
  - unfold active_slots. rewrite list_filter_filter.
    match goal with
    | |- match filter ?P ?l with _ => _ end = bucket (filter ?Q ?l') =>
        assert (filter P l = filter Q l') as ->
    end.
    { apply filter_ext_in. intros i _. naive_solver. }
    destruct (filter _ _); [done|]. simpl. by rewrite list_fmap_id.
  - rewrite filter_none; [done|]. intros i _ [_ [=]]. done.
Qed.

Lemma columns_fold_frame cols t :
  let t' := foldl (λ t' c, rebuildSecondaryIndexForColumn c t') t cols in
  records_ t' = records_ t ∧ deleted_ t' = deleted_ t
  ∧ pkIndex_ t' = pkIndex_ t
  ∧ secondaryIndexedColumns_ t' = secondaryIndexedColumns_ t.
Proof.
  induction cols as [|c cols IH] using rev_ind; [done|].
  simpl. rewrite foldl_snoc. simpl in IH.
  destruct IH as (Hr & Hd & Hp & Hs). repeat split; simpl; assumption.
Qed.

(** After the rebuild of the columns [cols], each of them has exactly the
    buckets of the active slots; the other columns keep theirs. *)
Lemma columns_fold_lookup cols t c v :
  secondaryIndexes_
    (foldl (λ t' c, rebuildSecondaryIndexForColumn c t') t cols) !! (c, v)
  = if decide (c ∈ cols)
    then bucket (filter (λ i, getColumnIndexKey t i c = v) (active_slots t))
    else secondaryIndexes_ t !! (c, v).
Proof.
  induction cols as [|c0 cols IH] using rev_ind.
  - by rewrite decide_False by apply not_elem_of_nil.
  - rewrite foldl_snoc, rebuildSecondaryIndexForColumn_lookup.
    destruct (columns_fold_frame cols t) as (Hr & Hd & _ & _).
    destruct (decide (c = c0)) as [->|Hne].
    + rewrite decide_True by (apply elem_of_app; right; by left).
      rewrite (active_slots_ext _ t) by done. f_equal.
      apply filter_ext_in. intros i _.
      by rewrite (getColumnIndexKey_ext _ t).
    + rewrite IH. destruct (decide (c ∈ cols)) as [Hc|Hc].
      * by rewrite decide_True by (apply elem_of_app; by left).
      * rewrite decide_False; [done|].
        intros [?|?%list_elem_of_singleton]%elem_of_app; done.
Qed.

Lemma rebuildPrimaryKeyIndex_sound t : pk_sound (rebuildPrimaryKeyIndex t).
Proof.
  intros k i. unfold rebuildPrimaryKeyIndex. simpl.
  rewrite (rebuild_pk_lookup _ (λ i, column0 (record_at t i))).
  rewrite lookup_empty.
  destruct (last _) as [j|] eqn:Hlast; [|done]. intros [= ->].
  apply last_Some in Hlast as [l Hl].
  assert (i ∈ filter (λ i, deleted_at t i = false
                           ∧ column0 (record_at t i) = k) (slots t)) as Hi.
  { rewrite Hl. apply elem_of_app. right. by left. }
  apply list_elem_of_filter in Hi as [[Hd Hk] Hi].
  split; [|done]. apply list_elem_of_filter. done.
Qed.

(** Every key of an active record resolves after a rebuild. *)
Lemma rebuildPrimaryKeyIndex_complete t :
  pk_complete (rebuildPrimaryKeyIndex t).
Proof.
  intros i Hi.
  change (record_at (rebuildPrimaryKeyIndex t) i) with (record_at t i).
  change (active_slots (rebuildPrimaryKeyIndex t)) with (active_slots t) in Hi.
  unfold rebuildPrimaryKeyIndex. simpl.
  rewrite (rebuild_pk_lookup _ (λ i, column0 (record_at t i))).
  destruct (last _) as [j|] eqn:Hlast; [by exists j|].
  apply last_None in Hlast.
  assert (i ∈ filter (λ j, deleted_at t j = false
               ∧ column0 (record_at t j) = column0 (record_at t i))
            (slots t)) as Hin.
  { apply list_elem_of_filter in Hi as [Hd Hs].
    apply list_elem_of_filter. done. }
  rewrite Hlast in Hin. by apply not_elem_of_nil in Hin.
Qed.

(** *** createIndex and dropIndex *)

Lemma createIndex_wf c t : wf t → wf (createIndex c t).
Proof.
  intros [Hlen Hpk Hsec]. unfold createIndex.
  destruct (decide (c = COLUMN0)); [done|].
  destruct (decide (c ∈ secondaryIndexedColumns_ t)) as [Hin|Hin]; [done|].
  split; [done| by eapply pk_sound_ext; [..|exact Hpk] |].
  intros c' v. rewrite rebuildSecondaryIndexForColumn_lookup.
  unfold bucket_spec. simpl.
  destruct (decide (c' = c)) as [->|Hne].
  - by rewrite decide_True by set_solver.
  - rewrite Hsec. unfold bucket_spec.
    destruct (decide (c' ∈ secondaryIndexedColumns_ t)) as [Hc|Hc].
    + by rewrite decide_True by set_solver.
    + by rewrite decide_False by set_solver.
Qed.

Lemma dropIndex_wf c t : wf t → wf (dropIndex c t).
Proof.
  intros [Hlen Hpk Hsec]. unfold dropIndex.
  destruct (decide (c = COLUMN0)); [done|].
  split; [done| by eapply pk_sound_ext; [..|exact Hpk] |].
  intros c' v. unfold removeSecondaryIndexForColumn. simpl.
  rewrite lookup_remove_column.
  unfold bucket_spec. simpl. rewrite Hsec. unfold bucket_spec.
  destruct (decide (c' = c)) as [->|Hne].
  - by rewrite decide_False by set_solver.
  - destruct (decide (c' ∈ secondaryIndexedColumns_ t)) as [Hc|Hc].
    + by rewrite decide_True by set_solver.
    + by rewrite decide_False by set_solver.
Qed.

(** *** deleteRecordByID, soft *)


Lemma deleteRecordByID_soft id idx t :
  pkIndex_ t !! id = Some idx → deleted_at t idx = false →
  deleteRecordByID id false t = (true, soft_deleted id idx t).
Proof. intros Hpk Hd. unfold deleteRecordByID. by rewrite Hpk, Hd. Qed.

Lemma soft_deleted_active_slots id idx t :
  length (deleted_ t) = length (records_ t) →
  active_slots (soft_deleted id idx t)
  = filter (λ j, j ≠ idx) (active_slots t).
Proof.
  intros Hlen. unfold active_slots. rewrite list_filter_filter.
  apply filter_ext_in. intros j Hj%elem_of_slots.
  unfold deleted_at. simpl. rewrite list_lookup_total_insert.
  case_decide as Hd.
  - destruct Hd as [-> _]. naive_solver.
  - assert (j ≠ idx) by (intros ->; apply Hd; split; [done|lia]).
    naive_solver.
Qed.

Lemma soft_deleted_key id idx t j c :
  j ≠ idx →
  getColumnIndexKey (soft_deleted id idx t) j c = getColumnIndexKey t j c.
Proof.
  intros Hne. unfold getColumnIndexKey, deleted_at, record_at. simpl.
  by rewrite list_lookup_total_insert_ne by done.
Qed.

Lemma bucket_erase l idx :
  bucket l ≫= (λ l, bucket (erase_slot idx l)) = bucket (erase_slot idx l).
Proof. by destruct l. Qed.

Lemma soft_deleted_wf id idx t :
  wf t → pkIndex_ t !! id = Some idx → wf (soft_deleted id idx t).
Proof.
  intros [Hlen Hpk Hsec] Hid. split.
  - simpl. by rewrite length_insert.
  - intros k i. rewrite soft_deleted_active_slots by done. simpl.
    rewrite lookup_delete_Some. intros [Hne [Hi Hk]%Hpk].
    split; [|done]. apply list_elem_of_filter. split; [|done].
    intros ->. apply Hpk in Hid as [_ Hid]. congruence.
  - intros c v. unfold bucket_spec.
    rewrite soft_deleted_active_slots by done. simpl.
    rewrite erase_from_buckets_lookup, Hsec. unfold bucket_spec.
    case_decide; [|done]. rewrite bucket_erase. f_equal.
    unfold erase_slot. rewrite !list_filter_filter.
    apply filter_ext_in. intros j _.
    split.
    + intros [Hne Hk]. by rewrite soft_deleted_key.
    + intros [Hk Hne]. by rewrite soft_deleted_key in Hk.
Qed.

(** *** deleteRecordByID, hard *)


Lemma deleteRecordByID_hard id idx t :
  pkIndex_ t !! id = Some idx →
  deleteRecordByID id true t = (true, hard_deleted idx t).
Proof. intros Hpk. unfold deleteRecordByID. by rewrite Hpk. Qed.

(** Rebuilding every indexed column of a table whose other buckets are
    consistent makes the secondary index exact. *)
Lemma rebuilt_sec_exact t :
  (∀ c v, c ∉ secondaryIndexedColumns_ t →
          secondaryIndexes_ t !! (c, v) = None) →
  sec_exact (foldl (λ t' c, rebuildSecondaryIndexForColumn c t') t
                   (columns_in_order (secondaryIndexedColumns_ t))).
Proof.
  intros Hother c v. rewrite columns_fold_lookup.
  destruct (columns_fold_frame (columns_in_order (secondaryIndexedColumns_ t)) t)
    as (Hr & Hd & _ & Hs).
  rewrite (bucket_spec_ext _ t) by done. unfold bucket_spec.
  destruct (decide (c ∈ columns_in_order _)) as [Hc|Hc].
  - apply elem_of_columns_in_order in Hc. by rewrite decide_True.
  - rewrite elem_of_columns_in_order in Hc. rewrite decide_False by done.
    by apply Hother.
Qed.

Lemma rebuilt_pk_sound t :
  pk_sound (foldl (λ t' c, rebuildSecondaryIndexForColumn c t')
                  (rebuildPrimaryKeyIndex t)
                  (columns_in_order (secondaryIndexedColumns_ t))).
Proof.
  destruct (columns_fold_frame (columns_in_order (secondaryIndexedColumns_ t))
              (rebuildPrimaryKeyIndex t)) as (Hr & Hd & Hp & _).
  eapply (pk_sound_ext (rebuildPrimaryKeyIndex t)); [done..|].
  apply rebuildPrimaryKeyIndex_sound.
Qed.

Lemma hard_deleted_wf idx t : wf t → wf (hard_deleted idx t).
Proof.
  intros [Hlen Hpk Hsec]. unfold hard_deleted.
  destruct (columns_fold_frame (columns_in_order (secondaryIndexedColumns_ t))
              (rebuildPrimaryKeyIndex (hard_deleted_store idx t)))
    as (Hr & Hd & Hp & Hs).
  split.
  - rewrite Hr, Hd. simpl.
    rewrite !pop_back_length, !swap_slots_length. lia.
  - apply (rebuilt_pk_sound (hard_deleted_store idx t)).
  - apply (rebuilt_sec_exact (rebuildPrimaryKeyIndex (hard_deleted_store idx t))).
    intros c v Hc. simpl in *. rewrite Hsec. unfold bucket_spec.
    by rewrite decide_False.
Qed.

Lemma deleteRecordByID_wf id hard t :
  wf t → wf (deleteRecordByID id hard t).2.
Proof.
  intros Hwf. destruct (pkIndex_ t !! id) as [idx|] eqn:Hid.
  - destruct hard.
    + rewrite (deleteRecordByID_hard id idx) by done.
      by apply hard_deleted_wf.
    + destruct (deleted_at t idx) eqn:Hd.
      * unfold deleteRecordByID. by rewrite Hid, Hd.
      * rewrite (deleteRecordByID_soft id idx) by done.
        by apply soft_deleted_wf.
  - unfold deleteRecordByID. by rewrite Hid.
Qed.

(** *** compactRecords *)

Lemma compact_loop t l :
  foldl (λ '(compacted, newDeleted) i,
           if deleted_at t i then (compacted, newDeleted)
           else (compacted ++ [record_at t i], newDeleted ++ [false]))
        ([], []) l
  = ((λ i, record_at t i) <$> filter (λ i, deleted_at t i = false) l,
     replicate (length (filter (λ i, deleted_at t i = false) l)) false).
Proof.
  induction l as [|i l IH] using rev_ind; [done|].
  rewrite foldl_snoc, IH, filter_app.
  destruct (deleted_at t i) eqn:Hd.
  - rewrite filter_cons_False by congruence.
    by rewrite filter_nil, app_nil_r.
  - rewrite filter_cons_True by done.
    rewrite filter_nil, fmap_app, length_app. simpl.
    by rewrite replicate_add.
Qed.


Lemma compactRecords_eq t :
  compactRecords t
  = foldl (λ t' c, rebuildSecondaryIndexForColumn c t')
          (set_secondaryIndexes
             (rebuildPrimaryKeyIndex (compacted_store t)) ∅)
          (columns_in_order (secondaryIndexedColumns_ t)).
Proof. unfold compactRecords. by rewrite compact_loop. Qed.

Lemma compactRecords_frame t :
  records_ (compactRecords t) = active_records t
  ∧ deleted_ (compactRecords t) = replicate (length (active_slots t)) false
  ∧ secondaryIndexedColumns_ (compactRecords t) = secondaryIndexedColumns_ t.
Proof.
  rewrite compactRecords_eq.
  destruct (columns_fold_frame (columns_in_order (secondaryIndexedColumns_ t))
              (set_secondaryIndexes
                 (rebuildPrimaryKeyIndex (compacted_store t)) ∅))
    as (Hr & Hd & _ & Hs).
  by rewrite Hr, Hd, Hs.
Qed.

(** Compaction establishes the invariant from any table. *)
Lemma compactRecords_wf t : wf (compactRecords t).
Proof.
  destruct (compactRecords_frame t) as (Hr & Hd & Hs).
  split.
  - rewrite Hr, Hd. unfold active_records.
    by rewrite length_replicate, length_fmap.
  - rewrite compactRecords_eq.
    eapply pk_sound_ext;
      [..|apply (rebuilt_pk_sound
                   (set_secondaryIndexes (compacted_store t) ∅))]; done.
  - rewrite compactRecords_eq.
    apply (rebuilt_sec_exact
             (set_secondaryIndexes
                (rebuildPrimaryKeyIndex (compacted_store t)) ∅)).
    intros c v _. simpl. apply lookup_empty.
Qed.

(** *** Every table the operations build satisfies the invariant *)

Lemma empty_wf : wf empty.
Proof.
  split; [done|intros k i; simpl; by rewrite lookup_empty|].
  intros c v. unfold bucket_spec. simpl. rewrite lookup_empty.
  by rewrite decide_False by set_solver.
Qed.

Lemma step_wf t op : wf t → wf (step t op).
Proof.
  destruct op; simpl; intros Hwf.
  - by apply addRecord_wf.
  - by apply deleteRecordByID_wf.
  - apply compactRecords_wf.
  - by apply createIndex_wf.
  - by apply dropIndex_wf.
Qed.

Lemma foldl_step_wf ops t : wf t → wf (foldl step t ops).
Proof.
  revert t. induction ops as [|op ops IH]; intros t Hwf; [done|].
  simpl. apply IH. by apply step_wf.
Qed.

Lemma run_wf ops : wf (run ops).
Proof. apply foldl_step_wf, empty_wf. Qed.

End fixed.

(** ** The record store under the operations *)

Section store.
Context {R : Type} `{Inhabited R} (key : R → N).
Implicit Types (rs : list R) (ds : list bool) (pk : gmap N nat).


Lemma elem_of_active_of rs ds i :
  i ∈ active_of rs ds ↔ i < length rs ∧ ds !!! i = false.
Proof.
  unfold active_of. rewrite list_elem_of_filter, elem_of_seq. intuition lia.
Qed.

Lemma active_of_NoDup rs ds : NoDup (active_of rs ds).
Proof. apply NoDup_filter, NoDup_seq. Qed.

Lemma active_of_push rs ds r :
  length ds = length rs →
  active_of (rs ++ [r]) (ds ++ [false]) = active_of rs ds ++ [length rs].
Proof.
  intros Hlen. unfold active_of. rewrite length_app. simpl.
  rewrite seq_app, filter_app. simpl. f_equal.
  - apply filter_ext_in. intros i Hi%elem_of_seq.
    by rewrite lookup_total_app_l by lia.
  - rewrite filter_cons_True; [done|].
    by rewrite <- Hlen, list_lookup_total_middle.
Qed.

Lemma active_of_soft rs ds idx :
  length ds = length rs →
  active_of rs (<[idx := true]> ds) = filter (λ j, j ≠ idx) (active_of rs ds).
Proof.
  intros Hlen. unfold active_of. rewrite list_filter_filter.
  apply filter_ext_in. intros j Hj%elem_of_seq.
  rewrite list_lookup_total_insert.
  case_decide as Hd.
  - destruct Hd as [-> _]. naive_solver.
  - assert (j ≠ idx) by (intros ->; apply Hd; split; [done|lia]).
    naive_solver.
Qed.


Lemma active_of_hard rs ds idx j :
  length ds = length rs → idx < length rs →
  j ∈ active_of (pop_back (swap_slots rs idx (length rs - 1)))
                (pop_back (swap_slots ds idx (length rs - 1))) →
  hard_origin rs idx j ∈ active_of rs ds
  ∧ pop_back (swap_slots rs idx (length rs - 1)) !!! j
    = rs !!! hard_origin rs idx j.
Proof.
  intros Hlen Hidx [Hj Hd]%elem_of_active_of.
  rewrite pop_back_length, swap_slots_length in Hj.
  rewrite <- Hlen in Hd at 1. rewrite pop_swap_lookup in Hd by lia.
  rewrite pop_swap_lookup by lia. rewrite Hlen in Hd.
  split; [|done]. apply elem_of_active_of. split; [|done].
  unfold hard_origin. case_decide; lia.
Qed.

Lemma active_of_compacted rs ds i :
  i ∈ active_of ((λ i, rs !!! i) <$> active_of rs ds)
                (replicate (length (active_of rs ds)) false) →
  active_of rs ds !!! i ∈ active_of rs ds
  ∧ ((λ i, rs !!! i) <$> active_of rs ds) !!! i
    = rs !!! (active_of rs ds !!! i).
Proof.
  intros [Hi _]%elem_of_active_of. rewrite length_fmap in Hi.
  split.
  - apply list_elem_of_lookup. exists i.
    by apply list_lookup_lookup_total_lt.
  - by rewrite (list_lookup_total_fmap (λ i, rs !!! i)).
Qed.

(** Uniqueness carries over to a store whose active slots embed into the
    old active slots. *)
Lemma unique_of_embed rs ds rs' ds' (origin : nat → nat) :
  (∀ j, j ∈ active_of rs' ds' →
        origin j ∈ active_of rs ds
        ∧ key (rs' !!! j) = key (rs !!! origin j)) →
  (∀ j j', j ∈ active_of rs' ds' → j' ∈ active_of rs' ds' →
           origin j = origin j' → j = j') →
  unique_of key rs ds → unique_of key rs' ds'.
Proof.
  intros Hemb Hinj Huniq i j Hi Hj Hk.
  destruct (Hemb i Hi) as [Hi' Hri], (Hemb j Hj) as [Hj' Hrj].
  apply Hinj; [done..|]. apply Huniq; [done..|]. by rewrite <- Hri, <- Hrj.
Qed.

Lemma unique_of_push rs ds r :
  length ds = length rs → free_of key rs ds (key r) →
  unique_of key rs ds → unique_of key (rs ++ [r]) (ds ++ [false]).
Proof.
  intros Hlen Hfree Huniq i j.
  rewrite active_of_push by done. rewrite !elem_of_app, !list_elem_of_singleton.
  unfold free_of in Hfree. rewrite Forall_forall in Hfree.
  intros [Hi| ->] [Hj| ->]; [| | |done].
  - pose proof Hi as [Hi' _]%elem_of_active_of.
    pose proof Hj as [Hj' _]%elem_of_active_of.
    rewrite !lookup_total_app_l by done. by apply Huniq.
  - pose proof Hi as [Hi' _]%elem_of_active_of.
    rewrite lookup_total_app_l, list_lookup_total_middle by done.
    intros Hk. by apply Hfree in Hi.
  - pose proof Hj as [Hj' _]%elem_of_active_of.
    rewrite list_lookup_total_middle, lookup_total_app_l by done.
    intros Hk. by apply Hfree in Hj.
Qed.

Lemma unique_of_soft rs ds idx :
  length ds = length rs →
  unique_of key rs ds → unique_of key rs (<[idx := true]> ds).
Proof.
  intros Hlen. apply (unique_of_embed _ _ _ _ (λ j, j)); [|done].
  intros j. rewrite active_of_soft by done.
  intros [_ Hj]%list_elem_of_filter. done.
Qed.

Lemma unique_of_hard rs ds idx :
  length ds = length rs → idx < length rs →
  unique_of key rs ds →
  unique_of key (pop_back (swap_slots rs idx (length rs - 1)))
            (pop_back (swap_slots ds idx (length rs - 1))).
Proof.
  intros Hlen Hidx. apply (unique_of_embed _ _ _ _ (hard_origin rs idx)).
  - intros j Hj. destruct (active_of_hard rs ds idx j) as [? ->]; done.
  - intros j j' [Hj _]%elem_of_active_of [Hj' _]%elem_of_active_of.
    rewrite pop_back_length, swap_slots_length in Hj, Hj'.
    unfold hard_origin. repeat case_decide; lia.
Qed.

Lemma unique_of_compacted rs ds :
  unique_of key rs ds →
  unique_of key ((λ i, rs !!! i) <$> active_of rs ds)
            (replicate (length (active_of rs ds)) false).
Proof.
  apply (unique_of_embed _ _ _ _ (λ i, active_of rs ds !!! i)).
  - intros j Hj. destruct (active_of_compacted rs ds j) as [? ->]; done.
  - intros j j' [Hj _]%elem_of_active_of [Hj' _]%elem_of_active_of.
    rewrite length_fmap in Hj, Hj'. intros Heq.
    eapply (NoDup_lookup (active_of rs ds)); [apply active_of_NoDup|..].
    + by apply list_lookup_lookup_total_lt.
    + rewrite Heq. by apply list_lookup_lookup_total_lt.
Qed.

(** A change of the records that keeps their keys. *)
Lemma active_of_fmap (f : R → R) rs ds :
  active_of (f <$> rs) ds = active_of rs ds.
Proof. unfold active_of. by rewrite length_fmap. Qed.

Lemma unique_of_fmap (f : R → R) rs ds :
  (∀ r, key (f r) = key r) →
  unique_of key rs ds → unique_of key (f <$> rs) ds.
Proof.
  intros Hf. apply (unique_of_embed _ _ _ _ (λ j, j)); [|done].
  intros j. rewrite active_of_fmap. intros Hj. split; [done|].
  apply elem_of_active_of in Hj as [Hj _].
  by rewrite (list_lookup_total_fmap f), Hf.
Qed.

Lemma pk_sound_of_fmap (f : R → R) rs ds pk :
  (∀ r, key (f r) = key r) →
  pk_sound_of key rs ds pk → pk_sound_of key (f <$> rs) ds pk.
Proof.
  intros Hf Hpk k i [Hi Hk]%Hpk. rewrite active_of_fmap. split; [done|].
  apply elem_of_active_of in Hi as [Hi _].
  by rewrite (list_lookup_total_fmap f), Hf.
Qed.

(** The primary-key index under the operations. *)
Lemma pk_sound_of_push rs ds pk r :
  length ds = length rs → pk_sound_of key rs ds pk →
  pk_sound_of key (rs ++ [r]) (ds ++ [false]) (<[key r := length rs]> pk).
Proof.
  intros Hlen Hpk k i. rewrite active_of_push by done.
  rewrite elem_of_app, list_elem_of_singleton.
  destruct (decide (key r = k)) as [<-|Hne].
  - rewrite lookup_insert_eq. intros [= <-]. split; [by right|].
    by rewrite list_lookup_total_middle.
  - rewrite lookup_insert_ne by done. intros [Hi Hk]%Hpk. split; [by left|].
    apply elem_of_active_of in Hi as [Hi _].
    by rewrite lookup_total_app_l.
Qed.

Lemma pk_sound_of_soft rs ds pk id idx :
  length ds = length rs → pk_sound_of key rs ds pk → pk !! id = Some idx →
  pk_sound_of key rs (<[idx := true]> ds) (delete id pk).
Proof.
  intros Hlen Hpk Hid k i. rewrite active_of_soft by done.
  rewrite lookup_delete_Some. intros [Hne [Hi Hk]%Hpk].
  split; [|done]. apply list_elem_of_filter. split; [|done].
  intros ->. apply Hpk in Hid as [_ Hid]. congruence.
Qed.

Lemma pk_sound_of_rebuild rs ds :
  pk_sound_of key rs ds
    (foldl (λ m i, if (ds !!! i : bool) then m else <[key (rs !!! i) := i]> m)
           ∅ (seq 0 (length rs))).
Proof.
  intros k i.
  rewrite (rebuild_pk_lookup (λ i, ds !!! i : bool) (λ i, key (rs !!! i))).
  rewrite lookup_empty.
  destruct (last _) as [j|] eqn:Hlast; [|done]. intros [= ->].
  apply last_Some in Hlast as [l Hl].
  assert (i ∈ filter (λ i, ds !!! i = false ∧ key (rs !!! i) = k)
                     (seq 0 (length rs))) as Hi.
  { rewrite Hl. apply elem_of_app. right. by left. }
  apply list_elem_of_filter in Hi as [[Hd Hk] Hi].
  split; [|done]. apply list_elem_of_filter. done.
Qed.

Lemma pk_complete_of_rebuild rs ds :
  pk_complete_of key rs ds
    (foldl (λ m i, if (ds !!! i : bool) then m else <[key (rs !!! i) := i]> m)
           ∅ (seq 0 (length rs))).
Proof.
  intros i Hi.
  rewrite (rebuild_pk_lookup (λ i, ds !!! i : bool) (λ i, key (rs !!! i))).
  destruct (last _) as [j|] eqn:Hlast; [by exists j|].
  apply last_None in Hlast.
  assert (i ∈ filter (λ j, ds !!! j = false
                           ∧ key (rs !!! j) = key (rs !!! i))
                     (seq 0 (length rs))) as Hin.
  { apply list_elem_of_filter in Hi as [Hd Hs].
    apply list_elem_of_filter. done. }
  rewrite Hlast in Hin. by apply not_elem_of_nil in Hin.
Qed.
End store.

(** ** Primary keys of the fixed-schema table *)

Section fixed_keys.
Import Fixed FixedSpec.

Lemma createIndex_store c t :
  records_ (createIndex c t) = records_ t
  ∧ deleted_ (createIndex c t) = deleted_ t.
Proof. unfold createIndex. by repeat case_decide. Qed.

Lemma dropIndex_store c t :
  records_ (dropIndex c t) = records_ t
  ∧ deleted_ (dropIndex c t) = deleted_ t.
Proof. unfold dropIndex. by case_decide. Qed.

Lemma hard_deleted_store_eq idx t :
  records_ (hard_deleted idx t)
  = pop_back (swap_slots (records_ t) idx (length (records_ t) - 1))
  ∧ deleted_ (hard_deleted idx t)
    = pop_back (swap_slots (deleted_ t) idx (length (records_ t) - 1)).
Proof.
  unfold hard_deleted.
  destruct (columns_fold_frame (columns_in_order (secondaryIndexedColumns_ t))
              (rebuildPrimaryKeyIndex (hard_deleted_store idx t)))
    as (Hr & Hd & _ & _).
  by rewrite Hr, Hd.
Qed.

Lemma unique_active_keys_ext t t' :
  records_ t' = records_ t → deleted_ t' = deleted_ t →
  unique_active_keys t → unique_active_keys t'.
Proof.
  unfold unique_active_keys, active_slots, slots, record_at, deleted_at.
  by intros -> ->.
Qed.

Lemma deleteRecordByID_unique id hard t :
  wf t → unique_active_keys t →
  unique_active_keys (deleteRecordByID id hard t).2.
Proof.
  intros [Hlen Hpk _] Huniq.
  destruct (pkIndex_ t !! id) as [idx|] eqn:Hid.
  - destruct hard.
    + rewrite (deleteRecordByID_hard id idx) by done. simpl.
      destruct (hard_deleted_store_eq idx t) as [Hr Hd].
      apply Hpk in Hid as [[Hidx _]%elem_of_active_slots _].
      eapply unique_active_keys_ext with
        (t := mkQBTable _ _ ∅ ∅ ∅); [exact Hr|exact Hd|].
      by apply (unique_of_hard column0).
    + destruct (deleted_at t idx) eqn:Hd.
      * unfold deleteRecordByID. by rewrite Hid, Hd.
      * rewrite (deleteRecordByID_soft id idx) by done.
        by apply (unique_of_soft column0).
  - unfold deleteRecordByID. by rewrite Hid.
Qed.

Lemma step_unique t op :
  wf t →
  match op with OpAddRecord r => key_free t (column0 r) | _ => True end →
  unique_active_keys t → unique_active_keys (step t op).
Proof.
  intros Hwf Hfresh Huniq. destruct op as [r|id hard| |c|c]; simpl.
  - apply (unique_of_push column0); [apply Hwf|done..].
  - by apply deleteRecordByID_unique.
  - destruct (compactRecords_frame t) as (Hr & Hd & _).
    eapply unique_active_keys_ext with
      (t := mkQBTable _ _ ∅ ∅ ∅); [exact Hr|exact Hd|].
    by apply (unique_of_compacted column0).
  - destruct (createIndex_store c t) as [Hr Hd].
    by apply (unique_active_keys_ext t).
  - destruct (dropIndex_store c t) as [Hr Hd].
    by apply (unique_active_keys_ext t).
Qed.

Lemma foldl_step_unique ops t :
  wf t → unique_active_keys t → fresh_adds_from t ops →
  unique_active_keys (foldl step t ops).
Proof.
  revert t. induction ops as [|op ops IH]; intros t Hwf Huniq Hfresh; [done|].
  destruct Hfresh as [Hop Hfresh]. simpl. apply IH; [by apply step_wf| |done].
  by apply step_unique.
Qed.
End fixed_keys.


(** ** Loops of the dynamic-schema table *)

Section dyn_loops.
Import Dyn DynSpec.

Lemma set_secondaryIndexes_eta t :
  set_secondaryIndexes t (secondaryIndexes_ t) = t.
Proof. by destruct t. Qed.

(** A loop whose body only touches the secondary index is a loop over
    the index. *)
Lemma for_each_index_loop {I} (body : I → QBTableDynamic → outcome unit)
    (F : index_step I) (t : QBTableDynamic) (l : list I) :
  (∀ i m, body i (set_secondaryIndexes t m) = with_index () t (F i m)) →
  ∀ m, for_each body l (set_secondaryIndexes t m)
       = with_index () t (index_loop F l m).
Proof.
  intros Hbody. induction l as [|i l IH]; intros m; [done|].
  simpl. rewrite Hbody. destruct (F i m) as [[e|] m']; simpl; [done|].
  apply IH.
Qed.

Lemma for_each_index_loop_from {I}
    (body : I → QBTableDynamic → outcome unit)
    (F : index_step I) (t : QBTableDynamic) (l : list I) :
  (∀ i m, body i (set_secondaryIndexes t m) = with_index () t (F i m)) →
  for_each body l t = with_index () t (index_loop F l (secondaryIndexes_ t)).
Proof.
  intros Hbody.
  pose proof (for_each_index_loop body F t l Hbody (secondaryIndexes_ t))
    as Hloop.
  by rewrite set_secondaryIndexes_eta in Hloop.
Qed.

Lemma rebuildSecondaryIndex_loop c t m :
  rebuildSecondaryIndex c (set_secondaryIndexes t m)
  = with_index () t (index_loop (rebuild_step t c) (slots t) m).
Proof.
  unfold rebuildSecondaryIndex.
  apply (for_each_index_loop _ (rebuild_step t c) t).
  intros i m'. unfold rebuild_step.
  change (deleted_at (set_secondaryIndexes t m') i) with (deleted_at t i).
  change (getField (set_secondaryIndexes t m') i c) with (getField t i c).
  destruct (deleted_at t i); [done|]. by destruct (getField t i c).
Qed.

Lemma getField_resolves t i c :
  resolves t (record_at t i) c ↔ ∃ v, getField t i c = Value v.
Proof.
  unfold resolves, getField.
  destruct (fields (record_at t i) !! c) as [v|] eqn:Hf.
  - split; [by exists v|]. intros _. left. by exists v.
  - destruct (derivedColumns_ t !! c) as [f|] eqn:Hd.
    + split; [by eexists|]. intros _. right. by exists f.
    + split; [|by intros [? [=]]].
      intros [[? [=]]|[? [=]]].
Qed.

(** The rebuild loop over slots that all resolve the column returns, and
    pushes every active slot on the bucket of its value. *)
Lemma rebuild_loop_ok t c l m :
  (∀ i, i ∈ l → deleted_at t i = false → resolves t (record_at t i) c) →
  index_loop (rebuild_step t c) l m
  = (None,
     foldl (λ m i, if deleted_at t i then m
                   else push_back_bucket (c, field_or_default t i c) i m)
           m l).
Proof.
  revert m. induction l as [|i l IH]; intros m Hres; [done|].
  simpl. unfold rebuild_step at 1, field_or_default at 2.
  destruct (deleted_at t i) eqn:Hd.
  - apply IH. intros j Hj. apply Hres. by right.
  - destruct (proj1 (getField_resolves t i c)) as [v Hv].
    { apply Hres; [by left|done]. }
    rewrite Hv. apply IH. intros j Hj. apply Hres. by right.
Qed.

(** Conversely a rebuild loop that returns has met only slots that
    resolve the column. *)
Lemma rebuild_loop_returns t c l m m' :
  index_loop (rebuild_step t c) l m = (None, m') →
  ∀ i, i ∈ l → deleted_at t i = false → resolves t (record_at t i) c.
Proof.
  revert m. induction l as [|i l IH]; intros m Hloop j Hj Hd.
  - by apply not_elem_of_nil in Hj.
  - simpl in Hloop. unfold rebuild_step at 1 in Hloop.
    apply elem_of_cons in Hj as [->|Hj].
    + rewrite Hd in Hloop. apply getField_resolves.
      destruct (getField t i c) as [v|e]; [by exists v|done].
    + destruct (deleted_at t i); [by eapply IH|].
      destruct (getField t i c) as [v|e]; [by eapply IH|done].
Qed.
End dyn_loops.

(** ** The operations of the dynamic-schema table, as loops over the index *)

Section dyn_ops.
Import Dyn DynSpec.

Lemma get_loop_ok {I} (g : I → result FieldType) h (l : list I) m :
  (∀ i, i ∈ l → ∃ v, g i = Value v) →
  ∃ m', index_loop (get_step g h) l m = (None, m').
Proof.
  revert m. induction l as [|i l IH]; intros m Hres; [by eexists|].
  simpl. unfold get_step at 1.
  destruct (Hres i) as [v ->]; [by left|].
  apply IH. intros j Hj. apply Hres. by right.
Qed.

Lemma get_loop_returns {I} (g : I → result FieldType) h (l : list I) m m' :
  index_loop (get_step g h) l m = (None, m') →
  ∀ i, i ∈ l → ∃ v, g i = Value v.
Proof.
  revert m. induction l as [|i l IH]; intros m Hloop j Hj.
  - by apply not_elem_of_nil in Hj.
  - simpl in Hloop. unfold get_step at 1 in Hloop.
    destruct (g i) as [v|e] eqn:Hg; [|done].
    apply elem_of_cons in Hj as [->|Hj]; [by exists v|by eapply IH].
Qed.

Lemma dyn_elem_of_columns_in_order s c : c ∈ columns_in_order s ↔ c ∈ s.
Proof.
  unfold columns_in_order. rewrite merge_sort_Permutation.
  apply elem_of_elements.
Qed.

Lemma dyn_columns_in_order_NoDup s : NoDup (columns_in_order s).
Proof.
  unfold columns_in_order. rewrite merge_sort_Permutation.
  apply NoDup_elements.
Qed.

(** *** addRecord *)

Lemma dyn_addRecord_loop r t :
  map_Forall (λ key _, key ∈ columns_ t) (fields r) →
  addRecord r t
  = with_index true (pushed r t)
      (index_loop
         (get_step (λ col, getField (pushed r t) (length (records_ t)) col)
                   (λ col v m,
                      push_back_bucket (col, v) (length (records_ t)) m))
         (columns_in_order (secondaryIndexedColumns_ t))
         (secondaryIndexes_ t)).
Proof.
  intros Hok. unfold addRecord. rewrite bool_decide_eq_true_2 by done.
  fold (pushed r t).
  rewrite (for_each_index_loop_from _
             (get_step (λ col, getField (pushed r t) (length (records_ t)) col)
                (λ col v m,
                   push_back_bucket (col, v) (length (records_ t)) m))).
  - simpl. by destruct (index_loop _ _ _) as [[e|] m'].
  - intros col m. unfold get_step.
    change (getField (set_secondaryIndexes (pushed r t) m)
                     (length (records_ t)) col)
      with (getField (pushed r t) (length (records_ t)) col).
    by destruct (getField _ _ _).
Qed.

Lemma dyn_addRecord_rejects r t :
  ¬ map_Forall (λ key _, key ∈ columns_ t) (fields r) →
  addRecord r t = Returns false t.
Proof.
  intros Hno. unfold addRecord. by rewrite bool_decide_eq_false_2.
Qed.

Lemma dyn_pk_sound_ext t t' :
  records_ t = records_ t' → deleted_ t = deleted_ t' →
  pkIndex_ t = pkIndex_ t' → pk_sound t → pk_sound t'.
Proof.
  unfold pk_sound, active_slots, slots, record_at, deleted_at.
  by intros -> -> ->.
Qed.

Lemma dyn_elem_of_active_slots t i :
  i ∈ active_slots t ↔ i < length (records_ t) ∧ deleted_at t i = false.
Proof. apply elem_of_active_of. Qed.

(** Indexability carries over to a table whose active records are among
    the old active records. *)
Lemma indexable_embed t t' :
  secondaryIndexedColumns_ t' ⊆ secondaryIndexedColumns_ t →
  derivedColumns_ t' = derivedColumns_ t →
  (∀ j, j ∈ active_slots t' →
        ∃ i, i ∈ active_slots t ∧ record_at t' j = record_at t i) →
  indexable t → indexable t'.
Proof.
  intros Hsub Hder Hemb Hidx c j Hc Hj.
  destruct (Hemb j Hj) as (i & Hi & ->).
  unfold resolves. rewrite Hder. apply Hidx; [by apply Hsub|done].
Qed.

Lemma indexable_set_index t m :
  indexable t → indexable (set_secondaryIndexes t m).
Proof. done. Qed.

Lemma dyn_addRecord_wf r t b t' :
  addRecord r t = Returns b t' → wf t → wf t'.
Proof.
  intros Hadd [Hlen Hpk Hidx].
  destruct (decide (map_Forall (λ key _, key ∈ columns_ t) (fields r)))
    as [Hok|Hno].
  2:{ rewrite dyn_addRecord_rejects in Hadd by done.
      injection Hadd as _ <-. by split. }
  rewrite dyn_addRecord_loop in Hadd by done.
  destruct (index_loop _ _ _) as [[e|] m'] eqn:Hloop; [done|].
  injection Hadd as _ <-. split.
  - simpl. rewrite !length_app. simpl. lia.
  - by apply (pk_sound_of_push id).
  - intros c i Hc. change (active_slots (set_secondaryIndexes (pushed r t) m'))
      with (active_of (records_ t ++ [r]) (deleted_ t ++ [false])).
    rewrite active_of_push by done.
    intros [Hi| ->%list_elem_of_singleton]%elem_of_app.
    + pose proof Hi as [Hlt _]%elem_of_active_of.
      unfold resolves, record_at. simpl.
      rewrite lookup_total_app_l by done. by apply Hidx.
    + apply (getField_resolves (pushed r t)).
      eapply get_loop_returns; [exact Hloop|].
      by apply dyn_elem_of_columns_in_order.
Qed.

Lemma dyn_addRecord_store r t t' :
  addRecord r t = Returns true t' →
  records_ t' = records_ t ++ [r] ∧ deleted_ t' = deleted_ t ++ [false]
  ∧ pkIndex_ t' = <[id r := length (records_ t)]> (pkIndex_ t).
Proof.
  intros Hadd.
  destruct (decide (map_Forall (λ key _, key ∈ columns_ t) (fields r)))
    as [Hok|Hno].
  2:{ by rewrite dyn_addRecord_rejects in Hadd. }
  rewrite dyn_addRecord_loop in Hadd by done.
  destruct (index_loop _ _ _) as [[e|] m'] eqn:Hloop; [done|].
  by injection Hadd as <-.
Qed.

(** *** deleteRecordByID, soft *)

Lemma dyn_deleteRecordByID_soft k idx t :
  pkIndex_ t !! k = Some idx → deleted_at t idx = false →
  deleteRecordByID k false t
  = with_index true (soft_marked k idx t)
      (index_loop
         (get_step (λ col, getField t idx col) (unindex_slot idx))
         (columns_in_order (secondaryIndexedColumns_ t))
         (secondaryIndexes_ t)).
Proof.
  intros Hk Hd. unfold deleteRecordByID. rewrite Hk, Hd. simpl.
  fold (soft_marked k idx t).
  rewrite (for_each_index_loop_from _
             (get_step (λ col, getField t idx col) (unindex_slot idx))).
  - simpl. by destruct (index_loop _ _ _) as [[e|] m'].
  - intros col m. unfold get_step.
    change (getField (set_secondaryIndexes (soft_marked k idx t) m) idx col)
      with (getField t idx col).
    destruct (getField t idx col) as [v|e]; [|done]. simpl.
    unfold unindex_slot. destruct (m !! (col, v)); [|done].
    by destruct (erase_slot idx l).
Qed.

(** A soft delete of a resolvable key returns [true] in an indexable
    table. *)
Lemma dyn_deleteRecordByID_soft_returns k idx t :
  wf t → pkIndex_ t !! k = Some idx →
  ∃ m', deleteRecordByID k false t
        = Returns true (set_secondaryIndexes (soft_marked k idx t) m').
Proof.
  intros [Hlen Hpk Hidx] Hk.
  destruct (Hpk k idx Hk) as [Hact _].
  pose proof Hact as [_ Hd]%dyn_elem_of_active_slots.
  rewrite (dyn_deleteRecordByID_soft k idx) by done.
  destruct (get_loop_ok (λ col, getField t idx col) (unindex_slot idx)
              (columns_in_order (secondaryIndexedColumns_ t))
              (secondaryIndexes_ t)) as [m' ->].
  { intros col Hcol%dyn_elem_of_columns_in_order.
    apply getField_resolves. by apply Hidx. }
  by exists m'.
Qed.

Lemma soft_marked_wf k idx t m :
  wf t → pkIndex_ t !! k = Some idx →
  wf (set_secondaryIndexes (soft_marked k idx t) m).
Proof.
  intros [Hlen Hpk Hidx] Hk. split.
  - simpl. by rewrite length_insert.
  - by apply (pk_sound_of_soft id).
  - apply (indexable_embed t); [done..| |done].
    intros j. change (active_slots (set_secondaryIndexes (soft_marked k idx t) m))
      with (active_of (records_ t) (<[idx := true]> (deleted_ t))).
    rewrite active_of_soft by done.
    intros [_ Hj]%list_elem_of_filter. by exists j.
Qed.

(** *** Rebuild of the indexed columns *)

Lemma rebuild_columns_loop body (skip : string → bool) t cols m :
  (∀ column t', body column t'
                = if skip column then Returns () t'
                  else rebuildSecondaryIndex column t') →
  for_each body cols (set_secondaryIndexes t m)
  = with_index () t (index_loop (rebuild_columns_step t skip) cols m).
Proof.
  intros Hbody.
  apply for_each_index_loop. intros col m'. unfold rebuild_columns_step.
  rewrite Hbody. destruct (skip col); [done|].
  apply rebuildSecondaryIndex_loop.
Qed.

Lemma rebuild_columns_ok (skip : string → bool) t cols m :
  (∀ c i, c ∈ cols → i ∈ active_slots t → resolves t (record_at t i) c) →
  ∃ m', index_loop (rebuild_columns_step t skip) cols m = (None, m').
Proof.
  revert m. induction cols as [|c cols IH]; intros m Hres; [by eexists|].
  simpl. unfold rebuild_columns_step at 1.
  destruct (skip c).
  - apply IH. intros c' i Hc'. apply Hres. by right.
  - rewrite rebuild_loop_ok.
    + apply IH. intros c' i Hc'. apply Hres. by right.
    + intros i Hi Hd. apply Hres; [by left|].
      apply dyn_elem_of_active_slots. split; [|done].
      unfold slots in Hi. apply elem_of_seq in Hi. lia.
Qed.

(** *** deleteRecordByID, hard *)

Lemma swap_slots_same {A} `{Inhabited A} (v : list A) i :
  swap_slots v i i = v.
Proof.
  unfold swap_slots. destruct (decide (i < length v)) as [Hi|Hi].
  - rewrite list_insert_insert_eq. apply list_insert_id.
    by apply list_lookup_lookup_total_lt.
  - by rewrite !list_insert_ge by (rewrite ?length_insert; lia).
Qed.

Lemma dyn_deleteRecordByID_hard k idx t :
  pkIndex_ t !! k = Some idx →
  deleteRecordByID k true t
  = with_index true (rebuildPrimaryIndex (hard_deleted_store idx t))
      (index_loop
         (rebuild_columns_step (rebuildPrimaryIndex (hard_deleted_store idx t))
                               (λ c, bool_decide (c = "id")))
         (columns_in_order (secondaryIndexedColumns_ t)) ∅).
Proof.
  intros Hk. unfold deleteRecordByID. rewrite Hk. simpl.
  assert ((if decide (idx ≠ length (records_ t) - 1)
           then set_records t
                  (swap_slots (records_ t) idx (length (records_ t) - 1))
                  (swap_slots (deleted_ t) idx (length (records_ t) - 1))
           else t)
          = set_records t
              (swap_slots (records_ t) idx (length (records_ t) - 1))
              (swap_slots (deleted_ t) idx (length (records_ t) - 1)))
    as ->.
  { case_decide as Hne; [done|]. rewrite <- Hne.
    rewrite !swap_slots_same. by destruct t. }
  change (set_records _ (pop_back _) (pop_back _))
    with (hard_deleted_store idx t).
  rewrite (rebuild_columns_loop _ (λ c, bool_decide (c = "id"))).
  - by destruct (index_loop _ _ _) as [[e|] m'].
  - intros col t'. by repeat case_decide; case_bool_decide.
Qed.

Lemma hard_deleted_store_embed idx t j :
  length (deleted_ t) = length (records_ t) → idx < length (records_ t) →
  j ∈ active_slots (hard_deleted_store idx t) →
  hard_origin (records_ t) idx j ∈ active_slots t
  ∧ record_at (hard_deleted_store idx t) j
    = record_at t (hard_origin (records_ t) idx j).
Proof. intros Hlen Hidx. by apply active_of_hard. Qed.

Lemma rebuilt_wf t m :
  length (deleted_ t) = length (records_ t) → indexable t →
  wf (set_secondaryIndexes (rebuildPrimaryIndex t) m).
Proof.
  intros Hlen Hidx. split; [done| |done].
  apply (pk_sound_of_rebuild id).
Qed.

Lemma hard_deleted_store_indexable idx t :
  wf t → idx < length (records_ t) →
  indexable (hard_deleted_store idx t).
Proof.
  intros [Hlen _ Hidx] Hlt. apply (indexable_embed t); [done..| |done].
  intros j Hj. exists (hard_origin (records_ t) idx j).
  by apply hard_deleted_store_embed.
Qed.

Lemma hard_deleted_store_length idx t :
  length (deleted_ t) = length (records_ t) →
  length (deleted_ (hard_deleted_store idx t))
  = length (records_ (hard_deleted_store idx t)).
Proof.
  intros Hlen. simpl. rewrite !pop_back_length, !swap_slots_length. lia.
Qed.

(** A hard delete of a resolvable key returns [true]. *)
Lemma dyn_deleteRecordByID_hard_returns k idx t :
  wf t → pkIndex_ t !! k = Some idx →
  ∃ m', deleteRecordByID k true t
        = Returns true
            (set_secondaryIndexes
               (rebuildPrimaryIndex (hard_deleted_store idx t)) m').
Proof.
  intros Hwf Hk. rewrite (dyn_deleteRecordByID_hard k idx) by done.
  destruct (wf_pk t Hwf k idx Hk) as [[Hlt _]%dyn_elem_of_active_slots _].
  destruct (rebuild_columns_ok (λ c, bool_decide (c = "id"))
              (rebuildPrimaryIndex (hard_deleted_store idx t))
              (columns_in_order (secondaryIndexedColumns_ t)) ∅)
    as [m' ->]; [|by exists m'].
  intros c i Hc%dyn_elem_of_columns_in_order Hi.
  by apply (hard_deleted_store_indexable idx t).
Qed.

Lemma dyn_deleteRecordByID_wf k hard t b t' :
  deleteRecordByID k hard t = Returns b t' → wf t → wf t'.
Proof.
  intros Hdel Hwf. destruct (pkIndex_ t !! k) as [idx|] eqn:Hk.
  2:{ unfold deleteRecordByID in Hdel. rewrite Hk in Hdel.
      by injection Hdel as _ <-. }
  destruct (wf_pk t Hwf k idx Hk) as [Hact _].
  pose proof Hact as [Hlt Hd]%dyn_elem_of_active_slots.
  destruct hard.
  - destruct (dyn_deleteRecordByID_hard_returns k idx t Hwf Hk) as [m' Heq].
    rewrite Heq in Hdel. injection Hdel as _ <-.
    apply rebuilt_wf.
    + apply hard_deleted_store_length, Hwf.
    + by apply hard_deleted_store_indexable.
  - destruct (dyn_deleteRecordByID_soft_returns k idx t Hwf Hk) as [m' Heq].
    rewrite Heq in Hdel. injection Hdel as _ <-.
    by apply soft_marked_wf.
Qed.

(** *** compactRecords *)

Lemma dyn_compact_loop t l l2 :
  records_ t = l ++ l2 →
  foldl (λ '(compacted, i) rec,
           (if deleted_at t i then compacted else compacted ++ [rec], S i))
        ([], 0) l
  = ((λ i, record_at t i)
       <$> filter (λ i, deleted_at t i = false) (seq 0 (length l)),
     length l).
Proof.
  revert l2. induction l as [|r l IH] using rev_ind; intros l2 Hrs; [done|].
  rewrite foldl_snoc, (IH ([r] ++ l2)) by (by rewrite Hrs, <- app_assoc).
  rewrite length_app, seq_app, filter_app. simpl.
  rewrite Nat.add_1_r. f_equal.
  destruct (deleted_at t (length l)) eqn:Hd.
  - rewrite filter_cons_False by congruence.
    by rewrite filter_nil, app_nil_r.
  - rewrite filter_cons_True by done.
    rewrite filter_nil, fmap_app. simpl. do 2 f_equal.
    unfold record_at. rewrite Hrs, <- app_assoc.
    symmetry. by apply list_lookup_total_middle.
Qed.

Lemma dyn_compactRecords_loop t :
  compactRecords t
  = with_index () (rebuildPrimaryIndex (compacted_store t))
      (index_loop
         (rebuild_columns_step (rebuildPrimaryIndex (compacted_store t))
                               (λ _, false))
         (columns_in_order (secondaryIndexedColumns_ t)) ∅).
Proof.
  unfold compactRecords.
  rewrite (dyn_compact_loop t (records_ t) []) by (by rewrite app_nil_r).
  simpl.
  rewrite length_fmap.
  change (set_records t _ _) with (compacted_store t).
  by rewrite (rebuild_columns_loop _ (λ _, false)).
Qed.

Lemma compacted_store_embed t j :
  j ∈ active_slots (compacted_store t) →
  active_slots t !!! j ∈ active_slots t
  ∧ record_at (compacted_store t) j = record_at t (active_slots t !!! j).
Proof. apply active_of_compacted. Qed.

Lemma compacted_store_indexable t :
  indexable t → indexable (compacted_store t).
Proof.
  intros Hidx. apply (indexable_embed t); [done..| |done].
  intros j Hj. exists (active_slots t !!! j).
  by apply compacted_store_embed.
Qed.

Lemma compacted_store_length t :
  length (deleted_ (compacted_store t))
  = length (records_ (compacted_store t)).
Proof.
  simpl. unfold active_records. by rewrite length_replicate, length_fmap.
Qed.

(** Compaction of an indexable table returns. *)
Lemma dyn_compactRecords_returns t :
  indexable t →
  ∃ m', compactRecords t
        = Returns ()
            (set_secondaryIndexes
               (rebuildPrimaryIndex (compacted_store t)) m').
Proof.
  intros Hidx. rewrite dyn_compactRecords_loop.
  destruct (rebuild_columns_ok (λ _, false)
              (rebuildPrimaryIndex (compacted_store t))
              (columns_in_order (secondaryIndexedColumns_ t)) ∅)
    as [m' ->]; [|by exists m'].
  intros c i Hc%dyn_elem_of_columns_in_order Hi.
  by apply (compacted_store_indexable t).
Qed.

Lemma dyn_compactRecords_wf t t' :
  compactRecords t = Returns () t' → wf t → wf t'.
Proof.
  intros Hc [Hlen Hpk Hidx].
  destruct (dyn_compactRecords_returns t Hidx) as [m' Heq].
  rewrite Heq in Hc. injection Hc as <-.
  apply rebuilt_wf; [apply compacted_store_length|].
  by apply compacted_store_indexable.
Qed.

(** *** Index and schema operations *)

Lemma dyn_createIndex_wf c t t' :
  createIndex c t = Returns () t' → wf t → wf t'.
Proof.
  unfold createIndex. intros Hc [Hlen Hpk Hidx].
  case_decide as Hknown; [done|].
  case_decide as Hin; [by injection Hc as <-|].
  rewrite <- (set_secondaryIndexes_eta (set_secondaryIndexedColumns _ _)) in Hc.
  rewrite rebuildSecondaryIndex_loop in Hc.
  destruct (index_loop _ _ _) as [[e|] m'] eqn:Hloop; [done|].
  injection Hc as <-. split; [done..|].
  intros c' i Hc' Hi. simpl in Hc'.
  destruct (decide (c' = c)) as [->|Hne].
  - apply dyn_elem_of_active_slots in Hi as [Hi Hd].
    eapply (rebuild_loop_returns (set_secondaryIndexedColumns t _));
      [exact Hloop| |done].
    unfold slots. apply elem_of_seq. simpl in *. lia.
  - apply Hidx; [set_solver|done].
Qed.

Lemma dyn_dropIndex_wf c t t' :
  dropIndex c t = Returns () t' → wf t → wf t'.
Proof.
  unfold dropIndex. intros Hc [Hlen Hpk Hidx].
  case_decide; [done|]. injection Hc as <-. split; [done..|].
  intros c' i Hc' Hi. simpl in Hc'. apply Hidx; [set_solver|done].
Qed.


Lemma with_default_id name d r : id (with_default name d r) = id r.
Proof. unfold with_default. by destruct (fields r !! name). Qed.

Lemma with_default_fields name d r c :
  is_Some (fields r !! c) → is_Some (fields (with_default name d r) !! c).
Proof.
  unfold with_default. intros Hc.
  destruct (fields r !! name) eqn:Hn; [done|]. simpl.
  destruct (decide (name = c)) as [->|Hne].
  - rewrite lookup_insert_eq. by eexists.
  - by rewrite lookup_insert_ne.
Qed.

Lemma dyn_addColumn_wf name d t b t' :
  addColumn name d t = Returns b t' → wf t → wf t'.
Proof.
  unfold addColumn. intros Hc [Hlen Hpk Hidx].
  case_decide; [by injection Hc as _ <-; split|].
  injection Hc as _ <-. fold (with_default name d). split.
  - simpl. by rewrite length_fmap.
  - apply (pk_sound_of_fmap id (with_default name d));
      [apply with_default_id|done].
  - intros c i Hc Hi.
    change (active_slots (set_records _ _ _))
      with (active_of (with_default name d <$> records_ t) (deleted_ t)) in Hi.
    rewrite active_of_fmap in Hi.
    pose proof Hi as [Hlt _]%elem_of_active_of.
    specialize (Hidx c i Hc Hi). unfold resolves, record_at in *. simpl.
    rewrite (list_lookup_total_fmap (with_default name d)) by done.
    destruct Hidx as [Hf|Hd]; [left|by right].
    by apply with_default_fields.
Qed.

Lemma dyn_removeColumn_wf name t : wf t → wf (removeColumn name t).
Proof.
  intros [Hlen Hpk Hidx]. unfold removeColumn. fold (without_field name).
  split.
  - simpl. by rewrite length_fmap.
  - by apply (pk_sound_of_fmap id (without_field name)).
  - intros c i Hc Hi. simpl in Hc.
    change (active_slots (mkQBTableDynamic _ _ _ _ _ _ _))
      with (active_of (without_field name <$> records_ t) (deleted_ t)) in Hi.
    rewrite active_of_fmap in Hi.
    pose proof Hi as [Hlt _]%elem_of_active_of.
    apply elem_of_difference in Hc as [Hc Hne%not_elem_of_singleton].
    specialize (Hidx c i Hc Hi). unfold resolves, record_at in *. simpl.
    rewrite (list_lookup_total_fmap (without_field name)) by done. simpl.
    by rewrite lookup_delete_ne.
Qed.

Lemma dyn_addDerivedColumn_wf name f t b t' :
  addDerivedColumn name f t = Returns b t' → wf t → wf t'.
Proof.
  unfold addDerivedColumn. intros Hc [Hlen Hpk Hidx].
  case_decide; [by injection Hc as _ <-; split|].
  injection Hc as _ <-. split; [done..|].
  intros c i Hc Hi. specialize (Hidx c i Hc Hi).
  unfold resolves in *. simpl.
  destruct Hidx as [Hf|Hd]; [by left|right].
  destruct (decide (name = c)) as [->|Hne].
  - rewrite lookup_insert_eq. by eexists.
  - by rewrite lookup_insert_ne.
Qed.

(** *** Every table the operations build satisfies the invariant *)

Lemma dyn_empty_wf : wf empty.
Proof.
  split; [done|intros k i; simpl; by rewrite lookup_empty|].
  intros c i Hc. simpl in Hc. set_solver.
Qed.

Lemma discard_returns {A} (o : outcome A) t' :
  discard o = Returns () t' → ∃ a, o = Returns a t'.
Proof. destruct o as [a t|e t]; [|done]. intros [= <-]. by exists a. Qed.

Lemma dyn_step_wf op t t' : step op t = Returns () t' → wf t → wf t'.
Proof.
  destruct op; simpl.
  - intros [b Hb]%discard_returns. by eapply dyn_addColumn_wf.
  - intros [= <-]. apply dyn_removeColumn_wf.
  - intros [b Hb]%discard_returns. by eapply dyn_addDerivedColumn_wf.
  - apply dyn_createIndex_wf.
  - apply dyn_dropIndex_wf.
  - intros [b Hb]%discard_returns. by eapply dyn_addRecord_wf.
  - intros [b Hb]%discard_returns. by eapply dyn_deleteRecordByID_wf.
  - apply dyn_compactRecords_wf.
Qed.

Lemma dyn_for_each_step_wf ops t t' :
  for_each step ops t = Returns () t' → wf t → wf t'.
Proof.
  revert t. induction ops as [|op ops IH]; intros t Hrun Hwf.
  - by injection Hrun as <-.
  - simpl in Hrun. destruct (step op t) as [[] t1|e t1] eqn:Hstep; [|done].
    eapply IH; [done|]. by eapply dyn_step_wf.
Qed.

Lemma dyn_run_wf ops t : run ops = Returns () t → wf t.
Proof. intros Hrun. eapply dyn_for_each_step_wf; [done|apply dyn_empty_wf]. Qed.
End dyn_ops.

(** ** Primary keys of the dynamic-schema table *)

Section dyn_keys.
Import Dyn DynSpec.

Lemma dyn_unique_ext t t' :
  records_ t' = records_ t → deleted_ t' = deleted_ t →
  unique_active_keys t → unique_active_keys t'.
Proof.
  unfold unique_active_keys, active_slots, slots, record_at, deleted_at.
  by intros -> ->.
Qed.

Lemma dyn_createIndex_store c t t' :
  createIndex c t = Returns () t' →
  records_ t' = records_ t ∧ deleted_ t' = deleted_ t.
Proof.
  unfold createIndex. intros Hc.
  case_decide; [done|]. case_decide; [by injection Hc as <-|].
  rewrite <- (set_secondaryIndexes_eta (set_secondaryIndexedColumns _ _)) in Hc.
  rewrite rebuildSecondaryIndex_loop in Hc.
  destruct (index_loop _ _ _) as [[e|] m']; [done|]. by injection Hc as <-.
Qed.

Lemma dyn_deleteRecordByID_unique k hard t b t' :
  deleteRecordByID k hard t = Returns b t' → wf t →
  unique_active_keys t → unique_active_keys t'.
Proof.
  intros Hdel Hwf Huniq. destruct (pkIndex_ t !! k) as [idx|] eqn:Hk.
  2:{ unfold deleteRecordByID in Hdel. rewrite Hk in Hdel.
      by injection Hdel as _ <-. }
  destruct (wf_pk t Hwf k idx Hk) as [[Hlt Hd]%dyn_elem_of_active_slots _].
  destruct hard.
  - destruct (dyn_deleteRecordByID_hard_returns k idx t Hwf Hk) as [m' Heq].
    rewrite Heq in Hdel. injection Hdel as _ <-.
    apply (unique_of_hard id); [apply Hwf|done..].
  - destruct (dyn_deleteRecordByID_soft_returns k idx t Hwf Hk) as [m' Heq].
    rewrite Heq in Hdel. injection Hdel as _ <-.
    apply (unique_of_soft id); [apply Hwf|done].
Qed.

Lemma dyn_step_unique op t t' :
  step op t = Returns () t' → wf t →
  match op with OpAddRecord r => key_free t (id r) | _ => True end →
  unique_active_keys t → unique_active_keys t'.
Proof.
  intros Hstep Hwf Hfresh Huniq.
  destruct op as [name d|name|name f|c|c|r|k hard|]; simpl in Hstep.
  - apply discard_returns in Hstep as [b Hb]. unfold addColumn in Hb.
    case_decide; [by injection Hb as _ <-|]. injection Hb as _ <-.
    apply (unique_of_fmap id (with_default name d));
      [apply with_default_id|done].
  - injection Hstep as <-.
    by apply (unique_of_fmap id (without_field name)).
  - apply discard_returns in Hstep as [b Hb]. unfold addDerivedColumn in Hb.
    case_decide; by injection Hb as _ <-.
  - destruct (dyn_createIndex_store c t t' Hstep) as [Hr Hd].
    by apply (dyn_unique_ext t).
  - unfold dropIndex in Hstep. case_decide; [done|].
    by injection Hstep as <-.
  - apply discard_returns in Hstep as [[] Hb].
    + destruct (dyn_addRecord_store r t t' Hb) as (Hr & Hd & _).
      apply (dyn_unique_ext (pushed r t)); [done..|].
      apply (unique_of_push id); [apply Hwf|done..].
    + destruct (decide (map_Forall (λ key _, key ∈ columns_ t) (fields r)))
        as [Hok|Hno].
      * rewrite dyn_addRecord_loop in Hb by done.
        by destruct (index_loop _ _ _) as [[e|] m'].
      * rewrite dyn_addRecord_rejects in Hb by done. by injection Hb as <-.
  - apply discard_returns in Hstep as [b Hb].
    by eapply dyn_deleteRecordByID_unique.
  - destruct (dyn_compactRecords_returns t (wf_indexable t Hwf)) as [m' Heq].
    rewrite Heq in Hstep. injection Hstep as <-.
    by apply (unique_of_compacted id).
Qed.

Lemma dyn_for_each_step_unique ops t t' :
  for_each step ops t = Returns () t' → wf t →
  fresh_adds_from t ops →
  unique_active_keys t → unique_active_keys t'.
Proof.
  revert t. induction ops as [|op ops IH]; intros t Hrun Hwf Hfresh Huniq.
  - by injection Hrun as <-.
  - simpl in Hrun, Hfresh. destruct Hfresh as [Hop Hfresh].
    destruct (step op t) as [[] t1|e t1] eqn:Hstep; [|done].
    eapply IH; [done| |done|].
    + by eapply dyn_step_wf.
    + by eapply dyn_step_unique.
Qed.

(** No active record holds [k]: the key does not resolve. *)
Lemma dyn_key_free_lookup t k :
  pk_sound t → key_free t k → pkIndex_ t !! k = None.
Proof.
  intros Hpk Hfree. destruct (pkIndex_ t !! k) as [i|] eqn:Hk; [|done].
  apply Hpk in Hk as [Hi Hk]. unfold key_free in Hfree.
  rewrite Forall_forall in Hfree. by apply Hfree in Hi.
Qed.
End dyn_keys.

Section fixed_lookup.
Import Fixed FixedSpec.

Lemma key_free_lookup t k :
  pk_sound t → key_free t k → pkIndex_ t !! k = None.
Proof.
  intros Hpk Hfree. destruct (pkIndex_ t !! k) as [i|] eqn:Hk; [|done].
  apply Hpk in Hk as [Hi Hk]. unfold key_free in Hfree.
  rewrite Forall_forall in Hfree. by apply Hfree in Hi.
Qed.
End fixed_lookup.


(** * The claims *)

Section claims.
Import Examples.

(** C10. In the dynamic variant [findMatching("id", value)] returns a result
    exactly when [value] holds the unsigned-integer alternative; for the
    signed-integer and the text alternative the primary-key branch throws
    [std::bad_variant_access] instead of returning an empty result. *)
Theorem dyn_findMatching_id_needs_uint (t : Dyn.QBTableDynamic)
    (value : FieldType) :
  ((∃ key, value = FUInt key)
   ↔ ∃ rs, Dyn.findMatching t "id" value = Dyn.Value rs)
  ∧ ((∀ key, value ≠ FUInt key)
     ↔ Dyn.findMatching t "id" value = Dyn.Raised Dyn.bad_variant_access).
Proof.
  unfold Dyn.findMatching. rewrite decide_True by done.
  destruct value as [key|z|s].
  - split; split.
    + intros _. destruct (Dyn.pkIndex_ t !! key) as [slot|]; [|by eexists].
      destruct (Dyn.deleted_at t slot); by eexists.
    + intros _. by exists key.
    + intros Hne. by destruct (Hne key).
    + destruct (Dyn.pkIndex_ t !! key) as [slot|]; [|done].
      by destruct (Dyn.deleted_at t slot).
  - split; split; try done.
    + by intros [key [=]].
    + by intros [rs [=]].
  - split; split; try done.
    + by intros [key [=]].
    + by intros [rs [=]].
Qed.

(** C9, counterexample.  On the dynamic table [dropIndex("id")] does not
    return: it throws [std::runtime_error]. *)
Lemma dyn_dropIndex_id_throws :
  Dyn.dropIndex "id" Dyn.empty
  = Dyn.Throws (Dyn.runtime_error "Cannot drop index on primary key column")
               Dyn.empty.
Proof. reflexivity. Qed.

Lemma fixed_dropIndex_twice c t :
  Fixed.dropIndex c (Fixed.dropIndex c t) = Fixed.dropIndex c t.
Proof.
  unfold Fixed.dropIndex. case_decide; [done|].
  unfold Fixed.removeSecondaryIndexForColumn, Fixed.set_secondaryIndexes,
    Fixed.set_secondaryIndexedColumns. simpl. f_equal.
  - set_solver.
  - apply map_eq. intros [c' v]. rewrite !lookup_remove_column.
    by case_decide.
Qed.

Lemma dyn_dropIndex_twice column t :
  column ≠ "id" →
  ∃ t', Dyn.dropIndex column t = Dyn.Returns () t'
        ∧ Dyn.dropIndex column t' = Dyn.Returns () t'.
Proof.
  intros Hne. unfold Dyn.dropIndex. rewrite decide_False by done.
  eexists. split; [done|]. rewrite decide_False by done. f_equal.
  unfold Dyn.set_secondaryIndexes, Dyn.set_secondaryIndexedColumns. simpl.
  f_equal.
  - set_solver.
  - apply map_eq. intros [c' v]. rewrite !lookup_remove_column.
    by case_decide.
Qed.

(** C9, amended.  [dropIndex] on the primary-key column changes nothing: the
    fixed-schema table returns without effect, the dynamic table throws
    [std::runtime_error] and is left as it was.  On every other column, and
    on every column of the fixed-schema table, a second [dropIndex] in a row
    leaves the table the first one built. *)
Theorem dropIndex_primary_key_and_idempotent
    (tf : Fixed.QBTable) (td : Dyn.QBTableDynamic)
    (c : ColumnType) (column : string) :
  column ≠ "id" →
  Fixed.dropIndex COLUMN0 tf = tf
  ∧ Fixed.dropIndex c (Fixed.dropIndex c tf) = Fixed.dropIndex c tf
  ∧ Dyn.dropIndex "id" td
    = Dyn.Throws (Dyn.runtime_error "Cannot drop index on primary key column")
                 td
  ∧ ∃ td', Dyn.dropIndex column td = Dyn.Returns () td'
           ∧ Dyn.dropIndex column td' = Dyn.Returns () td'.
Proof.
  intros Hne. split; [done|]. split; [apply fixed_dropIndex_twice|].
  split; [done|]. by apply dyn_dropIndex_twice.
Qed.

Lemma dropIndex_primary_key_and_idempotent_witness :
  Fixed.dropIndex COLUMN0 (Fixed.run fixed_ops) = Fixed.run fixed_ops
  ∧ Fixed.dropIndex COLUMN2 (Fixed.dropIndex COLUMN2 (Fixed.run fixed_ops))
    = Fixed.dropIndex COLUMN2 (Fixed.run fixed_ops)
  ∧ Dyn.dropIndex "id" dyn_table
    = Dyn.Throws (Dyn.runtime_error "Cannot drop index on primary key column")
                 dyn_table
  ∧ ∃ td', Dyn.dropIndex "name" dyn_table = Dyn.Returns () td'
           ∧ Dyn.dropIndex "name" td' = Dyn.Returns () td'.
Proof.
  apply (dropIndex_primary_key_and_idempotent
           (Fixed.run fixed_ops) dyn_table COLUMN2 "name").
  intros [=].
Defined.

(** C5, counterexample.  A table holds one record, soft-deleted and not
    compacted; the hard delete of its key returns [false] and changes
    nothing. *)
Lemma hard_delete_of_soft_deleted_key_fails :
  Fixed.records_ fixed_soft_deleted = [alice]
  ∧ Fixed.deleted_ fixed_soft_deleted = [true]
  ∧ Fixed.deleteRecordByID 1 true fixed_soft_deleted
    = (false, fixed_soft_deleted).
Proof. by vm_compute. Qed.

(** C5, amended.  In every table the operations build, a hard delete of a
    key that no active record holds (its records are soft-deleted, or there
    is none) returns [false] and leaves the table unchanged: the key does
    not resolve through the primary-key index. *)
Theorem hard_delete_of_unresolved_key_fails
    (opsF : list Fixed.Op) (opsD : list Dyn.Op) (td : Dyn.QBTableDynamic)
    (k : N) :
  FixedSpec.key_free (Fixed.run opsF) k →
  Dyn.run opsD = Dyn.Returns () td →
  DynSpec.key_free td k →
  Fixed.deleteRecordByID k true (Fixed.run opsF) = (false, Fixed.run opsF)
  ∧ Dyn.deleteRecordByID k true td = Dyn.Returns false td.
Proof.
  intros HfreeF Hrun HfreeD. split.
  - unfold Fixed.deleteRecordByID.
    by rewrite key_free_lookup by (apply run_wf || done).
  - unfold Dyn.deleteRecordByID.
    rewrite dyn_key_free_lookup; [done| |done].
    by eapply DynSpec.wf_pk, dyn_run_wf.
Qed.

Lemma hard_delete_of_unresolved_key_fails_witness :
  Fixed.deleteRecordByID 2 true (Fixed.run fixed_ops)
  = (false, Fixed.run fixed_ops)
  ∧ Dyn.deleteRecordByID 2 true dyn_table = Dyn.Returns false dyn_table.
Proof.
  apply (hard_delete_of_unresolved_key_fails fixed_ops dyn_ops dyn_table 2).
  - by_computation.
  - reflexivity.
  - by_computation.
Defined.

(** C1, counterexample.  Two [addRecord] calls with the same key leave two
    active records that hold it. *)
Lemma two_active_records_share_a_key :
  FixedSpec.active_records fixed_duplicates = [alice; alice_again]
  ∧ column0 alice = column0 alice_again.
Proof. by vm_compute. Qed.

(** C1, amended.  For every sequence of calls (adds, soft and hard deletes,
    index and schema operations, compactions) in which each [addRecord]
    carries a key that no active record holds at that point, at most one
    active record holds any given primary key afterwards; the tables do not
    check the key themselves. *)
Theorem unique_keys_when_adds_are_fresh
    (opsF : list Fixed.Op) (opsD : list Dyn.Op) (td : Dyn.QBTableDynamic) :
  FixedSpec.fresh_adds_from Fixed.empty opsF →
  DynSpec.fresh_adds_from Dyn.empty opsD →
  Dyn.run opsD = Dyn.Returns () td →
  FixedSpec.unique_active_keys (Fixed.run opsF)
  ∧ DynSpec.unique_active_keys td.
Proof.
  intros HfreshF HfreshD Hrun. split.
  - apply foldl_step_unique; [apply empty_wf| |done].
    intros i j Hi. by apply not_elem_of_nil in Hi.
  - eapply dyn_for_each_step_unique; [exact Hrun|apply dyn_empty_wf|done|].
    intros i j Hi. by apply not_elem_of_nil in Hi.
Qed.

Lemma unique_keys_when_adds_are_fresh_witness :
  FixedSpec.unique_active_keys (Fixed.run fixed_ops)
  ∧ DynSpec.unique_active_keys dyn_table.
Proof.
  apply (unique_keys_when_adds_are_fresh fixed_ops dyn_ops dyn_table).
  - by_computation.
  - by_computation.
  - reflexivity.
Defined.

Lemma map_Forall_dom {V} (m : gmap string V) (S : gset string) :
  map_Forall (λ key _, key ∈ S) m ↔ dom m ⊆ S.
Proof.
  unfold map_Forall. split.
  - intros Hm k [v Hv]%elem_of_dom. by eapply Hm.
  - intros Hm k v Hv. apply Hm, elem_of_dom. by exists v.
Qed.

Lemma dyn_addRecord_returns_true r t :
  (∃ t', Dyn.addRecord r t = Dyn.Returns true t')
  ↔ dom (Dyn.fields r) ⊆ Dyn.columns_ t
    ∧ ∀ c, c ∈ Dyn.secondaryIndexedColumns_ t → DynSpec.resolves t r c.
Proof.
  assert (∀ c, DynSpec.resolves t r c
               ↔ ∃ v, Dyn.getField (DynSpec.pushed r t)
                                   (length (Dyn.records_ t)) c = Dyn.Value v)
    as Hres.
  { intros c. rewrite <- getField_resolves.
    unfold DynSpec.resolves, Dyn.record_at. simpl.
    by rewrite list_lookup_total_middle. }
  split.
  - intros [t' Hadd].
    destruct (decide (map_Forall (λ key _, key ∈ Dyn.columns_ t) (Dyn.fields r)))
      as [Hok|Hno].
    2:{ by rewrite dyn_addRecord_rejects in Hadd. }
    split; [by apply map_Forall_dom|].
    rewrite dyn_addRecord_loop in Hadd by done.
    destruct (DynSpec.index_loop _ _ _) as [[e|] m'] eqn:Hloop; [done|].
    intros c Hc. apply Hres.
    eapply get_loop_returns; [exact Hloop|].
    by apply dyn_elem_of_columns_in_order.
  - intros [Hok%map_Forall_dom Hall].
    rewrite dyn_addRecord_loop by done.
    edestruct (get_loop_ok
      (λ col, Dyn.getField (DynSpec.pushed r t) (length (Dyn.records_ t)) col))
      as [m' ->]; [|by eexists].
    intros c Hc%dyn_elem_of_columns_in_order. by apply Hres, Hall.
Qed.

(** X25.  What [addRecord] of the dynamic table checks: it returns [false]
    exactly when the record carries a field that is not a declared
    physical column, and then the table is unchanged.  A record whose
    fields are all declared, also one that lacks declared columns, passes
    the check: the call returns [true] exactly when, in addition, every
    indexed column can be evaluated on the record, and then the record is
    appended, its deleted marker is false and the primary-key index maps
    its key to the new slot. *)
Theorem dyn_addRecord_rejects_undeclared_fields_only
    (t : Dyn.QBTableDynamic) (r : Dyn.QBRecordDynamic) :
  ((∃ t', Dyn.addRecord r t = Dyn.Returns false t')
   ↔ ¬ dom (Dyn.fields r) ⊆ Dyn.columns_ t)
  ∧ (∀ t', Dyn.addRecord r t = Dyn.Returns false t' → t' = t)
  ∧ ((∃ t', Dyn.addRecord r t = Dyn.Returns true t')
     ↔ dom (Dyn.fields r) ⊆ Dyn.columns_ t
       ∧ ∀ c, c ∈ Dyn.secondaryIndexedColumns_ t → DynSpec.resolves t r c)
  ∧ (∀ t', Dyn.addRecord r t = Dyn.Returns true t' →
           Dyn.records_ t' = Dyn.records_ t ++ [r]
           ∧ Dyn.deleted_ t' = Dyn.deleted_ t ++ [false]
           ∧ Dyn.pkIndex_ t'
             = <[Dyn.id r := length (Dyn.records_ t)]> (Dyn.pkIndex_ t)).
Proof.
  assert (∀ t', Dyn.addRecord r t = Dyn.Returns false t' →
                t' = t ∧ ¬ dom (Dyn.fields r) ⊆ Dyn.columns_ t) as Hfalse.
  { intros t' Hadd.
    destruct (decide (map_Forall (λ key _, key ∈ Dyn.columns_ t) (Dyn.fields r)))
      as [Hok|Hno].
    - rewrite dyn_addRecord_loop in Hadd by done.
      by destruct (DynSpec.index_loop _ _ _) as [[e|] m'].
    - rewrite dyn_addRecord_rejects in Hadd by done. injection Hadd as <-.
      split; [done|]. by rewrite <- map_Forall_dom. }
  split; [|split; [|split]].
  - split.
    + intros [t' Hadd]. by apply Hfalse in Hadd as [_ ?].
    + intros Hno. exists t. apply dyn_addRecord_rejects.
      by rewrite map_Forall_dom.
  - intros t' Hadd. by apply Hfalse in Hadd as [? _].
  - apply dyn_addRecord_returns_true.
  - apply dyn_addRecord_store.
Qed.

Lemma count_loop (ds : list bool) (n : nat) :
  foldl (λ count (del : bool), if del then count else S count) n ds
  = n + length (filter (λ del, del = false) ds).
Proof.
  revert n. induction ds as [|del ds IH]; intros n.
  - simpl. lia.
  - rewrite filter_cons. cbn [foldl]. rewrite IH.
    destruct del; [by rewrite decide_False|].
    rewrite decide_True by done. cbn [length]. lia.
Qed.

Lemma count_after_mark (ds : list bool) (idx : nat) :
  ds !! idx = Some false →
  length (filter (λ del, del = false) ds)
  = S (length (filter (λ del, del = false) (<[idx := true]> ds))).
Proof.
  intros Hidx. pose proof (lookup_lt_Some _ _ _ Hidx) as Hlt.
  rewrite insert_take_drop by done.
  rewrite <- (take_drop_middle ds idx false Hidx) at 1.
  rewrite !filter_app, !length_app.
  rewrite filter_cons_True, filter_cons_False by done. simpl. lia.
Qed.

Lemma fixed_soft_delete_hides opsF k idx s :
  Fixed.pkIndex_ (Fixed.run opsF) !! k = Some idx →
  ec (from_chars_uint s).1 = errc_ok → (from_chars_uint s).2 = k →
  ∃ t', Fixed.deleteRecordByID k false (Fixed.run opsF) = (true, t')
        ∧ Fixed.findMatching t' COLUMN0 s = []
        ∧ Fixed.totalRecordsCount t' = Fixed.totalRecordsCount (Fixed.run opsF)
        ∧ S (Fixed.activeRecordsCount t')
          = Fixed.activeRecordsCount (Fixed.run opsF).
Proof.
  intros Hk Hec Hval. pose proof (run_wf opsF) as [Hlen Hpk _].
  destruct (Hpk k idx Hk) as [[Hlt Hd]%elem_of_active_slots _].
  exists (FixedSpec.soft_deleted k idx (Fixed.run opsF)).
  split; [by apply deleteRecordByID_soft|]. split; [|split; [done|]].
  - unfold Fixed.findMatching. rewrite decide_True by done.
    destruct (from_chars_uint s) as [r v]. simpl in *. subst v.
    rewrite decide_False by (by intros ?). by rewrite lookup_delete_eq.
  - unfold Fixed.activeRecordsCount. rewrite !count_loop. simpl.
    symmetry. apply count_after_mark.
    rewrite list_lookup_lookup_total_lt by lia. by f_equal.
Qed.

Lemma fixed_hard_delete_shrinks opsF k idx :
  Fixed.pkIndex_ (Fixed.run opsF) !! k = Some idx →
  ∃ t', Fixed.deleteRecordByID k true (Fixed.run opsF) = (true, t')
        ∧ S (Fixed.totalRecordsCount t')
          = Fixed.totalRecordsCount (Fixed.run opsF).
Proof.
  intros Hk. pose proof (run_wf opsF) as [Hlen Hpk _].
  destruct (Hpk k idx Hk) as [[Hlt Hd]%elem_of_active_slots _].
  exists (FixedSpec.hard_deleted idx (Fixed.run opsF)).
  split; [by apply deleteRecordByID_hard|].
  unfold Fixed.totalRecordsCount.
  destruct (hard_deleted_store_eq idx (Fixed.run opsF)) as [-> _].
  rewrite pop_back_length, swap_slots_length. lia.
Qed.

Lemma dyn_soft_delete_hides opsD td k idx :
  Dyn.run opsD = Dyn.Returns () td →
  Dyn.pkIndex_ td !! k = Some idx →
  ∃ t', Dyn.deleteRecordByID k false td = Dyn.Returns true t'
        ∧ Dyn.findMatching t' "id" (FUInt k) = Dyn.Value []
        ∧ Dyn.totalRecordsCount t' = Dyn.totalRecordsCount td
        ∧ S (Dyn.activeRecordsCount t') = Dyn.activeRecordsCount td.
Proof.
  intros Hrun Hk. pose proof (dyn_run_wf opsD td Hrun) as Hwf.
  destruct (DynSpec.wf_pk td Hwf k idx Hk)
    as [[Hlt Hd]%dyn_elem_of_active_slots _].
  destruct (dyn_deleteRecordByID_soft_returns k idx td Hwf Hk) as [m' Heq].
  eexists. split; [exact Heq|]. split; [|split; [done|]].
  - unfold Dyn.findMatching. rewrite decide_True by done. simpl.
    by rewrite lookup_delete_eq.
  - unfold Dyn.activeRecordsCount. simpl. symmetry. apply count_after_mark.
    rewrite list_lookup_lookup_total_lt
      by (rewrite (DynSpec.wf_length td Hwf); lia).
    by f_equal.
Qed.

Lemma dyn_hard_delete_shrinks opsD td k idx :
  Dyn.run opsD = Dyn.Returns () td →
  Dyn.pkIndex_ td !! k = Some idx →
  ∃ t', Dyn.deleteRecordByID k true td = Dyn.Returns true t'
        ∧ S (Dyn.totalRecordsCount t') = Dyn.totalRecordsCount td.
Proof.
  intros Hrun Hk. pose proof (dyn_run_wf opsD td Hrun) as Hwf.
  destruct (DynSpec.wf_pk td Hwf k idx Hk)
    as [[Hlt Hd]%dyn_elem_of_active_slots _].
  destruct (dyn_deleteRecordByID_hard_returns k idx td Hwf Hk) as [m' Heq].
  eexists. split; [exact Heq|].
  unfold Dyn.totalRecordsCount. simpl.
  rewrite pop_back_length, swap_slots_length. lia.
Qed.

(** X24.  Soft delete hides, hard delete shrinks, in every table the
    operations build without a throw: for every key [k] that resolves
    through the primary-key index, the soft delete returns [true],
    [findMatching] on the primary key for [k] (any match text that parses
    to [k]) is then empty, the total count is unchanged and the active
    count is one less; the hard delete returns [true] and the total count
    is one less at once. *)
Theorem soft_delete_hides_hard_delete_shrinks
    (opsF : list Fixed.Op) (opsD : list Dyn.Op) (td : Dyn.QBTableDynamic)
    (k : N) (idxF idxD : nat) (s : string) :
  Fixed.pkIndex_ (Fixed.run opsF) !! k = Some idxF →
  ec (from_chars_uint s).1 = errc_ok → (from_chars_uint s).2 = k →
  Dyn.run opsD = Dyn.Returns () td →
  Dyn.pkIndex_ td !! k = Some idxD →
  (∃ t', Fixed.deleteRecordByID k false (Fixed.run opsF) = (true, t')
         ∧ Fixed.findMatching t' COLUMN0 s = []
         ∧ Fixed.totalRecordsCount t' = Fixed.totalRecordsCount (Fixed.run opsF)
         ∧ S (Fixed.activeRecordsCount t')
           = Fixed.activeRecordsCount (Fixed.run opsF))
  ∧ (∃ t', Fixed.deleteRecordByID k true (Fixed.run opsF) = (true, t')
           ∧ S (Fixed.totalRecordsCount t')
             = Fixed.totalRecordsCount (Fixed.run opsF))
  ∧ (∃ t', Dyn.deleteRecordByID k false td = Dyn.Returns true t'
           ∧ Dyn.findMatching t' "id" (FUInt k) = Dyn.Value []
           ∧ Dyn.totalRecordsCount t' = Dyn.totalRecordsCount td
           ∧ S (Dyn.activeRecordsCount t') = Dyn.activeRecordsCount td)
  ∧ (∃ t', Dyn.deleteRecordByID k true td = Dyn.Returns true t'
           ∧ S (Dyn.totalRecordsCount t') = Dyn.totalRecordsCount td).
Proof.
  intros HkF Hec Hval Hrun HkD. split; [|split; [|split]].
  - by eapply fixed_soft_delete_hides.
  - by eapply fixed_hard_delete_shrinks.
  - by eapply dyn_soft_delete_hides.
  - by eapply dyn_hard_delete_shrinks.
Qed.

Lemma soft_delete_hides_hard_delete_shrinks_witness :
  (∃ t', Fixed.deleteRecordByID 1 false (Fixed.run fixed_ops) = (true, t')
         ∧ Fixed.findMatching t' COLUMN0 "1" = []
         ∧ Fixed.totalRecordsCount t'
           = Fixed.totalRecordsCount (Fixed.run fixed_ops)
         ∧ S (Fixed.activeRecordsCount t')
           = Fixed.activeRecordsCount (Fixed.run fixed_ops))
  ∧ (∃ t', Fixed.deleteRecordByID 1 true (Fixed.run fixed_ops) = (true, t')
           ∧ S (Fixed.totalRecordsCount t')
             = Fixed.totalRecordsCount (Fixed.run fixed_ops))
  ∧ (∃ t', Dyn.deleteRecordByID 1 false dyn_table = Dyn.Returns true t'
           ∧ Dyn.findMatching t' "id" (FUInt 1) = Dyn.Value []
           ∧ Dyn.totalRecordsCount t' = Dyn.totalRecordsCount dyn_table
           ∧ S (Dyn.activeRecordsCount t') = Dyn.activeRecordsCount dyn_table)
  ∧ (∃ t', Dyn.deleteRecordByID 1 true dyn_table = Dyn.Returns true t'
           ∧ S (Dyn.totalRecordsCount t') = Dyn.totalRecordsCount dyn_table).
Proof.
  apply (soft_delete_hides_hard_delete_shrinks
           fixed_ops dyn_ops dyn_table 1 0 0 "1"); reflexivity.
Defined.

(** *** Compaction *)

Lemma filter_replicate_false n :
  filter (λ del : bool, del = false) (replicate n false) = replicate n false.
Proof.
  induction n as [|n IH]; [done|]. simpl.
  by rewrite filter_cons_True, IH by done.
Qed.

Lemma fixed_pk_complete_ext t t' :
  Fixed.records_ t = Fixed.records_ t' → Fixed.deleted_ t = Fixed.deleted_ t' →
  Fixed.pkIndex_ t = Fixed.pkIndex_ t' →
  FixedSpec.pk_complete t → FixedSpec.pk_complete t'.
Proof.
  unfold FixedSpec.pk_complete, FixedSpec.active_slots, Fixed.slots,
    Fixed.record_at, Fixed.deleted_at.
  by intros -> -> ->.
Qed.

Lemma fixed_compaction_post t :
  Fixed.records_ (Fixed.compactRecords t) = FixedSpec.active_records t
  ∧ Fixed.deleted_ (Fixed.compactRecords t)
    = replicate (length (FixedSpec.active_records t)) false
  ∧ Fixed.totalRecordsCount (Fixed.compactRecords t)
    = Fixed.activeRecordsCount (Fixed.compactRecords t)
  ∧ Fixed.secondaryIndexedColumns_ (Fixed.compactRecords t)
    = Fixed.secondaryIndexedColumns_ t
  ∧ FixedSpec.pk_sound (Fixed.compactRecords t)
  ∧ FixedSpec.pk_complete (Fixed.compactRecords t)
  ∧ FixedSpec.sec_exact (Fixed.compactRecords t).
Proof.
  destruct (compactRecords_frame t) as (Hr & Hd & Hs).
  destruct (compactRecords_wf t) as [Hlen Hpk Hsec].
  assert (length (FixedSpec.active_records t)
          = length (FixedSpec.active_slots t)) as Hn
    by apply length_fmap.
  split; [done|]. split; [by rewrite Hn|]. split; [|split; [done|]].
  - unfold Fixed.totalRecordsCount, Fixed.activeRecordsCount.
    rewrite count_loop, Hr, Hd, filter_replicate_false, length_replicate.
    by rewrite Hn.
  - split; [done|]. split; [|done].
    rewrite compactRecords_eq.
    destruct (columns_fold_frame
                (Fixed.columns_in_order (Fixed.secondaryIndexedColumns_ t))
                (Fixed.set_secondaryIndexes
                   (Fixed.rebuildPrimaryKeyIndex (FixedSpec.compacted_store t)) ∅))
      as (Hr' & Hd' & Hp' & _).
    eapply (fixed_pk_complete_ext
              (Fixed.rebuildPrimaryKeyIndex (FixedSpec.compacted_store t))); [done..|].
    apply rebuildPrimaryKeyIndex_complete.
Qed.

(** The rebuild loop of one column, on top of the index [m]. *)
Lemma dyn_rebuild_fold_lookup T c0 m c v :
  (∀ i, i ∈ DynSpec.active_slots T →
        DynSpec.resolves T (Dyn.record_at T i) c0) →
  foldl (λ m i, if Dyn.deleted_at T i then m
                else push_back_bucket (c0, DynSpec.field_or_default T i c0) i m)
        m (Dyn.slots T) !! (c, v)
  = if decide (c = c0)
    then match filter (λ i, Dyn.getField T i c0 = Dyn.Value v)
                      (DynSpec.active_slots T) with
         | [] => m !! (c, v)
         | hits => Some (default [] (m !! (c, v)) ++ hits)
         end
    else m !! (c, v).
Proof.
  intros Hres.
  rewrite (push_loop_lookup _ (λ i, (c0, DynSpec.field_or_default T i c0))
                            (λ i, i)).
  destruct (decide (c = c0)) as [->|Hne].
  - unfold DynSpec.active_slots. rewrite list_filter_filter.
    match goal with
    | |- match filter ?P ?l with _ => _ end
         = match filter ?Q ?l' with _ => _ end =>
        assert (filter P l = filter Q l') as ->
    end.
    { apply filter_ext_in. intros i Hi. split.
      - intros [Hd [= Hv]]. split; [|done].
        destruct (proj1 (getField_resolves T i c0)) as [w Hw].
        { apply Hres. apply list_elem_of_filter. done. }
        unfold DynSpec.field_or_default in Hv. rewrite Hw in Hv. by subst.
      - intros [Hv Hd]. split; [done|].
        unfold DynSpec.field_or_default. by rewrite Hv. }
    destruct (filter _ _); [done|]. by rewrite list_fmap_id.
  - rewrite filter_none; [done|]. intros i _ [_ [=]]. done.
Qed.

(** The rebuild of a duplicate-free list of columns, on top of [m]. *)
Lemma dyn_rebuild_columns_lookup T cols m :
  NoDup cols →
  (∀ c i, c ∈ cols → i ∈ DynSpec.active_slots T →
          DynSpec.resolves T (Dyn.record_at T i) c) →
  ∃ M, DynSpec.index_loop (DynSpec.rebuild_columns_step T (λ _, false)) cols m
       = (None, M)
       ∧ ∀ c v, M !! (c, v)
                = if decide (c ∈ cols)
                  then match filter (λ i, Dyn.getField T i c = Dyn.Value v)
                                    (DynSpec.active_slots T) with
                       | [] => m !! (c, v)
                       | hits => Some (default [] (m !! (c, v)) ++ hits)
                       end
                  else m !! (c, v).
Proof.
  revert m. induction cols as [|c0 cols IH]; intros m Hnd Hres.
  - exists m. split; [done|]. intros c v.
    by rewrite decide_False by apply not_elem_of_nil.
  - apply NoDup_cons in Hnd as [Hc0 Hnd]. simpl.
    unfold DynSpec.rebuild_columns_step at 1.
    rewrite rebuild_loop_ok.
    2:{ intros i Hi Hd. apply Hres; [by left|].
        apply list_elem_of_filter. done. }
    edestruct IH as (M & -> & HM); [done| |].
    { intros c i Hc. apply Hres. by right. }
    exists M. split; [done|]. intros c v. rewrite HM.
    rewrite !dyn_rebuild_fold_lookup
      by (intros i Hi; apply Hres; [by left|done]).
    destruct (decide (c = c0)) as [->|Hne].
    + rewrite decide_False by done.
      by rewrite decide_True by (by left).
    + destruct (decide (c ∈ cols)) as [Hc|Hc].
      * by rewrite decide_True by (by right).
      * rewrite decide_False; [done|].
        by intros [?|?]%elem_of_cons.
Qed.

Lemma dyn_pk_complete_rebuild T m :
  DynSpec.pk_complete
    (Dyn.set_secondaryIndexes (Dyn.rebuildPrimaryIndex T) m).
Proof. apply (pk_complete_of_rebuild Dyn.id). Qed.

Lemma dyn_compaction_post opsD td :
  Dyn.run opsD = Dyn.Returns () td →
  ∃ t', Dyn.compactRecords td = Dyn.Returns () t'
        ∧ Dyn.records_ t' = DynSpec.active_records td
        ∧ Dyn.deleted_ t'
          = replicate (length (DynSpec.active_records td)) false
        ∧ Dyn.totalRecordsCount t' = Dyn.activeRecordsCount t'
        ∧ Dyn.secondaryIndexedColumns_ t' = Dyn.secondaryIndexedColumns_ td
        ∧ DynSpec.pk_sound t'
        ∧ DynSpec.pk_complete t'
        ∧ DynSpec.sec_exact t'.
Proof.
  intros Hrun. pose proof (dyn_run_wf opsD td Hrun) as [Hlen Hpk Hidx].
  assert (length (DynSpec.active_records td)
          = length (DynSpec.active_slots td)) as Hn
    by apply length_fmap.
  rewrite dyn_compactRecords_loop.
  destruct (dyn_rebuild_columns_lookup
              (Dyn.rebuildPrimaryIndex (DynSpec.compacted_store td))
              (Dyn.columns_in_order (Dyn.secondaryIndexedColumns_ td)) ∅)
    as (M & -> & HM).
  { apply dyn_columns_in_order_NoDup. }
  { intros c i Hc%dyn_elem_of_columns_in_order Hi.
    by apply (compacted_store_indexable td). }
  eexists. split; [done|]. split; [done|]. split; [by rewrite Hn|].
  split; [|split; [done|split; [|split]]].
  - unfold Dyn.totalRecordsCount, Dyn.activeRecordsCount. simpl.
    by rewrite filter_replicate_false, length_replicate, Hn.
  - apply (pk_sound_of_rebuild Dyn.id).
  - apply dyn_pk_complete_rebuild.
  - intros c v. simpl. rewrite HM, lookup_empty. unfold DynSpec.bucket_spec.
    simpl.
    destruct (decide (c ∈ Dyn.columns_in_order _)) as [Hc|Hc].
    + apply dyn_elem_of_columns_in_order in Hc. rewrite decide_True by done.
      unfold FixedSpec.bucket.
      by destruct (filter _ _).
    + rewrite dyn_elem_of_columns_in_order in Hc.
      by rewrite decide_False.
Qed.

(** *** Linear scan *)

Lemma filter_fmap {A B} (f : A → B) (P : B → Prop) `{∀ y, Decision (P y)}
    (l : list A) :
  filter P (f <$> l) = f <$> filter (λ x, P (f x)) l.
Proof.
  induction l as [|x l IH]; [done|].
  rewrite fmap_cons, !filter_cons, IH.
  destruct (decide (P (f x))); by rewrite ?fmap_cons.
Qed.

Lemma is_prefix_spec p s :
  is_prefix p s = true ↔ ∃ post, s = String.append p post.
Proof.
  revert s. induction p as [|a p IH]; intros s; simpl.
  - split; [|done]. intros _. by exists s.
  - destruct s as [|b s].
    + split; [done|]. by intros [post [=]].
    + destruct (decide (a = b)) as [->|Hne].
      * rewrite IH. split; intros [post Hpost]; exists post.
        -- by rewrite Hpost.
        -- by injection Hpost.
      * split; [done|]. intros [post [=]]. done.
Qed.

(** [contains] decides substring containment. *)
Lemma contains_spec hay needle :
  contains hay needle = true ↔ FixedSpec.is_substring needle hay.
Proof.
  unfold FixedSpec.is_substring.
  induction hay as [|a hay IH]; simpl.
  - rewrite orb_false_r, is_prefix_spec. split.
    + intros [post Hpost]. by exists "", post.
    + intros [[|b pre] [post Hpost]]; [by exists post|done].
  - rewrite orb_true_iff, is_prefix_spec, IH. split.
    + intros [[post Hpost]|(pre & post & Hpost)].
      * by exists "", post.
      * exists (String a pre), post. simpl. by rewrite Hpost.
    + intros ([|b pre] & post & Hpost).
      * left. by exists post.
      * right. exists pre, post. simpl in Hpost. by injection Hpost.
Qed.

Lemma linearScan_from_cons t c s i todo result :
  c ≠ COLUMN0 →
  Fixed.linearScan_from t c s (i :: todo) result
  = Fixed.linearScan_from t c s todo
      (if negb (Fixed.deleted_at t i)
          && FixedSpec.scan_matches c s (Fixed.record_at t i)
       then result ++ [Fixed.record_at t i] else result).
Proof.
  intros Hc. cbn [Fixed.linearScan_from].
  destruct (Fixed.deleted_at t i); [done|].
  destruct c; [done|done| |done].
  unfold FixedSpec.scan_matches.
  destruct (from_chars_long s) as [r v]. cbn [fst snd negb andb].
  by destruct (bool_decide (ec r = errc_ok)).
Qed.

Lemma linearScan_from_spec t c s todo result :
  c ≠ COLUMN0 →
  Fixed.linearScan_from t c s todo result
  = result
    ++ ((λ i, Fixed.record_at t i)
          <$> filter (λ i, Fixed.deleted_at t i = false
                           ∧ FixedSpec.scan_matches c s (Fixed.record_at t i)
                             = true)
                     todo).
Proof.
  intros Hc. revert result.
  induction todo as [|i todo IH]; intros result.
  - by rewrite filter_nil, fmap_nil, app_nil_r.
  - rewrite linearScan_from_cons, IH, filter_cons by done.
    destruct (decide (Fixed.deleted_at t i = false
                      ∧ FixedSpec.scan_matches c s (Fixed.record_at t i) = true))
      as [[Hd Hm]|Hno].
    + rewrite Hd, Hm. cbn [negb andb]. by rewrite fmap_cons, <- app_assoc.
    + destruct (Fixed.deleted_at t i); [done|].
      destruct (FixedSpec.scan_matches c s (Fixed.record_at t i)); [|done].
      by destruct Hno.
Qed.

Lemma fixed_unindexed_findMatching t c s :
  c ≠ COLUMN0 → c ∉ Fixed.secondaryIndexedColumns_ t →
  Fixed.findMatching t c s
  = filter (λ r, FixedSpec.scan_matches c s r = true)
           (FixedSpec.active_records t).
Proof.
  intros Hc Hin. unfold Fixed.findMatching.
  rewrite !decide_False by done.
  unfold Fixed.linearScan. rewrite linearScan_from_spec by done.
  rewrite app_nil_l.
  unfold FixedSpec.active_records, FixedSpec.active_slots.
  rewrite filter_fmap, list_filter_filter. f_equal.
  apply filter_ext_in. intros i _. tauto.
Qed.

Lemma dyn_unindexed_findMatching t column value :
  column ≠ "id" → Dyn.secondaryIndexes_ t !! (column, value) = None →
  Dyn.findMatching t column value
  = Dyn.Value (filter (λ r, Dyn.fields r !! column = Some value)
                      (DynSpec.active_records t)).
Proof.
  intros Hc Hnone. unfold Dyn.findMatching.
  rewrite decide_False by done. rewrite Hnone. f_equal.
  unfold DynSpec.active_records, DynSpec.active_slots.
  rewrite filter_fmap, list_filter_filter. f_equal.
  apply filter_ext_in. intros i _. tauto.
Qed.

(** X27.  What an unindexed column is scanned by.  On the fixed-schema
    table [findMatching] returns the active records, in slot order, that
    the scan matches: a text column by substring containment of the match
    text, the numeric column by equality with the number [std::from_chars]
    reads from the start of the match text (its error code alone is
    tested).  The dynamic table takes a typed value and, when the index
    holds no bucket for it, returns the active records whose stored field
    equals the value: a text field by equality of the whole text. *)
Theorem unindexed_columns_are_scanned
    (tf : Fixed.QBTable) (c : ColumnType) (s : string)
    (td : Dyn.QBTableDynamic) (column : string) (value : FieldType) :
  c ≠ COLUMN0 → c ∉ Fixed.secondaryIndexedColumns_ tf →
  column ≠ "id" → Dyn.secondaryIndexes_ td !! (column, value) = None →
  Fixed.findMatching tf c s
  = filter (λ r, FixedSpec.scan_matches c s r = true)
           (FixedSpec.active_records tf)
  ∧ (∀ r, FixedSpec.scan_matches COLUMN1 s r = true
          ↔ FixedSpec.is_substring s (column1 r))
  ∧ (∀ r, FixedSpec.scan_matches COLUMN3 s r = true
          ↔ FixedSpec.is_substring s (column3 r))
  ∧ (∀ r, FixedSpec.scan_matches COLUMN2 s r = true
          ↔ ec (from_chars_long s).1 = errc_ok
            ∧ column2 r = (from_chars_long s).2)
  ∧ Dyn.findMatching td column value
    = Dyn.Value (filter (λ r, Dyn.fields r !! column = Some value)
                        (DynSpec.active_records td)).
Proof.
  intros Hc Hin Hcol Hnone.
  split; [by apply fixed_unindexed_findMatching|].
  split; [intros r; apply contains_spec|].
  split; [intros r; apply contains_spec|].
  split; [|by apply dyn_unindexed_findMatching].
  intros r. simpl. rewrite andb_true_iff, !bool_decide_eq_true. done.
Qed.

Lemma unindexed_columns_are_scanned_witness :
  Fixed.findMatching (Fixed.run fixed_ops) COLUMN1 "aro"
  = filter (λ r, FixedSpec.scan_matches COLUMN1 "aro" r = true)
           (FixedSpec.active_records (Fixed.run fixed_ops))
  ∧ (∀ r, FixedSpec.scan_matches COLUMN1 "aro" r = true
          ↔ FixedSpec.is_substring "aro" (column1 r))
  ∧ (∀ r, FixedSpec.scan_matches COLUMN3 "aro" r = true
          ↔ FixedSpec.is_substring "aro" (column3 r))
  ∧ (∀ r, FixedSpec.scan_matches COLUMN2 "aro" r = true
          ↔ ec (from_chars_long "aro").1 = errc_ok
            ∧ column2 r = (from_chars_long "aro").2)
  ∧ Dyn.findMatching dyn_unindexed "name" (FStr "alice")
    = Dyn.Value (filter (λ r, Dyn.fields r !! "name" = Some (FStr "alice"))
                        (DynSpec.active_records dyn_unindexed)).
Proof.
  apply (unindexed_columns_are_scanned
           (Fixed.run fixed_ops) COLUMN1 "aro" dyn_unindexed "name"
           (FStr "alice")).
  - intros [=].
  - by_computation.
  - intros [=].
  - reflexivity.
Defined.

(** C3.  The table of src/Quickbase.cpp holds one record with key 123; the
    match text "123abc" returns that record, because only the error code
    of [std::from_chars] is tested.  The revision in src/unnamed/part_001
    also tests that the whole text was consumed and returns nothing. *)
Theorem findMatching_accepts_numeric_prefix :
  Fixed.findMatching (Fixed.run [Fixed.OpAddRecord carol]) COLUMN0 "123abc"
  = [carol]
  ∧ FixedRev.findMatching (Fixed.run [Fixed.OpAddRecord carol]) COLUMN0
                          "123abc"
    = [].
Proof. by vm_compute. Qed.

(** C2.  In the dynamic table an index on a derived column answers with
    the records whose computed value matches, and the linear scan that
    serves the same query once the index is dropped reads stored fields
    only and answers with nothing. *)
Theorem dyn_index_and_scan_differ_on_derived_column :
  ∃ t t', Dyn.run dyn_derived_ops = Dyn.Returns () t
          ∧ "tier" ∈ Dyn.secondaryIndexedColumns_ t
          ∧ Dyn.findMatching t "tier" (FUInt 7) = Dyn.Value [dyn_alice]
          ∧ Dyn.dropIndex "tier" t = Dyn.Returns () t'
          ∧ Dyn.findMatching t' "tier" (FUInt 7) = Dyn.Value [].
Proof.
  eexists _, _. split; [reflexivity|]. split; [|by vm_compute].
  by_computation.
Qed.

(** C4.  A table state in which the soft delete of a key that resolves to
    an active record does not return [true].  After [dyn_gap_ops] the
    record with key 7 is stored without the declared column "name";
    [createIndex("name")] throws from the rebuild and leaves the column
    marked as indexed.  On that table [deleteRecordByID(7, false)] marks
    the slot, erases the key and then throws from [getField]; the hard
    delete of key 1 throws from the rebuild after the record is removed. *)
Theorem dyn_delete_throws_after_failed_createIndex :
  ∃ t, Dyn.run dyn_gap_ops = Dyn.Returns () t
       ∧ Dyn.createIndex "name" t
         = Dyn.Throws (Dyn.runtime_error "Unknown column: name") dyn_gap_table
       ∧ Dyn.pkIndex_ dyn_gap_table !! 7%N = Some 1
       ∧ Dyn.deleted_at dyn_gap_table 1 = false
       ∧ (∃ t', Dyn.deleteRecordByID 7 false dyn_gap_table
                = Dyn.Throws (Dyn.runtime_error "Unknown column: name") t'
                ∧ Dyn.deleted_ t' = [false; true]
                ∧ Dyn.pkIndex_ t' !! 7%N = None)
       ∧ Dyn.pkIndex_ dyn_gap_table !! 1%N = Some 0
       ∧ Dyn.deleted_at dyn_gap_table 0 = false
       ∧ ∃ t', Dyn.deleteRecordByID 1 true dyn_gap_table
               = Dyn.Throws (Dyn.runtime_error "Unknown column: name") t'
               ∧ Dyn.records_ t' = [dyn_nameless].
Proof.
  eexists. split; [reflexivity|]. split; [by vm_compute|].
  split; [by vm_compute|]. split; [by vm_compute|]. split.
  { eexists. split; [by vm_compute|]. by vm_compute. }
  split; [by vm_compute|]. split; [by vm_compute|].
  eexists. split; by vm_compute.
Qed.

(** C7.  A table state on which [compactRecords] does not complete: on the
    table the failed [createIndex("name")] leaves after [dyn_gap_ops] the
    call replaces the store, rebuilds the primary-key index, clears the
    secondary index and throws from the rebuild of the column "name", with
    the bucket of the first record only. *)
Theorem dyn_compactRecords_throws_after_failed_createIndex :
  ∃ t, Dyn.run dyn_gap_ops = Dyn.Returns () t
       ∧ Dyn.createIndex "name" t
         = Dyn.Throws (Dyn.runtime_error "Unknown column: name") dyn_gap_table
       ∧ ∃ t', Dyn.compactRecords dyn_gap_table
               = Dyn.Throws (Dyn.runtime_error "Unknown column: name") t'
               ∧ Dyn.records_ t' = [dyn_alice; dyn_nameless]
               ∧ "name" ∈ Dyn.secondaryIndexedColumns_ t'
               ∧ Dyn.secondaryIndexes_ t' !! ("name", FStr "alice") = Some [0]
               ∧ DynSpec.active_records t' = [dyn_alice; dyn_nameless].
Proof.
  eexists. split; [reflexivity|]. split; [by vm_compute|].
  eexists. split; [by vm_compute|]. by_computation.
Qed.

(** C6.  The column "name" is declared.  A record without a field for it
    is accepted and stored; with an index on the column the same
    [addRecord] throws from [getField] after the record is appended and
    its key written to the primary-key index. *)
Theorem dyn_addRecord_admits_missing_column :
  (∃ t, Dyn.run [Dyn.OpAddColumn "name" (FStr "")] = Dyn.Returns () t
        ∧ Dyn.columns_ t = {["name"]}
        ∧ Dyn.fields dyn_nameless !! "name" = None
        ∧ Dyn.addRecord dyn_nameless t
          = Dyn.Returns true
              (Dyn.mkQBTableDynamic [dyn_nameless] [false] {["name"]} ∅
                                    (<[7%N := 0]> ∅) ∅ ∅))
  ∧ ∃ t, Dyn.run [Dyn.OpAddColumn "name" (FStr ""); Dyn.OpCreateIndex "name"]
         = Dyn.Returns () t
         ∧ Dyn.addRecord dyn_nameless t
           = Dyn.Throws (Dyn.runtime_error "Unknown column: name")
               (Dyn.mkQBTableDynamic [dyn_nameless] [false] {["name"]} ∅
                                     (<[7%N := 0]> ∅) {["name"]} ∅).
Proof.
  split.
  - eexists. split; [reflexivity|]. by vm_compute.
  - eexists. split; [reflexivity|]. by vm_compute.
Qed.

(** C8.  The dynamic table holds one active record whose unindexed column
    "name" is "alice": the match text "lic", a substring of it, returns
    nothing, and only the whole text returns the record, while the
    fixed-schema scan of a text column returns the record for "lic".  On
    the unindexed numeric column of the fixed-schema table the match text
    "30abc" returns the record whose value is 30. *)
Theorem dyn_scan_is_not_substring :
  (∃ t, Dyn.run [Dyn.OpAddColumn "name" (FStr ""); Dyn.OpAddRecord dyn_alice]
        = Dyn.Returns () t
        ∧ DynSpec.active_records t = [dyn_alice]
        ∧ Dyn.secondaryIndexedColumns_ t = ∅
        ∧ Dyn.fields dyn_alice !! "name" = Some (FStr "alice")
        ∧ contains "alice" "lic" = true
        ∧ Dyn.findMatching t "name" (FStr "lic") = Dyn.Value []
        ∧ Dyn.findMatching t "name" (FStr "alice") = Dyn.Value [dyn_alice])
  ∧ Fixed.findMatching (Fixed.run [Fixed.OpAddRecord alice]) COLUMN1 "lic"
    = [alice]
  ∧ column2 alice = 30%Z
  ∧ Fixed.findMatching (Fixed.run [Fixed.OpAddRecord alice]) COLUMN2 "30abc"
    = [alice].
Proof.
  split; [|by vm_compute].
  eexists. split; [reflexivity|]. by vm_compute.
Qed.

End claims.

(** * Further properties of the code *)

Section more_fixed.
Import Examples.

Lemma step_keeps_primary_key_unmarked t op :
  COLUMN0 ∉ Fixed.secondaryIndexedColumns_ t →
  COLUMN0 ∉ Fixed.secondaryIndexedColumns_ (Fixed.step t op).
Proof.
  intros Hno. destruct op as [r|k hard| |c|c]; simpl.
  - done.
  - destruct (Fixed.pkIndex_ t !! k) as [idx|] eqn:Hk.
    + destruct hard.
      * rewrite (deleteRecordByID_hard k idx) by done. simpl.
        unfold FixedSpec.hard_deleted.
        by destruct (columns_fold_frame
                       (Fixed.columns_in_order (Fixed.secondaryIndexedColumns_ t))
                       (Fixed.rebuildPrimaryKeyIndex
                          (FixedSpec.hard_deleted_store idx t)))
          as (_ & _ & _ & ->).
      * unfold Fixed.deleteRecordByID. rewrite Hk.
        by destruct (Fixed.deleted_at t idx).
    + unfold Fixed.deleteRecordByID. by rewrite Hk.
  - by destruct (compactRecords_frame t) as (_ & _ & ->).
  - unfold Fixed.createIndex. repeat case_decide; [done..|]. simpl.
    set_solver.
  - unfold Fixed.dropIndex. case_decide; [done|]. simpl. set_solver.
Qed.

Lemma run_keeps_primary_key_unmarked ops :
  COLUMN0 ∉ Fixed.secondaryIndexedColumns_ (Fixed.run ops).
Proof.
  unfold Fixed.run.
  assert (COLUMN0 ∉ Fixed.secondaryIndexedColumns_ Fixed.empty) as Hno
    by set_solver.
  revert Hno. generalize Fixed.empty.
  induction ops as [|op ops IH]; intros t Hno; [done|].
  simpl. by apply IH, step_keeps_primary_key_unmarked.
Qed.

(** The answer of the index for a key, in a consistent table. *)
Lemma indexed_lookup_records t c key :
  FixedSpec.sec_exact t → c ∈ Fixed.secondaryIndexedColumns_ t →
  match Fixed.secondaryIndexes_ t !! (c, key) with
  | None => []
  | Some bucket =>
      (λ idx, Fixed.record_at t idx)
        <$> filter (λ idx, Fixed.deleted_at t idx = false) bucket
  end
  = (λ idx, Fixed.record_at t idx)
      <$> filter (λ i, Fixed.getColumnIndexKey t i c = key)
                 (FixedSpec.active_slots t).
Proof.
  intros Hsec Hc. rewrite Hsec. unfold FixedSpec.bucket_spec.
  rewrite decide_True by done.
  destruct (filter _ (FixedSpec.active_slots t)) as [|i hits] eqn:Hhits;
    [done|]. cbn [FixedSpec.bucket]. f_equal.
  rewrite <- Hhits. unfold FixedSpec.active_slots.
  rewrite !list_filter_filter. apply filter_ext_in. intros j _. tauto.
Qed.

Lemma active_key_COLUMN2 t i v :
  i ∈ FixedSpec.active_slots t →
  Fixed.getColumnIndexKey t i COLUMN2 = FLong v
  ↔ column2 (Fixed.record_at t i) = v.
Proof.
  intros [Hlt Hd]%elem_of_active_slots. unfold Fixed.getColumnIndexKey.
  rewrite decide_False by lia. rewrite Hd. split; [by intros [=]|by intros ->].
Qed.

Lemma active_key_text t i c s :
  i ∈ FixedSpec.active_slots t → c = COLUMN1 ∨ c = COLUMN3 →
  Fixed.getColumnIndexKey t i c = FStr s
  ↔ FixedMore.index_matches c s (Fixed.record_at t i) = true.
Proof.
  intros [Hlt Hd]%elem_of_active_slots Hc. unfold Fixed.getColumnIndexKey.
  rewrite decide_False by lia. rewrite Hd.
  destruct Hc as [-> | ->]; simpl; rewrite bool_decide_eq_true;
    (split; [by intros [=]|by intros ->]).
Qed.

Lemma fixed_indexed_findMatching t c s :
  FixedSpec.wf t → c ≠ COLUMN0 → c ∈ Fixed.secondaryIndexedColumns_ t →
  Fixed.findMatching t c s
  = filter (λ r, FixedMore.index_matches c s r = true)
           (FixedSpec.active_records t).
Proof.
  intros [_ _ Hsec] Hc0 Hc. unfold Fixed.findMatching.
  rewrite decide_False, decide_True by done.
  unfold FixedSpec.active_records. rewrite filter_fmap.
  destruct c; [done| | |].
  - rewrite (indexed_lookup_records t COLUMN1) by done. f_equal.
    apply filter_ext_in. intros i Hi. apply active_key_text; auto.
  - unfold FixedMore.index_matches.
    destruct (from_chars_long s) as [r v]. cbn [fst snd].
    destruct (decide (ec r ≠ errc_ok)) as [Hec|Hec].
    + rewrite filter_none; [done|]. intros i _.
      by rewrite bool_decide_eq_false_2.
    + apply dec_stable in Hec. rewrite bool_decide_eq_true_2 by done.
      rewrite (indexed_lookup_records t COLUMN2) by done. f_equal.
      apply filter_ext_in. intros i Hi. cbn [andb].
      rewrite bool_decide_eq_true. by apply active_key_COLUMN2.
  - rewrite (indexed_lookup_records t COLUMN3) by done. f_equal.
    apply filter_ext_in. intros i Hi. apply active_key_text; auto.
Qed.

(** X4.  In every table the operations build, a query on an indexed
    secondary column returns the active records, in slot order, whose value
    equals the match text: the whole text for a text column (no substring
    search), the parsed number for the numeric column, none when the text
    does not parse. *)
Theorem indexed_columns_match_exactly
    (ops : list Fixed.Op) (c : ColumnType) (s : string) :
  c ∈ Fixed.secondaryIndexedColumns_ (Fixed.run ops) →
  Fixed.findMatching (Fixed.run ops) c s
  = filter (λ r, FixedMore.index_matches c s r = true)
           (FixedSpec.active_records (Fixed.run ops)).
Proof.
  intros Hc. apply fixed_indexed_findMatching; [apply run_wf| |done].
  intros ->. by apply (run_keeps_primary_key_unmarked ops).
Qed.

Lemma indexed_columns_match_exactly_witness :
  Fixed.findMatching (Fixed.run fixed_ops) COLUMN2 "30"
  = filter (λ r, FixedMore.index_matches COLUMN2 "30" r = true)
           (FixedSpec.active_records (Fixed.run fixed_ops)).
Proof.
  apply (indexed_columns_match_exactly fixed_ops COLUMN2 "30").
  by_computation.
Defined.

(** X3.  Index/scan equivalence on the numeric column: in every table the
    operations build in which column2 is indexed, [findMatching] on it
    returns the same records in the same order as after [dropIndex], when
    the linear scan serves the query. *)
Theorem numeric_index_agrees_with_scan (ops : list Fixed.Op) (s : string) :
  COLUMN2 ∈ Fixed.secondaryIndexedColumns_ (Fixed.run ops) →
  Fixed.findMatching (Fixed.run ops) COLUMN2 s
  = Fixed.findMatching (Fixed.dropIndex COLUMN2 (Fixed.run ops)) COLUMN2 s
  ∧ Fixed.findMatching (Fixed.dropIndex COLUMN2 (Fixed.run ops)) COLUMN2 s
    = Fixed.linearScan (Fixed.run ops) COLUMN2 s.
Proof.
  intros Hc.
  assert (Fixed.findMatching (Fixed.dropIndex COLUMN2 (Fixed.run ops)) COLUMN2 s
          = Fixed.linearScan (Fixed.run ops) COLUMN2 s) as Hscan.
  { unfold Fixed.findMatching. rewrite decide_False by done.
    rewrite decide_False.
    - unfold Fixed.linearScan. rewrite !linearScan_from_spec by done.
      unfold Fixed.dropIndex. case_decide; reflexivity.
    - unfold Fixed.dropIndex. case_decide; [done|]. simpl. set_solver. }
  split; [|done]. rewrite Hscan.
  rewrite fixed_indexed_findMatching
    by (apply run_wf || done).
  unfold Fixed.linearScan. rewrite linearScan_from_spec by done.
  rewrite app_nil_l. unfold FixedSpec.active_records, FixedSpec.active_slots.
  rewrite filter_fmap, list_filter_filter. f_equal.
  apply filter_ext_in. intros i _. unfold FixedMore.index_matches,
    FixedSpec.scan_matches. tauto.
Qed.

Lemma numeric_index_agrees_with_scan_witness :
  Fixed.findMatching (Fixed.run fixed_ops) COLUMN2 "30"
  = Fixed.findMatching (Fixed.dropIndex COLUMN2 (Fixed.run fixed_ops))
                       COLUMN2 "30"
  ∧ Fixed.findMatching (Fixed.dropIndex COLUMN2 (Fixed.run fixed_ops))
                       COLUMN2 "30"
    = Fixed.linearScan (Fixed.run fixed_ops) COLUMN2 "30".
Proof.
  apply (numeric_index_agrees_with_scan fixed_ops "30"). by_computation.
Defined.

End more_fixed.

Section fixed_operations.
Import Examples.

Lemma lookups_of_slots {A} `{Inhabited A} (l : list A) :
  (λ i, l !!! i) <$> seq 0 (length l) = l.
Proof.
  induction l as [|x l IH] using rev_ind; [done|].
  rewrite length_app, Nat.add_comm. cbn [length plus].
  rewrite seq_S, fmap_app. cbn [plus fmap list_fmap].
  rewrite lookup_total_app_r, Nat.sub_diag by lia. cbn.
  f_equal. rewrite <- IH at 2. apply list_fmap_ext.
  intros i j Hj. apply lookup_seq in Hj as [-> Hj].
  by rewrite lookup_total_app_l.
Qed.

Lemma filter_all {A} (P : A → Prop) `{∀ x, Decision (P x)} (l : list A) :
  (∀ x, x ∈ l → P x) → filter P l = l.
Proof.
  induction l as [|x l IH]; intros Hl; [done|].
  rewrite filter_cons_True by (apply Hl; left).
  f_equal. apply IH. intros y Hy. apply Hl. by right.
Qed.

Lemma active_of_all_active {A} (rs : list A) :
  active_of rs (replicate (length rs) false) = seq 0 (length rs).
Proof.
  unfold active_of. apply filter_all. intros i Hi.
  apply elem_of_seq in Hi. apply lookup_total_replicate_2. lia.
Qed.

(** A compacted table holds its active records and nothing else. *)
Lemma compacted_active_slots t :
  FixedSpec.active_slots (Fixed.compactRecords t)
  = seq 0 (length (FixedSpec.active_slots t)).
Proof.
  destruct (compactRecords_frame t) as (Hr & Hd & _).
  unfold FixedSpec.active_slots, Fixed.slots, Fixed.deleted_at.
  rewrite Hr, Hd. unfold FixedSpec.active_records. rewrite length_fmap.
  apply filter_all. intros i Hi.
  apply elem_of_seq in Hi. apply lookup_total_replicate_2. unfold FixedSpec.active_slots, Fixed.slots, Fixed.deleted_at. lia.
Qed.

Lemma compacted_active_records t :
  FixedSpec.active_records (Fixed.compactRecords t)
  = FixedSpec.active_records t.
Proof.
  unfold FixedSpec.active_records at 1. rewrite compacted_active_slots.
  destruct (compactRecords_frame t) as (Hr & _ & _).
  unfold Fixed.record_at. rewrite Hr.
  etransitivity; [|apply (lookups_of_slots (FixedSpec.active_records t))].
  by unfold FixedSpec.active_records at 3; rewrite length_fmap.
Qed.

Lemma compacted_store_twice t :
  FixedSpec.compacted_store (Fixed.compactRecords t)
  = Fixed.set_pkIndex
      (Fixed.set_secondaryIndexes (FixedSpec.compacted_store t)
         (Fixed.secondaryIndexes_ (Fixed.compactRecords t)))
      (Fixed.pkIndex_ (Fixed.compactRecords t)).
Proof.
  unfold FixedSpec.compacted_store, Fixed.set_pkIndex,
    Fixed.set_secondaryIndexes. cbn.
  rewrite compacted_active_records, compacted_active_slots, length_seq.
  by destruct (compactRecords_frame t) as (_ & _ & ->).
Qed.

Lemma compactRecords_twice t :
  Fixed.compactRecords (Fixed.compactRecords t) = Fixed.compactRecords t.
Proof.
  rewrite (compactRecords_eq (Fixed.compactRecords t)).
  rewrite compacted_store_twice.
  destruct (compactRecords_frame t) as (_ & _ & ->).
  by rewrite (compactRecords_eq t).
Qed.

Lemma table_eq (t t' : Fixed.QBTable) :
  Fixed.records_ t = Fixed.records_ t' → Fixed.deleted_ t = Fixed.deleted_ t' →
  Fixed.pkIndex_ t = Fixed.pkIndex_ t' →
  Fixed.secondaryIndexedColumns_ t = Fixed.secondaryIndexedColumns_ t' →
  Fixed.secondaryIndexes_ t = Fixed.secondaryIndexes_ t' → t = t'.
Proof. destruct t, t'; cbn; congruence. Qed.

Lemma dropIndex_createIndex t c :
  FixedSpec.wf t → c ∉ Fixed.secondaryIndexedColumns_ t →
  Fixed.dropIndex c (Fixed.createIndex c t) = t.
Proof.
  intros Hwf Hc. unfold Fixed.createIndex, Fixed.dropIndex.
  destruct (decide (c = COLUMN0)); [done|].
  rewrite decide_False by done.
  apply table_eq; cbn; try done.
  - apply set_eq. intros c'. set_solver.
  - apply map_eq. intros [c' v]. rewrite lookup_remove_column.
    case_decide as Hcc.
    + subst c'. rewrite (FixedSpec.wf_sec _ Hwf).
      unfold FixedSpec.bucket_spec. by rewrite decide_False.
    + pose proof (rebuildSecondaryIndexForColumn_lookup c
        (Fixed.set_secondaryIndexedColumns t
           ({[c]} ∪ Fixed.secondaryIndexedColumns_ t)) c' v) as Hl.
      rewrite decide_False in Hl by done. exact Hl.
Qed.

Lemma addRecord_then_find t r s :
  length (Fixed.deleted_ t) = length (Fixed.records_ t) →
  ec (from_chars_uint s).1 = errc_ok → (from_chars_uint s).2 = column0 r →
  Fixed.findMatching (Fixed.addRecord r t) COLUMN0 s = [r].
Proof.
  intros Hlen Hok Hkey. unfold Fixed.findMatching.
  rewrite decide_True by done.
  destruct (from_chars_uint s) as [cr v]. cbn in Hok, Hkey. subst v.
  rewrite decide_False by (by intros []).
  rewrite addRecord_pkIndex, lookup_insert_eq.
  unfold Fixed.deleted_at. rewrite addRecord_deleted.
  rewrite lookup_total_app_r, Hlen, Nat.sub_diag by lia. cbn.
  by rewrite addRecord_record_at_new.
Qed.

Lemma addRecord_other_keys t r s :
  FixedSpec.wf t → (from_chars_uint s).2 ≠ column0 r →
  Fixed.findMatching (Fixed.addRecord r t) COLUMN0 s
  = Fixed.findMatching t COLUMN0 s.
Proof.
  intros Hwf Hkey. unfold Fixed.findMatching.
  rewrite !decide_True by done.
  destruct (from_chars_uint s) as [cr v]. cbn in Hkey.
  case_decide; [done|].
  rewrite addRecord_pkIndex, lookup_insert_ne by done.
  destruct (Fixed.pkIndex_ t !! v) as [slot|] eqn:Hv; [|done].
  apply (FixedSpec.wf_pk _ Hwf) in Hv as [Hslot _].
  apply elem_of_active_slots in Hslot as [Hslot _].
  rewrite addRecord_record_at_old by done.
  unfold Fixed.deleted_at. rewrite addRecord_deleted.
  rewrite lookup_total_app_l; [done|].
  by rewrite (FixedSpec.wf_length _ Hwf).
Qed.

Lemma active_of_hard_perm {R} `{Inhabited R} (rs : list R) ds idx :
  length ds = length rs → idx < length rs →
  hard_origin rs idx
    <$> active_of (pop_back (swap_slots rs idx (length rs - 1)))
                  (pop_back (swap_slots ds idx (length rs - 1)))
  ≡ₚ filter (λ j, j ≠ idx) (active_of rs ds).
Proof.
  intros Hlen Hidx.
  assert (Hrs' : length (pop_back (swap_slots rs idx (length rs - 1)))
                 = length rs - 1)
    by by rewrite pop_back_length, swap_slots_length.
  apply NoDup_Permutation.
  - apply NoDup_fmap_2_strong; [|apply active_of_NoDup].
    intros j j' Hj Hj'. apply elem_of_active_of in Hj as [Hj _].
    apply elem_of_active_of in Hj' as [Hj' _]. rewrite Hrs' in Hj, Hj'.
    unfold hard_origin. repeat case_decide; lia.
  - apply NoDup_filter, active_of_NoDup.
  - intros x. rewrite list_elem_of_fmap, list_elem_of_filter. split.
    + intros (j & -> & Hj).
      pose proof (active_of_hard rs ds idx j Hlen Hidx Hj) as [Ho _].
      split; [|done]. apply elem_of_active_of in Hj as [Hj _].
      rewrite Hrs' in Hj. unfold hard_origin. case_decide; lia.
    + intros [Hx Hact]. apply elem_of_active_of in Hact as [Hxl Hxd].
      remember (if decide (x = length rs - 1) then idx else x) as j eqn:Ej.
      assert (Ho : hard_origin rs idx j = x)
        by (subst j; unfold hard_origin; repeat case_decide; lia).
      assert (Hj : j < length rs - 1) by (subst j; case_decide; lia).
      exists j. split; [done|]. apply elem_of_active_of. rewrite Hrs'.
      split; [done|]. clear Ej.
      rewrite <- Hlen. rewrite pop_swap_lookup by lia.
      rewrite Hlen. fold (hard_origin rs idx j).
      by rewrite Ho.
Qed.

Lemma soft_delete_active_records t k idx :
  FixedSpec.wf t → Fixed.pkIndex_ t !! k = Some idx →
  (Fixed.deleteRecordByID k false t).1 = true
  ∧ FixedSpec.active_records (Fixed.deleteRecordByID k false t).2
    = (λ i, Fixed.record_at t i)
        <$> filter (λ j, j ≠ idx) (FixedSpec.active_slots t).
Proof.
  intros Hwf Hk.
  destruct (FixedSpec.wf_pk _ Hwf _ _ Hk) as [Hact _].
  apply elem_of_active_slots in Hact as [_ Hdel].
  rewrite (deleteRecordByID_soft _ _ _ Hk Hdel). split; [done|]. cbn [snd].
  unfold FixedSpec.active_records.
  by rewrite soft_deleted_active_slots by apply Hwf.
Qed.

Lemma hard_delete_active_records t k idx :
  FixedSpec.wf t → Fixed.pkIndex_ t !! k = Some idx →
  (Fixed.deleteRecordByID k true t).1 = true
  ∧ FixedSpec.active_records (Fixed.deleteRecordByID k true t).2
    ≡ₚ (λ i, Fixed.record_at t i)
         <$> filter (λ j, j ≠ idx) (FixedSpec.active_slots t).
Proof.
  intros Hwf Hk.
  destruct (FixedSpec.wf_pk _ Hwf _ _ Hk) as [Hact _].
  apply elem_of_active_slots in Hact as [Hidx _].
  pose proof (FixedSpec.wf_length _ Hwf) as Hlen.
  rewrite (deleteRecordByID_hard _ _ _ Hk). split; [done|]. cbn [snd].
  destruct (hard_deleted_store_eq idx t) as [Hr Hd].
  unfold FixedSpec.active_records, FixedSpec.active_slots, Fixed.slots,
    Fixed.deleted_at, Fixed.record_at.
  rewrite Hr, Hd.
  change (filter (λ i, Fixed.deleted_ t !!! i = false)
            (seq 0 (length (Fixed.records_ t))))
    with (active_of (Fixed.records_ t) (Fixed.deleted_ t)).
  rewrite <- (active_of_hard_perm (Fixed.records_ t) (Fixed.deleted_ t) idx)
    by done.
  rewrite <- list_fmap_compose.
  match goal with
  | |- _ <$> ?l ≡ₚ _ => change l with
      (active_of (pop_back (swap_slots (Fixed.records_ t) idx
                              (length (Fixed.records_ t) - 1)))
                 (pop_back (swap_slots (Fixed.deleted_ t) idx
                              (length (Fixed.records_ t) - 1))))
  end.
  apply reflexive_eq, list_fmap_ext. intros i j Hj. apply list_elem_of_lookup_2 in Hj.
  by destruct (active_of_hard _ _ idx j Hlen Hidx Hj) as [_ ->].
Qed.





Lemma active_count t :
  length (Fixed.deleted_ t) = length (Fixed.records_ t) →
  Fixed.activeRecordsCount t = length (FixedSpec.active_records t).
Proof.
  intros Hlen. unfold Fixed.activeRecordsCount. rewrite count_loop. cbn.
  unfold FixedSpec.active_records, FixedSpec.active_slots, Fixed.slots,
    Fixed.deleted_at.
  rewrite length_fmap, <- Hlen.
  rewrite <- (lookups_of_slots (Fixed.deleted_ t)) at 1.
  by rewrite filter_fmap, length_fmap.
Qed.

Lemma step_indexed t op c :
  Fixed.isColumnIndexed (Fixed.step t op) c
  = match op with
    | Fixed.OpCreateIndex c' =>
        if decide (c = c') then true else Fixed.isColumnIndexed t c
    | Fixed.OpDropIndex c' =>
        if decide (c = c') then bool_decide (c = COLUMN0)
        else Fixed.isColumnIndexed t c
    | _ => Fixed.isColumnIndexed t c
    end.
Proof.
  unfold Fixed.isColumnIndexed.
  destruct (decide (c = COLUMN0)) as [->|Hc].
  { destruct op; try done; by case_decide. }
  destruct op as [r|k hard| |c'|c']; cbn [Fixed.step].
  - by rewrite addRecord_indexed.
  - destruct (Fixed.pkIndex_ t !! k) as [idx|] eqn:Hk.
    + destruct hard.
      * rewrite (deleteRecordByID_hard _ _ _ Hk). cbn [snd].
        unfold FixedSpec.hard_deleted.
        by destruct (columns_fold_frame
          (Fixed.columns_in_order (Fixed.secondaryIndexedColumns_ t))
          (Fixed.rebuildPrimaryKeyIndex (FixedSpec.hard_deleted_store idx t)))
          as (_ & _ & _ & ->).
      * unfold Fixed.deleteRecordByID. rewrite Hk. cbn [negb andb].
        by destruct (Fixed.deleted_at t idx).
    + unfold Fixed.deleteRecordByID. by rewrite Hk.
  - by destruct (compactRecords_frame t) as (_ & _ & ->).
  - unfold Fixed.createIndex. case_decide as Hc'.
    { subst c'. by rewrite decide_False. }
    case_decide as Hin.
    { case_decide; [subst c'|done]. by rewrite bool_decide_eq_true_2. }
    cbn. case_decide.
    + apply bool_decide_eq_true_2. set_solver.
    + apply bool_decide_ext. set_solver.
  - unfold Fixed.dropIndex. case_decide as Hc'.
    { subst c'. by rewrite decide_False. }
    cbn. rewrite (bool_decide_eq_false_2 (c = COLUMN0)) by done.
    case_decide.
    + apply bool_decide_eq_false_2. set_solver.
    + apply bool_decide_ext. set_solver.
Qed.

Lemma scan_digits_whole s acc cnt :
  (scan_digits s acc cnt).2 = cnt + String.length s →
  FixedMore.all_digits s = true.
Proof.
  revert acc cnt. induction s as [|c s IH]; intros acc cnt; [done|].
  cbn [scan_digits FixedMore.all_digits String.length].
  destruct (is_digit c); cbn [andb snd].
  - intros Hn. apply (IH (10 * acc + digit_value c)%N (S cnt)). rewrite Hn. lia.
  - lia.
Qed.

Lemma scan_digits_count s acc cnt : cnt ≤ (scan_digits s acc cnt).2.
Proof.
  revert acc cnt. induction s as [|c s IH]; intros acc cnt; cbn; [done|].
  destruct (is_digit c); cbn; [|done].
  specialize (IH (10 * acc + digit_value c)%N (S cnt)). lia.
Qed.

Lemma from_chars_uint_whole s :
  ec (from_chars_uint s).1 = errc_ok →
  ptr (from_chars_uint s).1 = String.length s →
  FixedMore.is_numeral s = true.
Proof.
  unfold from_chars_uint.
  destruct (scan_digits s 0 0) as [v n] eqn:Hs.
  case_decide as Hn; [done|]. case_decide; [|done].
  cbn. intros _ Hp. subst n.
  pose proof (scan_digits_whole s 0%N 0) as Hall. rewrite Hs in Hall.
  destruct s; [done|]. by apply Hall.
Qed.

Lemma from_chars_long_whole s :
  ec (from_chars_long s).1 = errc_ok →
  ptr (from_chars_long s).1 = String.length s →
  FixedMore.is_signed_numeral s = true.
Proof.
  assert (Hplain : ∀ u,
    ec (let '(v, n) := scan_digits u 0 0 in
        if decide (n = 0) then (mk_from_chars_result 0 invalid_argument, 0%Z)
        else if decide (Z.of_N v ≤ LONG_MAX)%Z
             then (mk_from_chars_result n errc_ok, Z.of_N v)
             else (mk_from_chars_result n result_out_of_range, 0%Z)).1
    = errc_ok →
    ptr (let '(v, n) := scan_digits u 0 0 in
        if decide (n = 0) then (mk_from_chars_result 0 invalid_argument, 0%Z)
        else if decide (Z.of_N v ≤ LONG_MAX)%Z
             then (mk_from_chars_result n errc_ok, Z.of_N v)
             else (mk_from_chars_result n result_out_of_range, 0%Z)).1
    = String.length u →
    FixedMore.is_numeral u = true).
  { intros u. destruct (scan_digits u 0 0) as [v n] eqn:Hs.
    case_decide as Hn; [done|]. case_decide; [|done].
    cbn. intros _ Hp. subst n.
    pose proof (scan_digits_whole u 0%N 0) as Hall. rewrite Hs in Hall.
    destruct u; [done|]. by apply Hall. }
  destruct s as [|c s]; [by apply Hplain|].
  destruct c as [[] [] [] [] [] [] [] []];
    try (cbn [from_chars_long FixedMore.is_signed_numeral];
         intros Hok Hp; apply Hplain; [exact Hok|exact Hp]).
  cbn [from_chars_long FixedMore.is_signed_numeral].
  destruct (scan_digits s 0 0) as [v n] eqn:Hs.
  case_decide as Hn; [done|]. case_decide; [|done].
  cbn. intros _ [= Hp]. subst n.
  pose proof (scan_digits_whole s 0%N 0) as Hall. rewrite Hs in Hall.
  destruct s; [done|]. by apply Hall.
Qed.

Lemma rev_linearScan_from_unparsed t s todo :
  FixedMore.is_signed_numeral s = false →
  FixedRev.linearScan_from t COLUMN2 s todo [] = [].
Proof.
  intros Hs. induction todo as [|i todo IH]; [done|].
  cbn [FixedRev.linearScan_from].
  destruct (Fixed.deleted_at t i); [done|].
  destruct (from_chars_long s) as [cr v] eqn:Hp.
  destruct (bool_decide (ec cr ≠ errc_ok)
            || bool_decide (ptr cr ≠ String.length s)) eqn:Hb; [done|].
  apply orb_false_iff in Hb as [Hec Hptr].
  apply bool_decide_eq_false in Hec, Hptr.
  apply dec_stable in Hec, Hptr.
  pose proof (from_chars_long_whole s) as Hw. rewrite Hp in Hw.
  rewrite Hw in Hs; done.
Qed.

Lemma rev_findMatching_unparsed_key t s :
  FixedMore.is_numeral s = false → FixedRev.findMatching t COLUMN0 s = [].
Proof.
  intros Hs. unfold FixedRev.findMatching. rewrite decide_True by done.
  destruct (from_chars_uint s) as [cr v] eqn:Hp.
  destruct (bool_decide (ec cr ≠ errc_ok)
            || bool_decide (ptr cr ≠ String.length s)) eqn:Hb; [done|].
  apply orb_false_iff in Hb as [Hec Hptr].
  apply bool_decide_eq_false in Hec, Hptr.
  apply dec_stable in Hec, Hptr.
  pose proof (from_chars_uint_whole s) as Hw. rewrite Hp in Hw.
  rewrite Hw in Hs; done.
Qed.

Lemma rev_findMatching_unparsed_number t s :
  FixedMore.is_signed_numeral s = false →
  FixedRev.findMatching t COLUMN2 s = [].
Proof.
  intros Hs. unfold FixedRev.findMatching. rewrite decide_False by done.
  case_decide.
  - destruct (from_chars_long s) as [cr v] eqn:Hp.
    destruct (bool_decide (ec cr ≠ errc_ok)
              || bool_decide (ptr cr ≠ String.length s)) eqn:Hb; [done|].
    apply orb_false_iff in Hb as [Hec Hptr].
    apply bool_decide_eq_false in Hec, Hptr.
    apply dec_stable in Hec, Hptr.
    pose proof (from_chars_long_whole s) as Hw. rewrite Hp in Hw.
    rewrite Hw in Hs; done.
  - by apply rev_linearScan_from_unparsed.
Qed.


Lemma stringToColumnType_name c :
  QuickbaseHpp.stringToColumnType (FixedMore.column_name c) = Some c.
Proof. by destruct c. Qed.

Lemma stringToColumnType_Some name c :
  QuickbaseHpp.stringToColumnType name = Some c → name = FixedMore.column_name c.
Proof.
  unfold QuickbaseHpp.stringToColumnType.
  repeat case_decide; intros [= <-]; done.
Qed.

Lemma by_name_stringToColumnType_name c :
  Fixed.stringToColumnType (FixedMore.column_name c) = None.
Proof. by destruct c. Qed.

Lemma adds_store rs t :
  Fixed.records_ (foldl Fixed.step t (Fixed.OpAddRecord <$> rs))
  = Fixed.records_ t ++ rs
  ∧ Fixed.deleted_ (foldl Fixed.step t (Fixed.OpAddRecord <$> rs))
    = Fixed.deleted_ t ++ replicate (length rs) false
  ∧ Fixed.secondaryIndexedColumns_
      (foldl Fixed.step t (Fixed.OpAddRecord <$> rs))
    = Fixed.secondaryIndexedColumns_ t.
Proof.
  revert t. induction rs as [|r rs IH]; intros t.
  { cbn. by rewrite !app_nil_r. }
  rewrite fmap_cons. cbn [foldl Fixed.step].
  destruct (IH (Fixed.addRecord r t)) as (-> & -> & ->).
  rewrite addRecord_records, addRecord_deleted, addRecord_indexed.
  cbn. by rewrite <- !app_assoc.
Qed.

Lemma adds_active_records rs :
  FixedSpec.active_records (Fixed.run (Fixed.OpAddRecord <$> rs)) = rs.
Proof.
  unfold FixedSpec.active_records, FixedSpec.active_slots, Fixed.slots,
    Fixed.deleted_at, Fixed.record_at, Fixed.run.
  destruct (adds_store rs Fixed.empty) as (-> & -> & _). cbn.
  rewrite filter_all.
  - apply lookups_of_slots.
  - intros i Hi. apply elem_of_seq in Hi.
    apply lookup_total_replicate_2. lia.
Qed.

Lemma copy_if_total pred (p : QBRecord → bool) rs result :
  (∀ r, pred r = Some (p r)) →
  Baseline.copy_if pred rs result
  = Some (result ++ filter (λ r, p r = true) rs).
Proof.
  intros Hp. revert result. induction rs as [|r rs IH]; intros result.
  { cbn. by rewrite app_nil_r. }
  cbn [Baseline.copy_if]. rewrite Hp, IH, filter_cons.
  destruct (p r); cbn.
  - by rewrite <- app_assoc.
  - done.
Qed.

Lemma adds_indexed rs :
  Fixed.secondaryIndexedColumns_ (Fixed.run (Fixed.OpAddRecord <$> rs)) = ∅.
Proof. unfold Fixed.run. by destruct (adds_store rs Fixed.empty) as (_ & _ & ->). Qed.

Lemma scan_digits_all s acc cnt :
  FixedMore.all_digits s = true →
  (scan_digits s acc cnt).2 = cnt + String.length s.
Proof.
  revert acc cnt. induction s as [|c s IH]; intros acc cnt; cbn; [lia|].
  destruct (is_digit c); [|done]. cbn. intros Hs.
  rewrite IH by done. lia.
Qed.

Lemma rev_findMatching_key t s :
  FixedMore.is_numeral s = true → ec (from_chars_uint s).1 = errc_ok →
  FixedRev.findMatching t COLUMN0 s
  = match Fixed.pkIndex_ t !! (from_chars_uint s).2 with
    | None => []
    | Some slot => [Fixed.record_at t slot]
    end.
Proof.
  intros Hs Hok. unfold FixedRev.findMatching. rewrite decide_True by done.
  assert (ptr (from_chars_uint s).1 = String.length s) as Hptr.
  { revert Hok. unfold from_chars_uint.
    pose proof (scan_digits_all s 0%N 0) as Hall.
    destruct (scan_digits s 0 0) as [v n].
    repeat case_decide; try done. intros _. cbn in *. apply Hall.
    by destruct s. }
  destruct (from_chars_uint s) as [cr v]. cbn in *.
  rewrite bool_decide_eq_false_2 by (by intros []).
  by rewrite bool_decide_eq_false_2 by (by intros []).
Qed.

Lemma active_column_value t i c :
  i ∈ FixedSpec.active_slots t →
  Fixed.getColumnIndexKey t i c
  = FixedMore.column_value c (Fixed.record_at t i).
Proof.
  intros [Hi Hd]%elem_of_active_slots. unfold Fixed.getColumnIndexKey.
  rewrite decide_False by lia. rewrite Hd. by destruct c.
Qed.

Lemma sec_exact_index_exact t :
  FixedSpec.sec_exact t → FixedMore.index_exact t.
Proof.
  intros Hsec c v. rewrite Hsec. unfold FixedSpec.bucket_spec.
  case_decide; [|done]. f_equal. apply filter_ext_in.
  intros i Hi. by rewrite active_column_value.
Qed.

(** X1.  The fixed-schema table stays consistent under every sequence of
    public operations: the deleted markers run parallel to the records,
    every entry of the primary-key index points to an active slot that
    holds the key, the secondary index holds under every indexed column and
    value exactly the active slots whose record has that value in that
    column, in ascending order, and nothing for a column that is not
    indexed, and the primary-key column is never marked as a secondary
    index. *)
Theorem fixed_table_stays_consistent (ops : list Fixed.Op) :
  length (Fixed.deleted_ (Fixed.run ops)) = length (Fixed.records_ (Fixed.run ops))
  ∧ FixedSpec.pk_sound (Fixed.run ops)
  ∧ FixedMore.index_exact (Fixed.run ops)
  ∧ COLUMN0 ∉ Fixed.secondaryIndexedColumns_ (Fixed.run ops).
Proof.
  destruct (run_wf ops) as [Hlen Hpk Hsec].
  split; [done|]. split; [done|]. split; [by apply sec_exact_index_exact|].
  apply run_keeps_primary_key_unmarked.
Qed.

(** X5.  Round trip of the index operations: creating an index on a column
    that is not indexed and dropping it again restores the table, in every
    state the operations build. *)
Theorem createIndex_then_dropIndex_restores
    (ops : list Fixed.Op) (c : ColumnType) :
  c ∉ Fixed.secondaryIndexedColumns_ (Fixed.run ops) →
  Fixed.dropIndex c (Fixed.createIndex c (Fixed.run ops)) = Fixed.run ops.
Proof. apply dropIndex_createIndex, run_wf. Qed.

Lemma createIndex_then_dropIndex_restores_witness :
  Fixed.dropIndex COLUMN1 (Fixed.createIndex COLUMN1 (Fixed.run fixed_ops))
  = Fixed.run fixed_ops.
Proof.
  apply (createIndex_then_dropIndex_restores fixed_ops COLUMN1).
  by_computation.
Defined.

(** X6.  Compaction is idempotent and keeps the active records in their
    order: compacting a compacted table changes nothing. *)
Theorem compactRecords_idempotent (t : Fixed.QBTable) :
  Fixed.compactRecords (Fixed.compactRecords t) = Fixed.compactRecords t
  ∧ FixedSpec.active_records (Fixed.compactRecords t)
    = FixedSpec.active_records t.
Proof. split; [apply compactRecords_twice|apply compacted_active_records]. Qed.

(** X7.  A record just added is the one a query by its key returns, also
    when an older active record holds the same key; queries by any other
    key return what they returned before. *)
Theorem added_record_is_found_by_key
    (ops : list Fixed.Op) (r : QBRecord) (s : string) :
  ec (from_chars_uint s).1 = errc_ok → (from_chars_uint s).2 = column0 r →
  Fixed.findMatching (Fixed.addRecord r (Fixed.run ops)) COLUMN0 s = [r]
  ∧ ∀ s', (from_chars_uint s').2 ≠ column0 r →
          Fixed.findMatching (Fixed.addRecord r (Fixed.run ops)) COLUMN0 s'
          = Fixed.findMatching (Fixed.run ops) COLUMN0 s'.
Proof.
  intros Hok Hkey. split.
  - apply addRecord_then_find; [apply run_wf|done..].
  - intros s' Hs'. apply addRecord_other_keys; [apply run_wf|done].
Qed.

Lemma added_record_is_found_by_key_witness :
  Fixed.findMatching (Fixed.addRecord alice_again (Fixed.run fixed_ops))
                     COLUMN0 "1"
  = [alice_again]
  ∧ ∀ s', (from_chars_uint s').2 ≠ column0 alice_again →
          Fixed.findMatching (Fixed.addRecord alice_again (Fixed.run fixed_ops))
                             COLUMN0 s'
          = Fixed.findMatching (Fixed.run fixed_ops) COLUMN0 s'.
Proof.
  apply (added_record_is_found_by_key fixed_ops alice_again "1");
    by_computation.
Defined.

(** X8.  A delete of a key that resolves removes exactly the record the
    primary-key index points to, which holds the key: the soft delete keeps
    the other active records in their order, the hard delete keeps them up
    to order (the last record moves into the freed slot). *)
Theorem delete_removes_exactly_one_record
    (ops : list Fixed.Op) (k : N) (idx : nat) :
  Fixed.pkIndex_ (Fixed.run ops) !! k = Some idx →
  column0 (Fixed.record_at (Fixed.run ops) idx) = k
  ∧ idx ∈ FixedSpec.active_slots (Fixed.run ops)
  ∧ (Fixed.deleteRecordByID k false (Fixed.run ops)).1 = true
  ∧ FixedSpec.active_records (Fixed.deleteRecordByID k false (Fixed.run ops)).2
    = (λ i, Fixed.record_at (Fixed.run ops) i)
        <$> filter (λ j, j ≠ idx) (FixedSpec.active_slots (Fixed.run ops))
  ∧ (Fixed.deleteRecordByID k true (Fixed.run ops)).1 = true
  ∧ FixedSpec.active_records (Fixed.deleteRecordByID k true (Fixed.run ops)).2
    ≡ₚ (λ i, Fixed.record_at (Fixed.run ops) i)
         <$> filter (λ j, j ≠ idx) (FixedSpec.active_slots (Fixed.run ops)).
Proof.
  intros Hk. pose proof (run_wf ops) as Hwf.
  destruct (FixedSpec.wf_pk _ Hwf _ _ Hk) as [Hact Hkey].
  destruct (soft_delete_active_records _ _ _ Hwf Hk) as [Hs1 Hs2].
  destruct (hard_delete_active_records _ _ _ Hwf Hk) as [Hh1 Hh2].
  done.
Qed.

Lemma delete_removes_exactly_one_record_witness :
  column0 (Fixed.record_at (Fixed.run fixed_ops) 2) = 123%N
  ∧ 2 ∈ FixedSpec.active_slots (Fixed.run fixed_ops)
  ∧ (Fixed.deleteRecordByID 123 false (Fixed.run fixed_ops)).1 = true
  ∧ FixedSpec.active_records
      (Fixed.deleteRecordByID 123 false (Fixed.run fixed_ops)).2
    = (λ i, Fixed.record_at (Fixed.run fixed_ops) i)
        <$> filter (λ j, j ≠ 2) (FixedSpec.active_slots (Fixed.run fixed_ops))
  ∧ (Fixed.deleteRecordByID 123 true (Fixed.run fixed_ops)).1 = true
  ∧ FixedSpec.active_records
      (Fixed.deleteRecordByID 123 true (Fixed.run fixed_ops)).2
    ≡ₚ (λ i, Fixed.record_at (Fixed.run fixed_ops) i)
         <$> filter (λ j, j ≠ 2) (FixedSpec.active_slots (Fixed.run fixed_ops)).
Proof.
  apply (delete_removes_exactly_one_record fixed_ops 123%N 2).
  by_computation.
Defined.

(** X9.  The revised query path consumes the whole match text: on the
    primary-key column a text that is not a decimal numeral (empty, or with
    any character that is not a digit) returns no record, and a numeral in
    range is looked up in the primary-key index; on the numeric column a
    text that is not a numeral with an optional minus sign returns no
    record, with or without an index. *)
Theorem revision_rejects_partly_numeric_text (t : Fixed.QBTable) (s : string) :
  (FixedMore.is_numeral s = false → FixedRev.findMatching t COLUMN0 s = [])
  ∧ (FixedMore.is_numeral s = true → ec (from_chars_uint s).1 = errc_ok →
     FixedRev.findMatching t COLUMN0 s
     = match Fixed.pkIndex_ t !! (from_chars_uint s).2 with
       | None => []
       | Some slot => [Fixed.record_at t slot]
       end)
  ∧ (FixedMore.is_signed_numeral s = false →
     FixedRev.findMatching t COLUMN2 s = []).
Proof.
  split; [|split].
  - apply rev_findMatching_unparsed_key.
  - apply rev_findMatching_key.
  - apply rev_findMatching_unparsed_number.
Qed.

(** X10.  [stringToColumnType] of src/Quickbase.hpp and the documented
    column names are inverse to each other: a documented name converts to
    its column, and nothing else converts to a column. *)
Theorem stringToColumnType_round_trip (name : string) (c : ColumnType) :
  QuickbaseHpp.stringToColumnType (FixedMore.column_name c) = Some c
  ∧ (QuickbaseHpp.stringToColumnType name = Some c
     ↔ name = FixedMore.column_name c)
  ∧ ((∀ c', name ≠ FixedMore.column_name c') →
     QuickbaseHpp.stringToColumnType name = None).
Proof.
  split; [apply stringToColumnType_name|]. split.
  - split; [apply stringToColumnType_Some|].
    intros ->. apply stringToColumnType_name.
  - intros Hname.
    destruct (QuickbaseHpp.stringToColumnType name) as [c'|] eqn:Hc'; [|done].
    by apply stringToColumnType_Some, Hname in Hc'.
Qed.



(** X14.  Which columns are indexed changes only by [createIndex] and
    [dropIndex], and only for the column named: adding, deleting and
    compacting leave [isColumnIndexed] as it was, and the primary-key
    column always reports an index. *)
Theorem index_set_changes_only_by_create_and_drop
    (t : Fixed.QBTable) (op : Fixed.Op) (c : ColumnType) :
  Fixed.isColumnIndexed (Fixed.step t op) c
  = match op with
    | Fixed.OpCreateIndex c' =>
        if decide (c = c') then true else Fixed.isColumnIndexed t c
    | Fixed.OpDropIndex c' =>
        if decide (c = c') then bool_decide (c = COLUMN0)
        else Fixed.isColumnIndexed t c
    | _ => Fixed.isColumnIndexed t c
    end.
Proof. apply step_indexed. Qed.

(** X15.  The table agrees with the reference implementation of main.cpp
    on the text columns, as the benchmark compares them: after the records
    are added to an empty table, [findMatching] on column1 or column3
    returns what [QBFindMatchingRecords] returns on the same records under
    the name of the column, in the same order. *)
Theorem table_agrees_with_reference_on_text_columns
    (stoul : string → option N) (stol : string → option Z)
    (records : list QBRecord) (c : ColumnType) (matchString : string) :
  c = COLUMN1 ∨ c = COLUMN3 →
  Baseline.QBFindMatchingRecords stoul stol records
                                 (FixedMore.column_name c) matchString
  = Some (Fixed.findMatching (Fixed.run (Fixed.OpAddRecord <$> records))
                             c matchString).
Proof.
  intros Hc. unfold Baseline.QBFindMatchingRecords.
  rewrite fixed_unindexed_findMatching, adds_active_records.
  - destruct Hc as [-> | ->].
    + by rewrite (copy_if_total _ (λ r, contains (column1 r) matchString)).
    + by rewrite (copy_if_total _ (λ r, contains (column3 r) matchString)).
  - by destruct Hc as [-> | ->].
  - rewrite adds_indexed. set_solver.
Qed.

Lemma table_agrees_with_reference_on_text_columns_witness :
  Baseline.QBFindMatchingRecords (λ _, None) (λ _, None) [alice; bob; carol]
                                 (FixedMore.column_name COLUMN1) "a"
  = Some (Fixed.findMatching
            (Fixed.run (Fixed.OpAddRecord <$> [alice; bob; carol]))
            COLUMN1 "a").
Proof.
  apply (table_agrees_with_reference_on_text_columns
           (λ _, None) (λ _, None) [alice; bob; carol] COLUMN1 "a").
  by_computation.
Defined.

Lemma by_name_stringToColumnType_Some name c :
  Fixed.stringToColumnType name = Some c →
  8 ≤ String.length name ∧ is_prefix (FixedMore.column_name c) name = true.
Proof.
  unfold Fixed.stringToColumnType.
  destruct (bool_decide (String.length name ≤ 7)) eqn:Hlen; [done|].
  destruct (bool_decide (String.substring 0 6 name ≠ "column")) eqn:Hpre;
    [done|].
  apply bool_decide_eq_false in Hlen, Hpre. apply dec_stable in Hpre.
  cbn [orb]. intros Hget. split; [lia|].
  destruct name as [|a1 [|a2 [|a3 [|a4 [|a5 [|a6 [|a7 rest]]]]]]];
    try (cbn in Hlen; lia).
  injection Hpre as -> -> -> -> -> ->.
  revert Hget. cbn [String.get].
  destruct a7 as [[] [] [] [] [] [] [] []]; try done;
    by intros [= <-]; vm_compute.
Qed.

Lemma by_name_stringToColumnType_prefix name c :
  8 ≤ String.length name → is_prefix (FixedMore.column_name c) name = true →
  Fixed.stringToColumnType name = Some c.
Proof.
  intros Hlen [post ->]%is_prefix_spec.
  unfold Fixed.stringToColumnType.
  rewrite bool_decide_eq_false_2 by lia.
  by destruct c.
Qed.

(** X11.  The overload of [findMatching] that takes a column name resolves
    the name with a [stringToColumnType] that accepts it exactly when it has
    eight characters or more and starts with a documented column name.  The
    documented names themselves, seven characters long, are rejected, so a
    query by a documented name returns no record whatever the table holds;
    a longer name with such a prefix is answered as the typed query. *)
Theorem by_name_query_needs_longer_name
    (t : Fixed.QBTable) (name : string) (c : ColumnType) (s : string) :
  (Fixed.stringToColumnType name = Some c
   ↔ 8 ≤ String.length name
     ∧ is_prefix (FixedMore.column_name c) name = true)
  ∧ Fixed.stringToColumnType (FixedMore.column_name c) = None
  ∧ Fixed.findMatching_by_name t (FixedMore.column_name c) s = []
  ∧ (Fixed.stringToColumnType name = Some c →
     Fixed.findMatching_by_name t name s = Fixed.findMatching t c s)
  ∧ (Fixed.stringToColumnType name = None →
     Fixed.findMatching_by_name t name s = []).
Proof.
  split; [split|split; [|split; [|split]]].
  - apply by_name_stringToColumnType_Some.
  - intros [Hlen Hpre]. by apply by_name_stringToColumnType_prefix.
  - apply by_name_stringToColumnType_name.
  - unfold Fixed.findMatching_by_name. by rewrite by_name_stringToColumnType_name.
  - intros Hc. unfold Fixed.findMatching_by_name. by rewrite Hc.
  - intros Hc. unfold Fixed.findMatching_by_name. by rewrite Hc.
Qed.

End fixed_operations.

(** ** The dynamic-schema table *)

Section dyn_operations.
Import Examples.

Lemma active_of_length {R} (rs : list R) (ds : list bool) :
  length ds = length rs →
  length (active_of rs ds) = length (filter (λ del : bool, del = false) ds).
Proof.
  intros Hlen. unfold active_of. rewrite <- Hlen.
  transitivity (length (filter (λ del : bool, del = false)
                          ((λ i, ds !!! i) <$> seq 0 (length ds)))).
  - by rewrite filter_fmap, length_fmap.
  - by rewrite lookups_of_slots.
Qed.

(** X2.  The dynamic table stays consistent under every sequence of public
    operations none of which throws: the deleted markers run parallel to
    the records, every entry of the primary-key index points to an active
    slot that holds the key, and every indexed column can be evaluated on
    every active record, so that no rebuild of an index can throw. *)
Theorem dyn_table_stays_consistent
    (ops : list Dyn.Op) (t : Dyn.QBTableDynamic) :
  Dyn.run ops = Dyn.Returns () t → DynSpec.wf t.
Proof. apply dyn_run_wf. Qed.

Lemma dyn_table_stays_consistent_witness : DynSpec.wf dyn_table.
Proof.
  apply (dyn_table_stays_consistent dyn_ops dyn_table). by_computation.
Defined.

(** X13.  The counters agree with the store in every table the operations
    build (the dynamic one without a throw): [activeRecordsCount] is the number of records whose deleted
    marker is false, and it never exceeds [totalRecordsCount]. *)
Theorem counts_agree_with_the_store
    (opsF : list Fixed.Op) (opsD : list Dyn.Op) (td : Dyn.QBTableDynamic) :
  Dyn.run opsD = Dyn.Returns () td →
  Fixed.activeRecordsCount (Fixed.run opsF)
  = length (FixedSpec.active_records (Fixed.run opsF))
  ∧ Fixed.activeRecordsCount (Fixed.run opsF)
    ≤ Fixed.totalRecordsCount (Fixed.run opsF)
  ∧ Dyn.activeRecordsCount td = length (DynSpec.active_records td)
  ∧ Dyn.activeRecordsCount td ≤ Dyn.totalRecordsCount td.
Proof.
  intros Hrun. pose proof (run_wf opsF) as [HlenF _ _].
  pose proof (dyn_run_wf _ _ Hrun) as [HlenD _ _].
  assert (Fixed.activeRecordsCount (Fixed.run opsF)
          = length (FixedSpec.active_records (Fixed.run opsF))) as HF
    by by apply active_count.
  assert (Dyn.activeRecordsCount td = length (DynSpec.active_records td))
    as HD.
  { unfold Dyn.activeRecordsCount, DynSpec.active_records.
    rewrite length_fmap. symmetry.
    by apply (active_of_length (Dyn.records_ td)). }
  split; [done|]. split; [|split; [done|]].
  - rewrite HF. unfold FixedSpec.active_records, FixedSpec.active_slots,
      Fixed.totalRecordsCount, Fixed.slots.
    rewrite length_fmap. etransitivity; [apply length_filter|].
    by rewrite length_seq.
  - rewrite HD. unfold DynSpec.active_records, DynSpec.active_slots,
      Dyn.totalRecordsCount, Dyn.slots.
    rewrite length_fmap. etransitivity; [apply length_filter|].
    by rewrite length_seq.
Qed.

Lemma counts_agree_with_the_store_witness :
  Fixed.activeRecordsCount (Fixed.run fixed_ops)
  = length (FixedSpec.active_records (Fixed.run fixed_ops))
  ∧ Fixed.activeRecordsCount (Fixed.run fixed_ops)
    ≤ Fixed.totalRecordsCount (Fixed.run fixed_ops)
  ∧ Dyn.activeRecordsCount dyn_table
    = length (DynSpec.active_records dyn_table)
  ∧ Dyn.activeRecordsCount dyn_table ≤ Dyn.totalRecordsCount dyn_table.
Proof.
  apply (counts_agree_with_the_store fixed_ops dyn_ops dyn_table).
  by_computation.
Defined.

Lemma get_loop_throws {I} (g : I → Dyn.result FieldType) h (l : list I)
    m e m' :
  DynSpec.index_loop (DynSpec.get_step g h) l m = (Some e, m') →
  ∃ i, i ∈ l ∧ g i = Dyn.Raised e.
Proof.
  revert m. induction l as [|i l IH]; intros m Hloop; [done|].
  cbn [DynSpec.index_loop] in Hloop. unfold DynSpec.get_step at 1 in Hloop.
  destruct (g i) as [v|e'] eqn:Hg.
  - destruct (IH _ Hloop) as (j & Hj & Hgj). exists j. split; [by right|done].
  - injection Hloop as <- <-. exists i. split; [by left|done].
Qed.

Lemma getField_raised t i c e :
  Dyn.getField t i c = Dyn.Raised e →
  e = Dyn.runtime_error ("Unknown column: " +:+ c)
  ∧ ¬ DynSpec.resolves t (Dyn.record_at t i) c.
Proof.
  intros Hget. split.
  - revert Hget. unfold Dyn.getField.
    destruct (Dyn.fields (Dyn.record_at t i) !! c); [done|].
    destruct (Dyn.derivedColumns_ t !! c); [done|]. by intros [= <-].
  - intros [v Hv]%getField_resolves. by rewrite Hv in Hget.
Qed.

Lemma pushed_resolves r t c :
  DynSpec.resolves (DynSpec.pushed r t)
    (Dyn.record_at (DynSpec.pushed r t) (length (Dyn.records_ t))) c
  ↔ DynSpec.resolves t r c.
Proof.
  unfold DynSpec.resolves, Dyn.record_at. simpl.
  by rewrite list_lookup_total_middle.
Qed.

Lemma dyn_addRecord_throws r t e t' :
  Dyn.addRecord r t = Dyn.Throws e t' →
  dom (Dyn.fields r) ⊆ Dyn.columns_ t
  ∧ (∃ c, c ∈ Dyn.secondaryIndexedColumns_ t
          ∧ ¬ DynSpec.resolves t r c
          ∧ e = Dyn.runtime_error ("Unknown column: " +:+ c))
  ∧ Dyn.records_ t' = Dyn.records_ t ++ [r]
  ∧ Dyn.deleted_ t' = Dyn.deleted_ t ++ [false]
  ∧ Dyn.pkIndex_ t' = <[Dyn.id r := length (Dyn.records_ t)]> (Dyn.pkIndex_ t).
Proof.
  intros Hadd.
  destruct (decide (map_Forall (λ key _, key ∈ Dyn.columns_ t) (Dyn.fields r)))
    as [Hok|Hno].
  2:{ by rewrite dyn_addRecord_rejects in Hadd. }
  split; [by apply map_Forall_dom|].
  rewrite dyn_addRecord_loop in Hadd by done.
  destruct (DynSpec.index_loop _ _ _) as [[e'|] m'] eqn:Hloop; [|done].
  injection Hadd as <- <-. split; [|done].
  apply get_loop_throws in Hloop as (c & Hc & Hget).
  apply getField_raised in Hget as [-> Hres].
  exists c. split; [by apply dyn_elem_of_columns_in_order|]. split; [|done].
  by rewrite <- pushed_resolves.
Qed.

(** X16.  [addRecord] of the dynamic table is not exception safe: it throws
    exactly when every field of the record is declared and some indexed
    column can be evaluated on the record neither as a field nor as a
    derived column; the exception names such a column, and the table is
    left with the record appended and its key in the primary-key index. *)
Theorem dyn_addRecord_throws_after_appending
    (t : Dyn.QBTableDynamic) (r : Dyn.QBRecordDynamic) :
  ((∃ e t', Dyn.addRecord r t = Dyn.Throws e t')
   ↔ dom (Dyn.fields r) ⊆ Dyn.columns_ t
     ∧ ∃ c, c ∈ Dyn.secondaryIndexedColumns_ t ∧ ¬ DynSpec.resolves t r c)
  ∧ ∀ e t', Dyn.addRecord r t = Dyn.Throws e t' →
            (∃ c, c ∈ Dyn.secondaryIndexedColumns_ t
                  ∧ ¬ DynSpec.resolves t r c
                  ∧ e = Dyn.runtime_error ("Unknown column: " +:+ c))
            ∧ Dyn.records_ t' = Dyn.records_ t ++ [r]
            ∧ Dyn.deleted_ t' = Dyn.deleted_ t ++ [false]
            ∧ Dyn.pkIndex_ t'
              = <[Dyn.id r := length (Dyn.records_ t)]> (Dyn.pkIndex_ t).
Proof.
  split; [split|].
  - intros (e & t' & Hadd).
    apply dyn_addRecord_throws in Hadd as (Hdom & (c & Hc & Hres & _) & _).
    split; [done|]. by exists c.
  - intros (Hok%map_Forall_dom & c & Hc & Hres).
    rewrite dyn_addRecord_loop by done.
    destruct (DynSpec.index_loop _ _ _) as [[e|] m'] eqn:Hloop.
    + by eexists _, _.
    + destruct Hres. apply pushed_resolves, getField_resolves.
      eapply get_loop_returns; [exact Hloop|].
      by apply dyn_elem_of_columns_in_order.
  - intros e t' Hadd. by apply dyn_addRecord_throws in Hadd as (_ & ? & ?).
Qed.

Lemma dyn_addRecord_then_find r t t' :
  DynSpec.wf t → Dyn.addRecord r t = Dyn.Returns true t' →
  Dyn.findMatching t' "id" (FUInt (Dyn.id r)) = Dyn.Value [r]
  ∧ ∀ k, k ≠ Dyn.id r →
         Dyn.findMatching t' "id" (FUInt k) = Dyn.findMatching t "id" (FUInt k).
Proof.
  intros Hwf (Hr & Hd & Hpk)%dyn_addRecord_store.
  pose proof (DynSpec.wf_length _ Hwf) as Hlen.
  unfold Dyn.findMatching, Dyn.deleted_at, Dyn.record_at.
  rewrite !decide_True by done. rewrite Hr, Hd, Hpk. split.
  - rewrite lookup_insert_eq.
    rewrite lookup_total_app_r, Hlen, Nat.sub_diag by lia. cbn.
    by rewrite list_lookup_total_middle.
  - intros k Hk. rewrite lookup_insert_ne by done.
    destruct (Dyn.pkIndex_ t !! k) as [slot|] eqn:Hslot; [|done].
    apply (DynSpec.wf_pk _ Hwf) in Hslot as [Hslot _].
    apply dyn_elem_of_active_slots in Hslot as [Hslot _].
    by rewrite !lookup_total_app_l by lia.
Qed.

(** X17.  In every table the operations build without a throw, a record
    that [addRecord] accepts is the one a query by its key returns, also when an older
    active record holds the same key; queries by any other key return what
    they returned before. *)
Theorem dyn_added_record_is_found_by_key
    (ops : list Dyn.Op) (t t' : Dyn.QBTableDynamic) (r : Dyn.QBRecordDynamic) :
  Dyn.run ops = Dyn.Returns () t → Dyn.addRecord r t = Dyn.Returns true t' →
  Dyn.findMatching t' "id" (FUInt (Dyn.id r)) = Dyn.Value [r]
  ∧ ∀ k, k ≠ Dyn.id r →
         Dyn.findMatching t' "id" (FUInt k) = Dyn.findMatching t "id" (FUInt k).
Proof. intros Hrun. by apply dyn_addRecord_then_find, (dyn_run_wf ops). Qed.

Lemma dyn_added_record_is_found_by_key_witness :
  Dyn.findMatching
    (Dyn.mkQBTableDynamic [dyn_alice; dyn_bob; dyn_bob] [false; true; false]
       {["name"]} ∅ (<[2%N := 2]> (<[1%N := 0]> ∅)) {["name"]}
       (<[("name", FStr "bob") := [2]]>
          (<[("name", FStr "alice") := [0]]> ∅)))
    "id" (FUInt (Dyn.id dyn_bob))
  = Dyn.Value [dyn_bob]
  ∧ ∀ k, k ≠ Dyn.id dyn_bob →
         Dyn.findMatching
           (Dyn.mkQBTableDynamic [dyn_alice; dyn_bob; dyn_bob]
              [false; true; false] {["name"]} ∅
              (<[2%N := 2]> (<[1%N := 0]> ∅)) {["name"]}
              (<[("name", FStr "bob") := [2]]>
                 (<[("name", FStr "alice") := [0]]> ∅)))
           "id" (FUInt k)
         = Dyn.findMatching dyn_table "id" (FUInt k).
Proof.
  apply (dyn_added_record_is_found_by_key dyn_ops dyn_table _ dyn_bob);
    by_computation.
Defined.

Lemma dyn_soft_delete_active_records t k idx :
  DynSpec.wf t → Dyn.pkIndex_ t !! k = Some idx →
  ∃ t', Dyn.deleteRecordByID k false t = Dyn.Returns true t'
        ∧ DynSpec.active_records t'
          = (λ i, Dyn.record_at t i)
              <$> filter (λ j, j ≠ idx) (DynSpec.active_slots t).
Proof.
  intros Hwf Hk.
  destruct (dyn_deleteRecordByID_soft_returns k idx t Hwf Hk) as [m' ->].
  eexists. split; [done|].
  unfold DynSpec.active_records.
  change (DynSpec.active_slots
            (Dyn.set_secondaryIndexes (DynSpec.soft_marked k idx t) m'))
    with (active_of (Dyn.records_ t) (<[idx := true]> (Dyn.deleted_ t))).
  by rewrite active_of_soft by apply Hwf.
Qed.

Lemma dyn_hard_delete_active_records t k idx :
  DynSpec.wf t → Dyn.pkIndex_ t !! k = Some idx →
  ∃ t', Dyn.deleteRecordByID k true t = Dyn.Returns true t'
        ∧ DynSpec.active_records t'
          ≡ₚ (λ i, Dyn.record_at t i)
               <$> filter (λ j, j ≠ idx) (DynSpec.active_slots t).
Proof.
  intros Hwf Hk.
  destruct (dyn_deleteRecordByID_hard_returns k idx t Hwf Hk) as [m' ->].
  eexists. split; [done|].
  destruct (DynSpec.wf_pk _ Hwf _ _ Hk) as [Hact _].
  apply dyn_elem_of_active_slots in Hact as [Hidx _].
  pose proof (DynSpec.wf_length _ Hwf) as Hlen.
  unfold DynSpec.active_records.
  change (DynSpec.active_slots t)
    with (active_of (Dyn.records_ t) (Dyn.deleted_ t)).
  change (DynSpec.active_slots
            (Dyn.set_secondaryIndexes
               (Dyn.rebuildPrimaryIndex (DynSpec.hard_deleted_store idx t)) m'))
    with (active_of
            (pop_back (swap_slots (Dyn.records_ t) idx
                         (length (Dyn.records_ t) - 1)))
            (pop_back (swap_slots (Dyn.deleted_ t) idx
                         (length (Dyn.records_ t) - 1)))).
  rewrite <- (active_of_hard_perm (Dyn.records_ t) (Dyn.deleted_ t) idx)
    by done.
  rewrite <- list_fmap_compose.
  apply reflexive_eq, list_fmap_ext. intros i j Hj.
  apply list_elem_of_lookup_2 in Hj.
  destruct (active_of_hard _ _ idx j Hlen Hidx Hj) as [_ Heq].
  exact Heq.
Qed.

(** X18.  In every table the operations build without a throw, a delete of
    a key that resolves returns true without throwing and removes exactly the record
    the primary-key index points to, which is active and holds the key: the
    soft delete keeps the other active records in their order, the hard
    delete keeps them up to order. *)
Theorem dyn_delete_removes_exactly_one_record
    (ops : list Dyn.Op) (t : Dyn.QBTableDynamic) (k : N) (idx : nat) :
  Dyn.run ops = Dyn.Returns () t → Dyn.pkIndex_ t !! k = Some idx →
  Dyn.id (Dyn.record_at t idx) = k
  ∧ idx ∈ DynSpec.active_slots t
  ∧ (∃ t', Dyn.deleteRecordByID k false t = Dyn.Returns true t'
           ∧ DynSpec.active_records t'
             = (λ i, Dyn.record_at t i)
                 <$> filter (λ j, j ≠ idx) (DynSpec.active_slots t))
  ∧ (∃ t', Dyn.deleteRecordByID k true t = Dyn.Returns true t'
           ∧ DynSpec.active_records t'
             ≡ₚ (λ i, Dyn.record_at t i)
                  <$> filter (λ j, j ≠ idx) (DynSpec.active_slots t)).
Proof.
  intros Hwf%dyn_run_wf Hk.
  destruct (DynSpec.wf_pk _ Hwf _ _ Hk) as [Hact Hkey].
  split; [done|]. split; [done|]. split.
  - by apply dyn_soft_delete_active_records.
  - by apply dyn_hard_delete_active_records.
Qed.

Lemma dyn_delete_removes_exactly_one_record_witness :
  Dyn.id (Dyn.record_at dyn_table 0) = 1%N
  ∧ 0 ∈ DynSpec.active_slots dyn_table
  ∧ (∃ t', Dyn.deleteRecordByID 1 false dyn_table = Dyn.Returns true t'
           ∧ DynSpec.active_records t'
             = (λ i, Dyn.record_at dyn_table i)
                 <$> filter (λ j, j ≠ 0) (DynSpec.active_slots dyn_table))
  ∧ (∃ t', Dyn.deleteRecordByID 1 true dyn_table = Dyn.Returns true t'
           ∧ DynSpec.active_records t'
             ≡ₚ (λ i, Dyn.record_at dyn_table i)
                  <$> filter (λ j, j ≠ 0) (DynSpec.active_slots dyn_table)).
Proof.
  apply (dyn_delete_removes_exactly_one_record dyn_ops dyn_table 1%N 0);
    by_computation.
Defined.

Lemma fixed_key_query t s :
  FixedSpec.pk_sound t →
  Fixed.findMatching t COLUMN0 s = []
  ∨ ∃ r, Fixed.findMatching t COLUMN0 s = [r]
         ∧ column0 r = (from_chars_uint s).2
         ∧ r ∈ FixedSpec.active_records t.
Proof.
  intros Hpk. unfold Fixed.findMatching. rewrite decide_True by done.
  destruct (from_chars_uint s) as [cr v]. case_decide; [by left|].
  destruct (Fixed.pkIndex_ t !! v) as [slot|] eqn:Hv; [|by left].
  destruct (Hpk _ _ Hv) as [Hact Hkey].
  pose proof Hact as [_ ->]%elem_of_active_slots.
  right. eexists. split; [done|]. split; [done|].
  unfold FixedSpec.active_records. apply list_elem_of_fmap. by exists slot.
Qed.

Lemma dyn_key_query t k :
  DynSpec.pk_sound t →
  Dyn.findMatching t "id" (FUInt k) = Dyn.Value []
  ∨ ∃ r, Dyn.findMatching t "id" (FUInt k) = Dyn.Value [r]
         ∧ Dyn.id r = k ∧ r ∈ DynSpec.active_records t.
Proof.
  intros Hpk. unfold Dyn.findMatching. rewrite decide_True by done.
  destruct (Dyn.pkIndex_ t !! k) as [slot|] eqn:Hv; [|by left].
  destruct (Hpk _ _ Hv) as [Hact Hkey].
  pose proof Hact as [_ ->]%dyn_elem_of_active_slots.
  right. eexists. split; [done|]. split; [done|].
  unfold DynSpec.active_records. apply list_elem_of_fmap. by exists slot.
Qed.

(** X22.  In every table the operations build (the dynamic one without a
    throw), a query by primary key returns no record or one record, and that record is active and holds
    the key asked for; a soft-deleted record is never returned. *)
Theorem key_query_returns_an_active_holder
    (opsF : list Fixed.Op) (s : string)
    (opsD : list Dyn.Op) (td : Dyn.QBTableDynamic) (k : N) :
  Dyn.run opsD = Dyn.Returns () td →
  (Fixed.findMatching (Fixed.run opsF) COLUMN0 s = []
   ∨ ∃ r, Fixed.findMatching (Fixed.run opsF) COLUMN0 s = [r]
          ∧ column0 r = (from_chars_uint s).2
          ∧ r ∈ FixedSpec.active_records (Fixed.run opsF))
  ∧ (Dyn.findMatching td "id" (FUInt k) = Dyn.Value []
     ∨ ∃ r, Dyn.findMatching td "id" (FUInt k) = Dyn.Value [r]
            ∧ Dyn.id r = k ∧ r ∈ DynSpec.active_records td).
Proof.
  intros Hwf%dyn_run_wf. split.
  - apply fixed_key_query, run_wf.
  - apply dyn_key_query, Hwf.
Qed.

Lemma key_query_returns_an_active_holder_witness :
  (Fixed.findMatching (Fixed.run fixed_ops) COLUMN0 "123" = []
   ∨ ∃ r, Fixed.findMatching (Fixed.run fixed_ops) COLUMN0 "123" = [r]
          ∧ column0 r = (from_chars_uint "123").2
          ∧ r ∈ FixedSpec.active_records (Fixed.run fixed_ops))
  ∧ (Dyn.findMatching dyn_table "id" (FUInt 1) = Dyn.Value []
     ∨ ∃ r, Dyn.findMatching dyn_table "id" (FUInt 1) = Dyn.Value [r]
            ∧ Dyn.id r = 1%N ∧ r ∈ DynSpec.active_records dyn_table).
Proof.
  apply (key_query_returns_an_active_holder fixed_ops "123" dyn_ops dyn_table 1).
  by_computation.
Defined.

Lemma getField_field_value t i c v :
  Dyn.getField t i c = Dyn.Value v
  ↔ DynMore.field_value t (Dyn.record_at t i) c = Some v.
Proof.
  unfold Dyn.getField, DynMore.field_value.
  destruct (Dyn.fields (Dyn.record_at t i) !! c) as [w|].
  - split; by intros [= ->].
  - destruct (Dyn.derivedColumns_ t !! c) as [f|]; cbn.
    + split; by intros [= ->].
    + split; by intros [=].
Qed.

Lemma dyn_indexed_findMatching t c v :
  DynSpec.sec_exact t → c ∈ Dyn.secondaryIndexedColumns_ t → c ≠ "id" →
  Dyn.findMatching t c v
  = Dyn.Value (filter (λ r, DynMore.field_value t r c = Some v)
                      (DynSpec.active_records t)).
Proof.
  intros Hsec Hc Hid. unfold Dyn.findMatching. rewrite decide_False by done.
  rewrite Hsec. unfold DynSpec.bucket_spec. rewrite decide_True by done.
  unfold DynSpec.active_records. rewrite filter_fmap.
  assert (filter (λ i, DynMore.field_value t (Dyn.record_at t i) c = Some v)
                 (DynSpec.active_slots t)
          = filter (λ i, Dyn.getField t i c = Dyn.Value v)
                   (DynSpec.active_slots t)) as ->.
  { apply filter_ext_in. intros i _. symmetry. apply getField_field_value. }
  destruct (filter (λ i, Dyn.getField t i c = Dyn.Value v)
                   (DynSpec.active_slots t)) as [|i hits] eqn:Hhits.
  - cbn [FixedSpec.bucket]. f_equal. rewrite filter_none; [done|].
    intros i Hi [Hd Hf].
    assert (i ∈ filter (λ i, Dyn.getField t i c = Dyn.Value v)
                       (DynSpec.active_slots t)) as Hin.
    { apply list_elem_of_filter. split.
      - unfold Dyn.getField. by rewrite Hf.
      - apply dyn_elem_of_active_slots. split; [|done].
        unfold Dyn.slots in Hi. apply elem_of_seq in Hi. lia. }
    rewrite Hhits in Hin. by apply not_elem_of_nil in Hin.
  - cbn [FixedSpec.bucket]. f_equal. f_equal. apply filter_all.
    intros j Hj. rewrite <- Hhits in Hj.
    apply list_elem_of_filter in Hj as [_ Hj].
    by apply dyn_elem_of_active_slots in Hj as [_ ?].
Qed.

Lemma dyn_all_active_records t :
  Dyn.deleted_ t = replicate (length (Dyn.records_ t)) false →
  DynSpec.active_records t = Dyn.records_ t.
Proof.
  intros Hd. unfold DynSpec.active_records.
  change (DynSpec.active_slots t)
    with (active_of (Dyn.records_ t) (Dyn.deleted_ t)).
  rewrite Hd, active_of_all_active. apply lookups_of_slots.
Qed.

(** X19.  Compaction makes the secondary index exact: in every table the
    operations build without a throw, [compactRecords] returns, and afterwards a query on
    an indexed column returns exactly the records that were active, in
    their order, whose value for the column (the stored field, else the
    derived column) is the value asked for. *)
Theorem dyn_compaction_makes_index_exact
    (ops : list Dyn.Op) (t : Dyn.QBTableDynamic) :
  Dyn.run ops = Dyn.Returns () t →
  ∃ t', Dyn.compactRecords t = Dyn.Returns () t'
        ∧ ∀ c v, c ∈ Dyn.secondaryIndexedColumns_ t → c ≠ "id" →
                 Dyn.findMatching t' c v
                 = Dyn.Value (filter (λ r, DynMore.field_value t r c = Some v)
                                     (DynSpec.active_records t)).
Proof.
  intros Hrun.
  destruct (dyn_compaction_post ops t Hrun)
    as (t' & Hc & Hr & Hd & _ & Hidx & _ & _ & Hsec).
  exists t'. split; [done|]. intros c v Hcol Hid.
  rewrite dyn_indexed_findMatching; [|done|by rewrite Hidx|done].
  rewrite dyn_all_active_records by by rewrite Hd, Hr.
  rewrite Hr. f_equal. apply filter_ext_in. intros r _.
  destruct (dyn_compactRecords_returns t) as [m' Hm'].
  { by apply (dyn_run_wf ops). }
  rewrite Hm' in Hc. injection Hc as <-. done.
Qed.

Lemma dyn_compaction_makes_index_exact_witness :
  ∃ t', Dyn.compactRecords dyn_table = Dyn.Returns () t'
        ∧ ∀ c v, c ∈ Dyn.secondaryIndexedColumns_ dyn_table → c ≠ "id" →
                 Dyn.findMatching t' c v
                 = Dyn.Value
                     (filter (λ r, DynMore.field_value dyn_table r c = Some v)
                             (DynSpec.active_records dyn_table)).
Proof.
  apply (dyn_compaction_makes_index_exact dyn_ops dyn_table). by_computation.
Defined.

Lemma rebuild_loop_throws t c l m e m' :
  DynSpec.index_loop (DynSpec.rebuild_step t c) l m = (Some e, m') →
  e = Dyn.runtime_error ("Unknown column: " +:+ c)
  ∧ ∃ i, i ∈ l ∧ Dyn.deleted_at t i = false
         ∧ ¬ DynSpec.resolves t (Dyn.record_at t i) c.
Proof.
  revert m. induction l as [|i l IH]; intros m Hloop; [done|].
  cbn [DynSpec.index_loop] in Hloop.
  unfold DynSpec.rebuild_step at 1 in Hloop.
  destruct (Dyn.deleted_at t i) eqn:Hd.
  { destruct (IH _ Hloop) as (He & j & Hj & Hjd & Hres).
    split; [done|]. exists j. split; [by right|done]. }
  destruct (Dyn.getField t i c) as [v|e'] eqn:Hget.
  - destruct (IH _ Hloop) as (He & j & Hj & Hjd & Hres).
    split; [done|]. exists j. split; [by right|done].
  - injection Hloop as <- <-.
    apply getField_raised in Hget as [-> Hres].
    split; [done|]. exists i. split; [by left|done].
Qed.

Lemma dyn_createIndex_new c t :
  (c ∈ Dyn.columns_ t ∨ is_Some (Dyn.derivedColumns_ t !! c)) →
  c ∉ Dyn.secondaryIndexedColumns_ t →
  Dyn.createIndex c t
  = DynSpec.with_index ()
      (Dyn.set_secondaryIndexedColumns t
         ({[c]} ∪ Dyn.secondaryIndexedColumns_ t))
      (DynSpec.index_loop
         (DynSpec.rebuild_step
            (Dyn.set_secondaryIndexedColumns t
               ({[c]} ∪ Dyn.secondaryIndexedColumns_ t)) c)
         (Dyn.slots t) (Dyn.secondaryIndexes_ t)).
Proof.
  intros Hknown Hnew. unfold Dyn.createIndex.
  rewrite decide_False.
  2:{ intros [Hc Hd]. destruct Hknown as [?|[f Hf]]; [done|].
      by rewrite Hf in Hd. }
  rewrite decide_False by done.
  rewrite <- (set_secondaryIndexes_eta (Dyn.set_secondaryIndexedColumns _ _)).
  by rewrite rebuildSecondaryIndex_loop.
Qed.

(** X20.  [createIndex] of the dynamic table on a column that is neither
    declared nor derived throws and leaves the table as it was.  On a known
    column that is not indexed it returns exactly when every active record
    has a value for the column; otherwise it throws from the rebuild and
    leaves the column marked as indexed, with the records, the deleted
    markers and the primary-key index as they were. *)
Theorem dyn_createIndex_outcome (t : Dyn.QBTableDynamic) (c : string) :
  (c ∉ Dyn.columns_ t → Dyn.derivedColumns_ t !! c = None →
   Dyn.createIndex c t
   = Dyn.Throws (Dyn.runtime_error "Cannot index unknown column") t)
  ∧ ((c ∈ Dyn.columns_ t ∨ is_Some (Dyn.derivedColumns_ t !! c)) →
     c ∉ Dyn.secondaryIndexedColumns_ t →
     ((∃ t', Dyn.createIndex c t = Dyn.Returns () t')
      ↔ ∀ i, i ∈ DynSpec.active_slots t →
             DynSpec.resolves t (Dyn.record_at t i) c)
     ∧ ∀ e t', Dyn.createIndex c t = Dyn.Throws e t' →
               e = Dyn.runtime_error ("Unknown column: " +:+ c)
               ∧ c ∈ Dyn.secondaryIndexedColumns_ t'
               ∧ Dyn.records_ t' = Dyn.records_ t
               ∧ Dyn.deleted_ t' = Dyn.deleted_ t
               ∧ Dyn.pkIndex_ t' = Dyn.pkIndex_ t).
Proof.
  split.
  { intros Hc Hd. unfold Dyn.createIndex. by rewrite decide_True. }
  intros Hknown Hnew. rewrite dyn_createIndex_new by done.
  split; [split|].
  - intros [t' Hret] i [Hi Hd]%dyn_elem_of_active_slots.
    destruct (DynSpec.index_loop _ _ _) as [[e|] m'] eqn:Hloop; [done|].
    apply (rebuild_loop_returns _ _ _ _ _ Hloop i); [|done].
    unfold Dyn.slots. apply elem_of_seq. lia.
  - intros Hall. rewrite rebuild_loop_ok; [by eexists|].
    intros i Hi Hd. apply (Hall i). unfold Dyn.slots in Hi.
    apply elem_of_seq in Hi.
    apply dyn_elem_of_active_slots. split; [lia|done].
  - intros e t' Hthrow.
    destruct (DynSpec.index_loop _ _ _) as [[e'|] m'] eqn:Hloop; [|done].
    injection Hthrow as <- <-.
    apply rebuild_loop_throws in Hloop as [-> _].
    split; [done|]. split; [|done]. cbn. set_solver.
Qed.

Lemma elem_of_pop_swap {A} `{Inhabited A} (rs : list A) idx r :
  idx < length rs →
  r ∈ pop_back (swap_slots rs idx (length rs - 1)) → r ∈ rs.
Proof.
  intros Hidx [j Hj]%list_elem_of_lookup.
  pose proof (lookup_lt_Some _ _ _ Hj) as Hlt.
  rewrite pop_back_length, swap_slots_length in Hlt.
  apply list_lookup_total_correct in Hj.
  rewrite pop_swap_lookup in Hj by done. subst r.
  apply list_elem_of_lookup_total_2. case_decide; lia.
Qed.

Lemma declared_embed t t' :
  Dyn.columns_ t' = Dyn.columns_ t →
  (∀ r, r ∈ Dyn.records_ t' → r ∈ Dyn.records_ t) →
  DynMore.fields_declared t → DynMore.fields_declared t'.
Proof.
  intros Hc Hr Hdecl r Hin. rewrite Hc. by apply Hdecl, Hr.
Qed.

Lemma dyn_step_declared op t t' :
  Dyn.step op t = Dyn.Returns () t' → DynSpec.wf t →
  DynMore.fields_declared t → DynMore.fields_declared t'.
Proof.
  intros Hstep Hwf Hdecl.
  destruct op as [name d|name|name f|c|c|r|k hard|]; cbn [Dyn.step] in Hstep.
  - apply discard_returns in Hstep as [b Hb]. unfold Dyn.addColumn in Hb.
    case_decide; [by injection Hb as _ <-|]. injection Hb as _ <-.
    intros r' [r [-> Hr]]%list_elem_of_fmap. cbn.
    specialize (Hdecl r Hr).
    destruct (Dyn.fields r !! name); cbn; [set_solver|].
    rewrite dom_insert. set_solver.
  - injection Hstep as <-.
    intros r' [r [-> Hr]]%list_elem_of_fmap. cbn.
    specialize (Hdecl r Hr). rewrite dom_delete. set_solver.
  - apply discard_returns in Hstep as [b Hb]. unfold Dyn.addDerivedColumn in Hb.
    case_decide; by injection Hb as _ <-.
  - unfold Dyn.createIndex in Hstep.
    case_decide; [done|]. case_decide; [by injection Hstep as <-|].
    rewrite <- (set_secondaryIndexes_eta (Dyn.set_secondaryIndexedColumns _ _))
      in Hstep.
    rewrite rebuildSecondaryIndex_loop in Hstep.
    destruct (DynSpec.index_loop _ _ _) as [[e|] m']; [done|].
    by injection Hstep as <-.
  - unfold Dyn.dropIndex in Hstep. case_decide; [done|].
    by injection Hstep as <-.
  - apply discard_returns in Hstep as [b Hb].
    destruct (decide (map_Forall (λ key _, key ∈ Dyn.columns_ t)
                                 (Dyn.fields r))) as [Hok|Hno].
    2:{ rewrite dyn_addRecord_rejects in Hb by done. by injection Hb as _ <-. }
    rewrite dyn_addRecord_loop in Hb by done.
    destruct (DynSpec.index_loop _ _ _) as [[e|] m']; [done|].
    injection Hb as _ <-.
    intros r' [Hr| ->%list_elem_of_singleton]%elem_of_app.
    + by apply Hdecl.
    + by apply map_Forall_dom.
  - apply discard_returns in Hstep as [b Hb].
    destruct (Dyn.pkIndex_ t !! k) as [idx|] eqn:Hk.
    2:{ unfold Dyn.deleteRecordByID in Hb. rewrite Hk in Hb.
        by injection Hb as _ <-. }
    destruct hard.
    + destruct (dyn_deleteRecordByID_hard_returns k idx t Hwf Hk) as [m' Heq].
      rewrite Heq in Hb. injection Hb as _ <-.
      apply (declared_embed t); [done| |done].
      intros r. apply elem_of_pop_swap.
      destruct (DynSpec.wf_pk _ Hwf _ _ Hk) as [Hact _].
      by apply dyn_elem_of_active_slots in Hact as [? _].
    + destruct (dyn_deleteRecordByID_soft_returns k idx t Hwf Hk) as [m' Heq].
      rewrite Heq in Hb. by injection Hb as _ <-.
  - destruct (dyn_compactRecords_returns t) as [m' Heq]; [apply Hwf|].
    rewrite Heq in Hstep. injection Hstep as <-.
    apply (declared_embed t); [done| |done].
    intros r [i [-> Hi]]%list_elem_of_fmap.
    apply dyn_elem_of_active_slots in Hi as [Hi _].
    by apply list_elem_of_lookup_total_2.
Qed.

Lemma dyn_for_each_step_declared ops t t' :
  Dyn.for_each Dyn.step ops t = Dyn.Returns () t' → DynSpec.wf t →
  DynMore.fields_declared t → DynMore.fields_declared t'.
Proof.
  revert t. induction ops as [|op ops IH]; intros t Hrun Hwf Hdecl.
  - by injection Hrun as <-.
  - cbn [Dyn.for_each] in Hrun.
    destruct (Dyn.step op t) as [[] t1|e t1] eqn:Hstep; [|done].
    apply (IH t1); [done|by eapply dyn_step_wf|by eapply dyn_step_declared].
Qed.

(** X21.  The part of the schema the dynamic table does enforce: in every
    table the operations build without a throw, every stored record, active or deleted,
    carries fields of declared physical columns only. *)
Theorem dyn_records_carry_declared_fields_only
    (ops : list Dyn.Op) (t : Dyn.QBTableDynamic) (r : Dyn.QBRecordDynamic) :
  Dyn.run ops = Dyn.Returns () t → r ∈ Dyn.records_ t →
  dom (Dyn.fields r) ⊆ Dyn.columns_ t.
Proof.
  intros Hrun. revert r.
  apply (dyn_for_each_step_declared ops Dyn.empty); [done|apply dyn_empty_wf|].
  by intros r Hr%elem_of_nil.
Qed.

Lemma dyn_records_carry_declared_fields_only_witness :
  dom (Dyn.fields dyn_bob) ⊆ Dyn.columns_ dyn_table.
Proof.
  apply (dyn_records_carry_declared_fields_only dyn_ops dyn_table dyn_bob).
  - by_computation.
  - by_computation.
Defined.

End dyn_operations.

(** ** Queries and compaction in both tables *)

Section queries.
Import Examples.

Lemma fixed_query_active t c s r :
  FixedSpec.wf t → COLUMN0 ∉ Fixed.secondaryIndexedColumns_ t →
  r ∈ Fixed.findMatching t c s → r ∈ FixedSpec.active_records t.
Proof.
  intros Hwf H0 Hr.
  destruct (decide (c = COLUMN0)) as [->|Hc].
  { destruct (fixed_key_query t s (FixedSpec.wf_pk _ Hwf))
      as [Hnone|(r' & Hsome & _ & Hact)].
    - rewrite Hnone in Hr. by apply elem_of_nil in Hr.
    - rewrite Hsome in Hr. by apply list_elem_of_singleton in Hr as ->. }
  destruct (decide (c ∈ Fixed.secondaryIndexedColumns_ t)) as [Hin|Hout].
  - rewrite fixed_indexed_findMatching in Hr by done.
    by apply list_elem_of_filter in Hr as [_ ?].
  - rewrite fixed_unindexed_findMatching in Hr by done.
    by apply list_elem_of_filter in Hr as [_ ?].
Qed.

Lemma slots_below_mono n n' m :
  n ≤ n' → DynMore.slots_below n m → DynMore.slots_below n' m.
Proof. intros Hn Hm k l i Hk Hi. specialize (Hm k l i Hk Hi). lia. Qed.

Lemma slots_below_empty n : DynMore.slots_below n ∅.
Proof. intros k l i Hk. by rewrite lookup_empty in Hk. Qed.

Lemma slots_below_push n k i m :
  i < n → DynMore.slots_below n m →
  DynMore.slots_below n (push_back_bucket k i m).
Proof.
  intros Hi Hm k' l j Hk' Hj. rewrite push_back_bucket_lookup in Hk'.
  case_decide; [|by eapply Hm].
  injection Hk' as <-. apply elem_of_app in Hj as [Hj|Hj].
  - destruct (m !! k) as [l'|] eqn:Hl; [by eapply Hm|].
    by apply elem_of_nil in Hj.
  - by apply list_elem_of_singleton in Hj as ->.
Qed.

Lemma slots_below_unindex n idx c v m :
  DynMore.slots_below n m →
  DynMore.slots_below n (DynSpec.unindex_slot idx c v m).
Proof.
  intros Hm. unfold DynSpec.unindex_slot.
  destruct (m !! (c, v)) as [vec|] eqn:Hvec; [|done].
  destruct (erase_slot idx vec) as [|j vec'] eqn:Herase.
  - intros k l i Hk. apply lookup_delete_Some in Hk as [_ Hk]. by eapply Hm.
  - intros k l i Hk Hi.
    destruct (decide (k = (c, v))) as [->|Hne].
    + rewrite lookup_insert_eq in Hk. injection Hk as <-.
      rewrite <- Herase in Hi. unfold erase_slot in Hi.
      apply list_elem_of_filter in Hi as [_ Hi]. by eapply Hm.
    + rewrite lookup_insert_ne in Hk by done. by eapply Hm.
Qed.

Lemma rebuild_loop_range t c n l m m' :
  DynSpec.index_loop (DynSpec.rebuild_step t c) l m = (None, m') →
  (∀ i, i ∈ l → i < n) →
  DynMore.slots_below n m → DynMore.slots_below n m'.
Proof.
  revert m. induction l as [|i l IH]; intros m Hloop Hl Hm.
  { by injection Hloop as <-. }
  cbn [DynSpec.index_loop] in Hloop.
  unfold DynSpec.rebuild_step at 1 in Hloop.
  assert (∀ j, j ∈ l → j < n) as Hl' by (intros j Hj; apply Hl; by right).
  destruct (Dyn.deleted_at t i); [by eapply IH|].
  destruct (Dyn.getField t i c) as [v|e]; [|done].
  eapply IH; [exact Hloop|done|].
  apply slots_below_push; [|done]. apply Hl. by left.
Qed.

Lemma rebuild_columns_range t skip cols m m' :
  DynSpec.index_loop (DynSpec.rebuild_columns_step t skip) cols m
  = (None, m') →
  DynMore.slots_below (length (Dyn.records_ t)) m →
  DynMore.slots_below (length (Dyn.records_ t)) m'.
Proof.
  revert m. induction cols as [|c cols IH]; intros m Hloop Hm.
  { by injection Hloop as <-. }
  cbn [DynSpec.index_loop] in Hloop.
  unfold DynSpec.rebuild_columns_step at 1 in Hloop.
  destruct (skip c); [by eapply IH|].
  destruct (DynSpec.index_loop (DynSpec.rebuild_step t c) (Dyn.slots t) m)
    as [[e|] m1] eqn:Hc; [done|].
  eapply IH; [exact Hloop|].
  eapply rebuild_loop_range; [exact Hc| |done].
  intros i Hi. unfold Dyn.slots in Hi. apply elem_of_seq in Hi. lia.
Qed.

Lemma get_loop_range {I} (g : I → Dyn.result FieldType) h n (l : list I)
    m m' :
  DynSpec.index_loop (DynSpec.get_step g h) l m = (None, m') →
  (∀ i v m, DynMore.slots_below n m → DynMore.slots_below n (h i v m)) →
  DynMore.slots_below n m → DynMore.slots_below n m'.
Proof.
  intros Hloop Hh. revert m Hloop.
  induction l as [|i l IH]; intros m Hloop Hm.
  { by injection Hloop as <-. }
  cbn [DynSpec.index_loop] in Hloop. unfold DynSpec.get_step at 1 in Hloop.
  destruct (g i) as [v|e]; [|done].
  eapply IH; [exact Hloop|]. by apply Hh.
Qed.

Lemma dyn_step_range op t t' :
  Dyn.step op t = Dyn.Returns () t' → DynSpec.wf t →
  DynMore.buckets_in_range t → DynMore.buckets_in_range t'.
Proof.
  intros Hstep Hwf Hrange. unfold DynMore.buckets_in_range in *.
  destruct op as [name d|name|name f|c|c|r|k hard|]; cbn [Dyn.step] in Hstep.
  - apply discard_returns in Hstep as [b Hb]. unfold Dyn.addColumn in Hb.
    case_decide; [by injection Hb as _ <-|]. injection Hb as _ <-.
    cbn. by rewrite length_fmap.
  - injection Hstep as <-. cbn. rewrite length_fmap.
    intros k l i Hk. apply lookup_delete_Some in Hk as [_ Hk].
    by eapply Hrange.
  - apply discard_returns in Hstep as [b Hb]. unfold Dyn.addDerivedColumn in Hb.
    case_decide; by injection Hb as _ <-.
  - unfold Dyn.createIndex in Hstep.
    case_decide; [done|]. case_decide; [by injection Hstep as <-|].
    rewrite <- (set_secondaryIndexes_eta (Dyn.set_secondaryIndexedColumns _ _))
      in Hstep.
    rewrite rebuildSecondaryIndex_loop in Hstep.
    destruct (DynSpec.index_loop _ _ _) as [[e|] m'] eqn:Hloop; [done|].
    injection Hstep as <-. cbn.
    eapply rebuild_loop_range; [exact Hloop| |exact Hrange].
    intros i Hi. unfold Dyn.slots in Hi. cbn in Hi.
    apply elem_of_seq in Hi. lia.
  - unfold Dyn.dropIndex in Hstep. case_decide; [done|].
    injection Hstep as <-. cbn.
    intros k l i Hk. apply map_lookup_filter_Some in Hk as [Hk _].
    by eapply Hrange.
  - apply discard_returns in Hstep as [b Hb].
    destruct (decide (map_Forall (λ key _, key ∈ Dyn.columns_ t)
                                 (Dyn.fields r))) as [Hok|Hno].
    2:{ rewrite dyn_addRecord_rejects in Hb by done. by injection Hb as _ <-. }
    rewrite dyn_addRecord_loop in Hb by done.
    destruct (DynSpec.index_loop _ _ _) as [[e|] m'] eqn:Hloop; [done|].
    injection Hb as _ <-. cbn. rewrite length_app. cbn.
    eapply get_loop_range; [exact Hloop| |].
    + intros col v m Hm. apply slots_below_push; [lia|done].
    + eapply slots_below_mono; [|exact Hrange]. lia.
  - apply discard_returns in Hstep as [b Hb].
    destruct (Dyn.pkIndex_ t !! k) as [idx|] eqn:Hk.
    2:{ unfold Dyn.deleteRecordByID in Hb. rewrite Hk in Hb.
        by injection Hb as _ <-. }
    destruct (DynSpec.wf_pk _ Hwf _ _ Hk) as [Hact _].
    apply dyn_elem_of_active_slots in Hact as [Hidx Hd].
    destruct hard.
    + rewrite (dyn_deleteRecordByID_hard k idx) in Hb by done.
      destruct (DynSpec.index_loop _ _ _) as [[e|] m'] eqn:Hloop; [done|].
      injection Hb as _ <-.
      apply (rebuild_columns_range _ _ _ _ _ Hloop), slots_below_empty.
    + rewrite (dyn_deleteRecordByID_soft k idx) in Hb by done.
      destruct (DynSpec.index_loop _ _ _) as [[e|] m'] eqn:Hloop; [done|].
      injection Hb as _ <-. cbn.
      eapply get_loop_range; [exact Hloop| |exact Hrange].
      intros col v m. apply slots_below_unindex.
  - rewrite dyn_compactRecords_loop in Hstep.
    destruct (DynSpec.index_loop _ _ _) as [[e|] m'] eqn:Hloop; [done|].
    injection Hstep as <-.
    apply (rebuild_columns_range _ _ _ _ _ Hloop), slots_below_empty.
Qed.

Lemma dyn_for_each_step_range ops t t' :
  Dyn.for_each Dyn.step ops t = Dyn.Returns () t' → DynSpec.wf t →
  DynMore.buckets_in_range t → DynMore.buckets_in_range t'.
Proof.
  revert t. induction ops as [|op ops IH]; intros t Hrun Hwf Hrange.
  - by injection Hrun as <-.
  - cbn [Dyn.for_each] in Hrun.
    destruct (Dyn.step op t) as [[] t1|e t1] eqn:Hstep; [|done].
    apply (IH t1); [done|by eapply dyn_step_wf|by eapply dyn_step_range].
Qed.

Lemma dyn_query_active t c v rs r :
  DynSpec.wf t → DynMore.buckets_in_range t →
  Dyn.findMatching t c v = Dyn.Value rs → r ∈ rs →
  r ∈ DynSpec.active_records t.
Proof.
  intros Hwf Hrange Hq Hr.
  destruct (decide (c = "id")) as [->|Hc].
  { destruct v as [k| |]; try by (unfold Dyn.findMatching in Hq).
    destruct (dyn_key_query t k (DynSpec.wf_pk _ Hwf))
      as [Hnone|(r' & Hsome & _ & Hact)].
    - rewrite Hnone in Hq. injection Hq as <-. by apply elem_of_nil in Hr.
    - rewrite Hsome in Hq. injection Hq as <-.
      by apply list_elem_of_singleton in Hr as ->. }
  unfold Dyn.findMatching in Hq. rewrite decide_False in Hq by done.
  destruct (Dyn.secondaryIndexes_ t !! (c, v)) as [l|] eqn:Hl;
    injection Hq as <-;
    apply list_elem_of_fmap in Hr as (i & -> & Hi);
    apply list_elem_of_filter in Hi;
    apply list_elem_of_fmap; exists i; (split; [done|]);
    apply dyn_elem_of_active_slots.
  - destruct Hi as [Hd Hi]. split; [|done]. by eapply Hrange.
  - destruct Hi as [[Hd _] Hi]. split; [|done].
    unfold Dyn.slots in Hi. apply elem_of_seq in Hi. lia.
Qed.

(** X23.  No query returns a deleted record: in every table the operations
    build (the dynamic one without a throw), whatever the column, the value
    asked for and the state of the indexes, every record [findMatching]
    returns is an active record of the table. *)
Theorem queries_return_active_records_only
    (opsF : list Fixed.Op) (cF : ColumnType) (s : string)
    (opsD : list Dyn.Op) (td : Dyn.QBTableDynamic) (cD : string)
    (v : FieldType) (rs : list Dyn.QBRecordDynamic) :
  Dyn.run opsD = Dyn.Returns () td →
  Dyn.findMatching td cD v = Dyn.Value rs →
  (∀ r, r ∈ Fixed.findMatching (Fixed.run opsF) cF s →
        r ∈ FixedSpec.active_records (Fixed.run opsF))
  ∧ ∀ r, r ∈ rs → r ∈ DynSpec.active_records td.
Proof.
  intros Hrun Hq. split.
  - intros r. apply fixed_query_active; [apply run_wf|].
    apply run_keeps_primary_key_unmarked.
  - intros r. apply (dyn_query_active td cD v rs r); [by eapply dyn_run_wf| |done].
    apply (dyn_for_each_step_range opsD Dyn.empty); [done|apply dyn_empty_wf|].
    apply slots_below_empty.
Qed.

Lemma queries_return_active_records_only_witness :
  (∀ r, r ∈ Fixed.findMatching (Fixed.run fixed_ops) COLUMN3 "use" →
        r ∈ FixedSpec.active_records (Fixed.run fixed_ops))
  ∧ ∀ r, r ∈ [dyn_alice] → r ∈ DynSpec.active_records dyn_table.
Proof.
  apply (queries_return_active_records_only
           fixed_ops COLUMN3 "use" dyn_ops dyn_table "name" (FStr "alice")
           [dyn_alice]);
    by_computation.
Defined.

Lemma dyn_sec_exact_index_exact t :
  DynSpec.sec_exact t → DynMore.index_exact t.
Proof.
  intros Hsec c v. rewrite Hsec. unfold DynSpec.bucket_spec.
  case_decide; [|done]. f_equal. apply filter_ext_in.
  intros i Hi. apply getField_field_value.
Qed.

(** X26.  Compaction postcondition: after [compactRecords] the backing
    sequence holds exactly the records that were active, in their order;
    every deleted marker is false; the total count equals the active count;
    the indexed columns are the same; the primary-key index maps keys to
    slots that hold them and resolves the key of every record; and the
    secondary index holds, for every indexed column and value, the slots of
    the new numbering whose record has that value, in ascending order, and
    nothing else.  The fixed-schema table does so from every state, the
    dynamic table from every state the operations build without a throw,
    where the call returns. *)
Theorem compaction_postcondition
    (tf : Fixed.QBTable) (opsD : list Dyn.Op) (td : Dyn.QBTableDynamic) :
  Dyn.run opsD = Dyn.Returns () td →
  (Fixed.records_ (Fixed.compactRecords tf) = FixedSpec.active_records tf
   ∧ Fixed.deleted_ (Fixed.compactRecords tf)
     = replicate (length (FixedSpec.active_records tf)) false
   ∧ Fixed.totalRecordsCount (Fixed.compactRecords tf)
     = Fixed.activeRecordsCount (Fixed.compactRecords tf)
   ∧ Fixed.secondaryIndexedColumns_ (Fixed.compactRecords tf)
     = Fixed.secondaryIndexedColumns_ tf
   ∧ FixedSpec.pk_sound (Fixed.compactRecords tf)
   ∧ FixedSpec.pk_complete (Fixed.compactRecords tf)
   ∧ FixedMore.index_exact (Fixed.compactRecords tf))
  ∧ ∃ t', Dyn.compactRecords td = Dyn.Returns () t'
          ∧ Dyn.records_ t' = DynSpec.active_records td
          ∧ Dyn.deleted_ t'
            = replicate (length (DynSpec.active_records td)) false
          ∧ Dyn.totalRecordsCount t' = Dyn.activeRecordsCount t'
          ∧ Dyn.secondaryIndexedColumns_ t' = Dyn.secondaryIndexedColumns_ td
          ∧ DynSpec.pk_sound t'
          ∧ DynSpec.pk_complete t'
          ∧ DynMore.index_exact t'.
Proof.
  intros Hrun. split.
  - destruct (fixed_compaction_post tf) as (? & ? & ? & ? & ? & ? & Hsec).
    by apply sec_exact_index_exact in Hsec.
  - destruct (dyn_compaction_post opsD td Hrun)
      as (t' & ? & ? & ? & ? & ? & ? & ? & Hsec).
    exists t'. by apply dyn_sec_exact_index_exact in Hsec.
Qed.

Lemma compaction_postcondition_witness :
  (Fixed.records_ (Fixed.compactRecords (Fixed.run fixed_ops))
   = FixedSpec.active_records (Fixed.run fixed_ops)
   ∧ Fixed.deleted_ (Fixed.compactRecords (Fixed.run fixed_ops))
     = replicate (length (FixedSpec.active_records (Fixed.run fixed_ops)))
                 false
   ∧ Fixed.totalRecordsCount (Fixed.compactRecords (Fixed.run fixed_ops))
     = Fixed.activeRecordsCount (Fixed.compactRecords (Fixed.run fixed_ops))
   ∧ Fixed.secondaryIndexedColumns_ (Fixed.compactRecords (Fixed.run fixed_ops))
     = Fixed.secondaryIndexedColumns_ (Fixed.run fixed_ops)
   ∧ FixedSpec.pk_sound (Fixed.compactRecords (Fixed.run fixed_ops))
   ∧ FixedSpec.pk_complete (Fixed.compactRecords (Fixed.run fixed_ops))
   ∧ FixedMore.index_exact (Fixed.compactRecords (Fixed.run fixed_ops)))
  ∧ ∃ t', Dyn.compactRecords dyn_table = Dyn.Returns () t'
          ∧ Dyn.records_ t' = DynSpec.active_records dyn_table
          ∧ Dyn.deleted_ t'
            = replicate (length (DynSpec.active_records dyn_table)) false
          ∧ Dyn.totalRecordsCount t' = Dyn.activeRecordsCount t'
          ∧ Dyn.secondaryIndexedColumns_ t'
            = Dyn.secondaryIndexedColumns_ dyn_table
          ∧ DynSpec.pk_sound t'
          ∧ DynSpec.pk_complete t'
          ∧ DynMore.index_exact t'.
Proof.
  apply (compaction_postcondition (Fixed.run fixed_ops) dyn_ops dyn_table).
  reflexivity.
Defined.

End queries.
